(** * Bill.com / Airtable integration: the sync and bill-creation scripts

    A shallow embedding of
    - [common/airtable.js]  (the [Base] record-store client),
    - [sync_bills.js]       (Bill.com line items mirrored into the
                             'Bill Reporting' table),
    - [create_bill.js]      (Bill.com bills created from 'Check Requests'),
    together with the properties the specification states about them.

    JavaScript strings are modelled by [string] (8-bit code units), numbers
    that the scripts only carry around by [Z], objects used as records by
    Rocq records, objects used as field sets by [gmap string value], the
    [Map] named [changes] by an insertion-ordered association list, and
    promises by program trees over the external calls the scripts make. *)

From Stdlib Require Import ZArith Ascii String List Lia Bool.
From stdpp Require Import base option list gmap strings pretty.

#[local] Set Warnings "-clear-no-such-hyp".

Import ListNotations.
Local Open Scope string_scope.
Local Open Scope Z_scope.

(** ** JavaScript values *)

(** An Airtable attachment, or the [{url: ...}] object the sync pushes. *)
Record attachment := Attachment {
  url : string;
  filename : option string;
}.

(** The cell and property values the scripts handle. *)
#[warnings="-register-all"]
Inductive value :=
| VUndefined
| VNull
| VBool (b : bool)
| VNum (n : Z)
| VStr (s : string)
| VArr (elements : list value)
| VAttachment (a : attachment).

(** ToBoolean, as used by [||] and [if]. Arrays and objects are truthy. *)
Definition truthy (v : value) : bool :=
  match v with
  | VUndefined | VNull => false
  | VBool b => b
  | VNum n => negb (n =? 0)
  | VStr s => negb (String.eqb s EmptyString)
  | VArr _ | VAttachment _ => true
  end.

(** [a || b] *)
Definition js_or (a b : value) : value := if truthy a then a else b.

(** [v == null] (true of [null] and [undefined] only). *)
Definition is_nullish (v : value) : bool :=
  match v with VUndefined | VNull => true | _ => false end.

(** ToString, as applied by template literals. *)
Fixpoint to_string (v : value) : string :=
  match v with
  | VUndefined => "undefined"
  | VNull => "null"
  | VBool true => "true"
  | VBool false => "false"
  | VNum n => pretty n
  | VStr s => s
  | VArr elements =>
      String.concat ","
        (map (fun x => if is_nullish x then EmptyString else to_string x)
             elements)
  | VAttachment _ => "[object Object]"
  end.

Definition opt_value (o : option string) : value :=
  match o with Some s => VStr s | None => VUndefined end.

(** [s.substring(start, end)] for non-negative integer arguments: the
    arguments are swapped when [start > end] and clamped to the length. *)
Definition js_substring (s : string) (start end_ : nat) : string :=
  let lo := Nat.min start end_ in
  let hi := Nat.max start end_ in
  String.substring lo (hi - lo) s.

(** ** Regular expressions of the shape the scripts use

    Both patterns are a sequence of literal text and greedy [(.+)] groups.
    [.] matches any code unit except a line terminator; a [RegExp] without
    the global flag returns the leftmost match, and within it every [.+]
    takes the longest run for which the rest of the pattern still matches. *)

Inductive token :=
| Lit (text : list ascii)
| Group (name : string).

Definition is_dot (c : ascii) : bool :=
  negb (Ascii.eqb c "010"%char || Ascii.eqb c "013"%char).

Fixpoint strip_prefix (p s : list ascii) : option (list ascii) :=
  match p, s with
  | [], _ => Some s
  | _ :: _, [] => None
  | a :: p', b :: s' => if Ascii.eqb a b then strip_prefix p' s' else None
  end.

(** [.+] followed by the continuation [k]: longest first, then shorter. *)
Fixpoint plus_dot {R} (k : list ascii -> option R) (s : list ascii)
  : option (list ascii * R) :=
  match s with
  | [] => None
  | c :: s' =>
      if is_dot c then
        match plus_dot k s' with
        | Some (g, r) => Some (c :: g, r)
        | None =>
            match k s' with
            | Some r => Some ([c], r)
            | None => None
            end
        end
      else None
  end.

(** Match the tokens at the start of [s]; the captured groups in order. *)
Fixpoint match_here (re : list token) (s : list ascii)
  : option (list (string * list ascii)) :=
  match re with
  | [] => Some []
  | Lit text :: re' =>
      match strip_prefix text s with
      | Some s' => match_here re' s'
      | None => None
      end
  | Group name :: re' =>
      match plus_dot (match_here re') s with
      | Some (g, gs) => Some ((name, g) :: gs)
      | None => None
      end
  end.

(** Leftmost match: try every start position from the left. *)
Fixpoint search (re : list token) (s : list ascii)
  : option (list (string * list ascii)) :=
  match match_here re s with
  | Some gs => Some gs
  | None =>
      match s with
      | [] => None
      | _ :: s' => search re s'
      end
  end.

(** [s.match(re)]: [None] is [null], otherwise the captured groups. *)
Definition js_match (re : list token) (s : string)
  : option (list (string * string)) :=
  match search re (list_ascii_of_string s) with
  | Some gs => Some (map (fun '(n, g) => (n, string_of_list_ascii g)) gs)
  | None => None
  end.

Definition lit (s : string) : token := Lit (list_ascii_of_string s).

Definition nl : string := String "010"%char EmptyString.

Definition group_of (gs : list (string * string)) (name : string) : value :=
  match List.find (fun '(n, _) => String.eqb n name) gs with
  | Some (_, g) => VStr g
  | None => VUndefined
  end.

(** ** The JavaScript [Map]

    Keys are strings here. Iteration follows insertion order; [set] on a key
    that is present keeps its position and replaces its value. *)

Module JsMap.
Section Ops.
Context {V : Type}.

Definition t := list (string * V).

Fixpoint get (m : t) (k : string) : option V :=
  match m with
  | [] => None
  | (k', v) :: m' => if decide (k' = k) then Some v else get m' k
  end.

Fixpoint set (m : t) (k : string) (v : V) : t :=
  match m with
  | [] => [(k, v)]
  | (k', v') :: m' =>
      if decide (k' = k) then (k, v) :: m' else (k', v') :: set m' k v
  end.

Fixpoint delete (m : t) (k : string) : t :=
  match m with
  | [] => []
  | (k', v) :: m' =>
      if decide (k' = k) then delete m' k else (k', v) :: delete m' k
  end.

Definition keys (m : t) : list string := map fst m.

(** Lookup by an arbitrary value: only a string can be a key here. *)
Definition get_value (m : t) (k : value) : option V :=
  match k with VStr s => get m s | _ => None end.

Definition delete_value (m : t) (k : value) : t :=
  match k with VStr s => delete m s | _ => m end.
End Ops.
Arguments t : clear implicits.
End JsMap.

(** [{k1: v1, ..., kn: vn}]: a later property with the same (computed) name
    replaces an earlier one. *)
Definition js_object (props : list (string * value)) : gmap string value :=
  foldl (fun o '(k, v) => <[k := v]> o) ∅ props.

(** ** Records of the two services *)

(** An Airtable record: [getId()] and [get(fieldName)]. *)
Record record := Record {
  getId : string;
  cells : gmap string value;
}.

Definition get (r : record) (field : string) : value :=
  default VUndefined (cells r !! field).

(** One element of the array passed to [Base.update]. *)
Record update_spec := UpdateSpec {
  id : value;
  fields : gmap string value;
}.

(** Bill.com entities, with the properties the scripts read. *)
Record vendor := {
  vendor_id : string;
  vendor_name : value;
  address1 : value;
  addressCity : value;
  addressState : value;
  addressZip : value;
}.

(** ChartOfAccount and Customer: only [id] and [name] are read. *)
Record named := {
  named_id : string;
  named_name : value;
}.

(** A line item's [description] is a string, or [null] or [undefined]
    ([None]): Bill.com keeps none for a line item created without one. *)
Record billLineItem := {
  item_id : string;
  item_description : option string;
  createdTime : value;
  chartOfAccountId : value;
  amount : value;
  customerId : value;
}.

Record bill := {
  bill_id : string;
  vendorId : string;
  bill_description : option string;
  invoiceDate : value;
  invoiceNumber : value;
  approvalStatus : string;
  paymentStatus : string;
  billLineItems : list billLineItem;
}.

Inductive entity := Vendor | ChartOfAccount | Customer | Bill.

Definition entity_obj (e : entity) : Type :=
  match e with
  | Vendor => vendor
  | ChartOfAccount | Customer => named
  | Bill => bill
  end.

Definition entity_id {e : entity} : entity_obj e -> string :=
  match e with
  | Vendor => vendor_id
  | ChartOfAccount | Customer => named_id
  | Bill => bill_id
  end.

(** The payloads of [billComApi.create]. *)
Record vendorData := {
  vd_name : value;
  vd_address1 : value;
  vd_address2 : value;
  vd_addressCity : value;
  vd_addressState : value;
  vd_addressZip : string;
  vd_addressCountry : value;
  vd_email : value;
  vd_phone : value;
}.

Record lineItemData := {
  lid_entity : string;
  lid_amount : value;
  lid_chartOfAccountId : value;
  lid_customerId : value;
  lid_description : value;
}.

Record billData := {
  bd_vendorId : value;
  bd_invoiceNumber : value;
  bd_invoiceDate : value;
  bd_dueDate : value;
  bd_description : string;
  bd_billLineItems : list lineItemData;
}.

(** A [fetch] response with the body [response.blob()] resolves to; [ok]
    is node-fetch's getter (status in 200..299). *)
Record response := {
  status : Z;
  statusText : string;
  blob : string;
}.

Definition ok (r : response) : bool :=
  (200 <=? status r) && (status r <? 300).

(** ** Errors and promises *)

Inductive exn :=
| Error (message : string)
| TypeError (message : string)
| Rejected (reason : string).

(** [`${err}`] *)
Definition exn_to_string (e : exn) : string :=
  match e with
  | Error m => "Error: " ++ m
  | TypeError m => "TypeError: " ++ m
  | Rejected r => r
  end.

(** The calls that leave the scripts: the Airtable library, the Bill.com
    [Api] object, [apiCall] and [fetch]. Each either resolves to a value of
    its answer type or rejects. *)
Inductive call : Type -> Type :=
| SelectAll (table view : string) : call (list record)
| Update (table : string) (updates : list update_spec) : call unit
| Create (table : string) (creates : list (gmap string value)) : call unit
| Find (table : string) (id : value) : call record
| PrimaryOrgLogin : call unit
| GetSessionId : call string
| GetDevKey : call string
| ListActive (e : entity) : call (list (entity_obj e))
| CreateVendor (data : vendorData) : call value
| CreateBill (data : billData) : call value
| GetDocumentPages (id : string) : call Z
| SetApprovers (objectId : value) (entity : string) (approvers : list value)
    : call unit
| Fetch (url : value) : call response
| UploadAttachment (devKey sessionId : string) (file : string)
    (fileName : value) (billId : value) : call unit.

Inductive prog (A : Type) : Type :=
| Ret (a : A)
| Throw (e : exn)
| Await {X : Type} (c : call X) (k : exn + X -> prog A).
Arguments Ret {A} a.
Arguments Throw {A} e.
Arguments Await {A X} c k.

Fixpoint bind {A B} (p : prog A) (f : A -> prog B) : prog B :=
  match p with
  | Ret a => f a
  | Throw e => Throw e
  | Await c k => Await c (fun r => bind (k r) f)
  end.

Notation "'let!' x ':=' p 'in' q" := (bind p (fun x => q))
  (at level 10, x pattern, p at level 200, q at level 200).

(** [await c]: a rejection is thrown at the await. *)
Definition await {X} (c : call X) : prog X :=
  Await c (fun r => match r with inl e => Throw e | inr x => Ret x end).

(** [promise.catch(handler)] *)
Fixpoint catch {A} (p : prog A) (handler : exn -> prog A) : prog A :=
  match p with
  | Ret a => Ret a
  | Throw e => handler e
  | Await c k => Await c (fun r => catch (k r) handler)
  end.

(** [for (const x of xs) { ... }] over a loop-carried state. *)
Fixpoint for_of {X S} (xs : list X) (body : X -> S -> prog S) (s : S)
  : prog S :=
  match xs with
  | [] => Ret s
  | x :: xs' => let! s' := body x s in for_of xs' body s'
  end.

(** A promise: fulfilled, rejected, or pending on the answer to a call,
    with what it does once the answer is delivered. *)
Inductive promise (A : Type) : Type :=
| Fulfilled (a : A)
| Failed (e : exn)
| Pending (rest : prog A).
Arguments Fulfilled {A} a.
Arguments Failed {A} e.
Arguments Pending {A} rest.

(** The callbacks handed to [Array.prototype.map]: a function
    [(x) => { ... }], which runs to its end when called, on the variables
    of its closure ([S]), and returns a value or throws; an async
    function [async (x) => { ... }] (or a function that returns the
    promise of one), which returns a promise; or an async function that
    first awaits the promise of another,
    [async (x) => { const b = await g(x); ... }], and goes on with [k x b]
    once the others have had their turn, even when [g] awaited nothing. *)
Inductive callback (X S A : Type) : Type :=
| Function (f : X -> S -> exn + A * S)
| AsyncFunction (f : X -> prog A)
| Awaiting {B : Type} (g : X -> prog B) (k : X -> B -> prog A).
Arguments Function {X S A} f.
Arguments AsyncFunction {X S A} f.
Arguments Awaiting {X S A B} g k.

(** Calling an async function: its body runs up to its first call, which
    is issued, and the promise is returned. A body that throws before
    returns a rejected promise. *)
Definition started {A} (p : prog A) : prog (promise A) :=
  match p with
  | Ret a => Ret (Fulfilled a)
  | Throw e => Ret (Failed e)
  | Await c k => Await c (fun r => Ret (Pending (k r)))
  end.

(** What a promise does when it is resumed. *)
Definition resumed {A} (p : promise A) : prog A :=
  match p with
  | Fulfilled a => Ret a
  | Failed e => Throw e
  | Pending rest => rest
  end.

(** [await promise] inside an async function and what follows it: the
    function is suspended, whether the promise is settled or not, and
    goes on with the value of the promise, or throws its rejection, when
    it is resumed. *)
Definition awaited {A B} (p : promise B) (k : B -> prog A) : promise A :=
  Pending (let! b := resumed p in k b).

(** [xs.map(func)]: the callback is called on every element in turn,
    before anything pending is resumed. A function that throws ends the
    map, and the elements behind are not visited; a value it returns
    stands for itself in [Promise.all]. *)
Fixpoint js_map {X S A} (func : callback X S A) (xs : list X) (s : S)
  : prog (list (promise A) * S) :=
  match xs with
  | [] => Ret ([], s)
  | x :: xs' =>
      match func with
      | Function f =>
          match f x s with
          | inl e => Throw e
          | inr (a, s1) =>
              let! (ps, s2) := js_map func xs' s1 in
              Ret (Fulfilled a :: ps, s2)
          end
      | AsyncFunction f =>
          let! p := started (f x) in
          let! (ps, s1) := js_map func xs' s in
          Ret (p :: ps, s1)
      | Awaiting g k =>
          let! p := started (g x) in
          let! (ps, s1) := js_map func xs' s in
          Ret (awaited p (k x) :: ps, s1)
      end
  end.

(** One turn of pending promises, in their order: each is resumed, with
    the answer to its call when it waited for one, and runs up to its next
    call, which is issued. The turn ends at the first that throws. *)
Fixpoint turn {A} (ps : list (prog A)) : prog (list (prog A)) :=
  match ps with
  | [] => Ret []
  | Ret a :: ps' => let! qs := turn ps' in Ret (Ret a :: qs)
  | Throw e :: _ => Throw e
  | Await c k :: ps' =>
      Await c (fun r => let! qs := turn ps' in Ret (k r :: qs))
  end.

(** Turn after turn until every promise is fulfilled or one rejects:
    answers are delivered in the order in which the calls were issued, so
    the first promise [p] and the [n] promises behind it take turns in
    their order. [done] are the values of the promises before [p]. *)
Fixpoint rounds {A} (n : nat) (done : list A)
  : prog A -> list (prog A) -> prog (list A) :=
  fix first (p : prog A) (rest : list (prog A)) {struct p} : prog (list A) :=
    match p with
    | Throw e => Throw e
    | Await c k =>
        Await c (fun r => let! rest' := turn rest in first (k r) rest')
    | Ret a =>
        match rest, n with
        | q :: rest', S n' => rounds n' (done ++ [a])%list q rest'
        | _, _ => Ret (done ++ [a])%list
        end
    end.

(** The first promise of an array that is rejected already. *)
Fixpoint rejection {A} (ps : list (promise A)) : option exn :=
  match ps with
  | [] => None
  | Failed e :: _ => Some e
  | _ :: ps' => rejection ps'
  end.

(** [Promise.all(promises)]: the values in the order of the array, or the
    rejection that comes first in time. What the promises still pending at
    a rejection do later is not part of the run. *)
Definition promise_all {A} (ps : list (promise A)) : prog (list A) :=
  match rejection ps with
  | Some e => Throw e
  | None =>
      match map resumed ps with
      | [] => Ret []
      | p :: rest => rounds (length rest) [] p rest
      end
  end.

(** [Promise.all(xs.map(func))] *)
Definition all_mapped {X S A} (func : callback X S A) (xs : list X) (s : S)
  : prog (list A * S) :=
  let! (promises, s') := js_map func xs s in
  let! results := promise_all promises in
  Ret (results, s').

(** *** Environments

    An environment answers every call and may change as it does. *)
Definition env (W : Type) : Type :=
  forall X, call X -> W -> (exn + X) * W.

Inductive issued :=
| Issued {X : Type} (c : call X).

(** Running a program in an environment: how it settles, the environment it
    leaves, and the calls it issued, in order. *)
Fixpoint run {W A} (h : env W) (p : prog A) (w : W)
  : (exn + A) * W * list issued :=
  match p with
  | Ret a => (inr a, w, [])
  | Throw e => (inl e, w, [])
  | Await c k =>
      let '(r, w1) := h _ c w in
      let '(o, w2, t) := run h (k r) w1 in
      (o, w2, Issued c :: t)
  end.

Definition result {W A} (h : env W) (p : prog A) (w : W) : exn + A :=
  (run h p w).1.1.

Definition final {W A} (h : env W) (p : prog A) (w : W) : W :=
  (run h p w).1.2.

Definition calls {W A} (h : env W) (p : prog A) (w : W) : list issued :=
  (run h p w).2.

(** ** common/airtable.js *)

Module Airtable.

(** [new Error(`Error ${querying} records in Airtable Table ${table}:
    ${err}`)] *)
Definition wrapped (querying table : string) (err : exn) : exn :=
  Error ("Error " ++ querying ++ " records in Airtable Table " ++ table
           ++ ": " ++ exn_to_string err).

(** [catchError(promise, querying, table)] *)
Definition catchError {A} (promise : prog A) (querying table : string)
  : prog A :=
  catch promise (fun err => Throw (wrapped querying table err)).

Fixpoint chunks_go {X} (fuel size : nat) (array : list X) : list (list X) :=
  match fuel with
  | O => []
  | S fuel' =>
      match array with
      | [] => []
      | _ :: _ => take size array :: chunks_go fuel' size (drop size array)
      end
  end.

Definition chunks {X} (size : nat) (array : list X) : list (list X) :=
  chunks_go (length array) size array.

Fixpoint each_batch {X A} (func : list X -> prog A) (batches : list (list X))
  : prog (list A) :=
  match batches with
  | [] => Ret []
  | b :: bs =>
      let! r := func b in
      let! rs := each_batch func bs in
      Ret (r :: rs)
  end.

(** Modelled from the spec: [batchAsync] of common/utils.js, which is not
    among the sources. Outbound writes are chunked into batches of the
    given size and each batch is awaited in sequence. *)
Definition batchAsync {X A} (func : list X -> prog A) (array : list X)
    (size : nat) : prog (list A) :=
  each_batch func (chunks size array).

(** [batch(func, array)] *)
Definition batch {X A} (func : list X -> prog A) (array : list X)
  : prog (list A) :=
  batchAsync func array 10.

(** [Base.select(table, view, func)] *)
Definition select {S A} (table view : string)
    (func : callback record S A) (s : S) : prog (list A * S) :=
  catchError
    (let! records := await (SelectAll table view) in
     all_mapped func records s)
    "selecting" table.

(** [Base.select2(table, view)] *)
Definition select2 (table view : string) : prog (list record) :=
  catchError (await (SelectAll table view)) "selecting" table.

(** [Base.update(table, updates)] *)
Definition update (table : string) (updates : list update_spec)
  : prog (list unit) :=
  catchError (batch (fun b => await (Update table b)) updates)
             "updating" table.

(** The async callback [selectAndUpdate] hands to [select], from the
    fields [await fieldsFunc(record)] gave; [null] or [undefined] is
    [None]. *)
Definition updateFields (table : string) (record : record)
    (fields : option (gmap string value)) : prog (option (list unit)) :=
  match fields with
  | None => Ret None
  | Some fs =>
      let! r := update table [UpdateSpec (VStr (getId record)) fs] in
      Ret (Some r)
  end.

(** The callback on one record, from the call of [fieldsFunc] to its
    end. *)
Definition updateWith (table : string)
    (fieldsFunc : record -> prog (option (gmap string value)))
    (record : record) : prog (option (list unit)) :=
  let! fields := fieldsFunc record in updateFields table record fields.

(** [Base.selectAndUpdate(table, view, fieldsFunc)] *)
Definition selectAndUpdate (table view : string)
    (fieldsFunc : record -> prog (option (gmap string value)))
  : prog (list (option (list unit)) * unit) :=
  select table view (Awaiting fieldsFunc (updateFields table)) tt.

(** [Base.create(table, creates)] *)
Definition create (table : string) (creates : list (gmap string value))
  : prog (list unit) :=
  catchError (batch (fun b => await (Create table b)) creates)
             "creating" table.

(** [Base.find(table, id, func)] *)
Definition find {A} (table : string) (id : value) (func : record -> prog A)
  : prog A :=
  catchError (let! r := await (Find table id) in func r) "finding" table.

(** [BILL_COM_ID_SUFFIX]: the Bill.com ID Field name suffix. *)
Definition BILL_COM_ID_SUFFIX : string := "Bill.com ID".

(** [MSO_BILL_COM_ID]: the primary Org Bill.com ID Field name. *)
Definition MSO_BILL_COM_ID : string := "MSO " ++ BILL_COM_ID_SUFFIX.

(** [isSameMso(record, msoRecordId)]: [record.get('MSO')[0] ===
    msoRecordId]. Indexing [undefined] or [null] throws; the first
    element of an array, or the first character of a string, is compared
    with [msoRecordId] without conversion. *)
Definition isSameMso (record : record) (msoRecordId : string) : prog bool :=
  match get record "MSO" with
  | VUndefined | VNull =>
      Throw (TypeError "Cannot read properties of undefined (reading '0')")
  | VArr (VStr first :: _) => Ret (String.eqb first msoRecordId)
  | VStr (String c _) => Ret (String.eqb (String c EmptyString) msoRecordId)
  | _ => Ret false
  end.

End Airtable.

(** ** sync_bills.js: Bill.com line items mirrored into Airtable *)

Module SyncBills.

(** What [itemVendor] may hold: the named groups of a merchant match, the
    projection [getEntityData] keeps of a Vendor, or [{}]. A property an
    object does not have reads as [undefined]. *)
Record itemVendorT := {
  date : value;
  name : value;
  address : value;
  city : value;
  state : value;
  zip : value;
  description : value;
}.

Definition empty_object : itemVendorT :=
  {| date := VUndefined; name := VUndefined; address := VUndefined;
     city := VUndefined; state := VUndefined; zip := VUndefined;
     description := VUndefined |}.

Definition groups (gs : list (string * string)) : itemVendorT :=
  {| date := group_of gs "date"; name := group_of gs "name";
     address := group_of gs "address"; city := group_of gs "city";
     state := group_of gs "state"; zip := group_of gs "zip";
     description := group_of gs "description" |}.

(** Bill.com Bill Approval Statuses. *)
Definition approvalStatuses : JsMap.t value :=
  [("0", VStr "Unassigned"); ("1", VStr "Assigned"); ("4", VStr "Approving");
   ("3", VStr "Approved"); ("5", VStr "Denied")].

(** Bill.com Bill Payment Statuses. *)
Definition paymentStatuses : JsMap.t value :=
  [("1", VStr "Open"); ("4", VStr "Scheduled"); ("0", VStr "Paid In Full");
   ("2", VStr "Partial Payment")].

Definition entity_name {e : entity} : entity_obj e -> value :=
  match e with
  | Vendor => vendor_name
  | ChartOfAccount | Customer => named_name
  | Bill => fun _ => VUndefined
  end.

(** [getEntityData(entity, dataFunc)] *)
Definition getEntityData {D} (e : entity) (dataFunc : entity_obj e -> D)
  : prog (JsMap.t D) :=
  let! entities := await (ListActive e) in
  Ret (foldl (fun data x => JsMap.set data (entity_id x) (dataFunc x))
             [] entities).

(** [getNames(entity)] *)
Definition getNames (e : entity) : prog (JsMap.t value) :=
  getEntityData e entity_name.

Definition BILL_REPORTING_TABLE : string := "Bill Reporting".

Definition merchantRegex : list token :=
  [Group "date"; lit nl; Group "name"; lit nl; Group "address"; lit nl;
   Group "city"; lit " | "; Group "state"; lit " | "; Group "zip"; lit nl;
   Group "description"].

(** [/Submitted by (.+) \(/] *)
Definition submitterRegex : list token :=
  [lit "Submitted by "; Group "1"; lit " ("].

Definition orUndefined (o : option value) : value := default VUndefined o.

Section Main.
(** [PRIMARY_ORG] and [getYyyyMmDd] come from common/utils.js, which is
    not among the sources. *)
Variable PRIMARY_ORG : string.
Variable getYyyyMmDd : value -> value.

(** [billComIdFieldName(entity)] *)
Definition billComIdFieldName (entity : string) : string :=
  PRIMARY_ORG ++ " Bill.com " ++ entity ++ " ID".

Definition primaryBillComId : string := billComIdFieldName "Line Item".

(** The [docs] array of a bill with [numPages] document pages. *)
Definition documents (sessionId : string) (b : bill) (numPages : Z)
  : list attachment :=
  map (fun i =>
         {| url := "https://api.bill.com/is/BillImageServlet?entityId="
                     ++ bill_id b ++ "&sessionId=" ++ sessionId
                     ++ "&pageNumber=" ++ pretty i;
            filename := None |})
      (seqZ 1 numPages).

(** [(item.description.match(merchantRegex) || {}).groups || vendor],
    for an [item.description] that is the string [itemDescription]. *)
Definition itemVendorOf (vendor : itemVendorT) (itemDescription : string)
  : itemVendorT :=
  match js_match merchantRegex itemDescription with
  | Some gs => groups gs
  | None => vendor
  end.

(** The object stored in [changes] for one line item whose
    [item.description] is the string [itemDescription]. *)
Definition changeFor (vendors : JsMap.t itemVendorT)
    (chartOfAccounts customers : JsMap.t value)
    (b : bill) (docs : list attachment) (item : billLineItem)
    (itemDescription : string)
  : gmap string value :=
  let submitterMatch :=
    js_match submitterRegex (default EmptyString (bill_description b)) in
  let vendor := default empty_object (JsMap.get vendors (vendorId b)) in
  let itemVendor := itemVendorOf vendor itemDescription in
  js_object
    [("Active", VBool true);
     (primaryBillComId, VStr (item_id item));
     ("Submitted By",
       match submitterMatch with
       | None => VNull
       | Some gs => group_of gs "1"
       end);
     ("Creation Date", getYyyyMmDd (createdTime item));
     ("Invoice Date", invoiceDate b);
     ("Expense Date", js_or (date itemVendor) (invoiceDate b));
     (billComIdFieldName "Vendor", VStr (vendorId b));
     ("Vendor Name", name itemVendor);
     ("Vendor Address", address itemVendor);
     ("Vendor City", city itemVendor);
     ("Vendor State", state itemVendor);
     ("Vendor Zip Code", zip itemVendor);
     ("Description",
       js_or (description itemVendor) (VStr itemDescription));
     (billComIdFieldName "Chart of Account", chartOfAccountId item);
     ("Chart of Account",
       orUndefined (JsMap.get_value chartOfAccounts
                                    (chartOfAccountId item)));
     ("Amount", amount item);
     (billComIdFieldName "Customer", customerId item);
     ("Customer",
       orUndefined (JsMap.get_value customers (customerId item)));
     ("Invoice ID", invoiceNumber b);
     ("Supporting Documents", VArr (map VAttachment docs));
     ("Approval Status",
       orUndefined (JsMap.get approvalStatuses (approvalStatus b)));
     ("Payment Status",
       orUndefined (JsMap.get paymentStatuses (paymentStatus b)));
     (billComIdFieldName "Bill", VStr (bill_id b))].

(** What [item.description.match] throws for a description that is
    [null] or [undefined]; the message names which of the two. *)
Definition noDescription : exn :=
  TypeError "Cannot read properties of null (reading 'match')".

(** The body of [for (const item of bill.billLineItems)]: the call of
    [item.description.match] comes first and is not guarded. *)
Definition syncItem (vendors : JsMap.t itemVendorT)
    (chartOfAccounts customers : JsMap.t value)
    (b : bill) (docs : list attachment) (item : billLineItem)
    (changes : JsMap.t (gmap string value))
  : prog (JsMap.t (gmap string value)) :=
  match item_description item with
  | None => Throw noDescription
  | Some itemDescription =>
      Ret (JsMap.set changes (item_id item)
             (changeFor vendors chartOfAccounts customers b docs item
                itemDescription))
  end.

(** The body of [for (const bill of bills)]. *)
Definition syncBill (sessionId : string) (vendors : JsMap.t itemVendorT)
    (chartOfAccounts customers : JsMap.t value)
    (b : bill) (changes : JsMap.t (gmap string value))
  : prog (JsMap.t (gmap string value)) :=
  let! numPages := await (GetDocumentPages (bill_id b)) in
  let docs := documents sessionId b numPages in
  for_of (billLineItems b)
    (syncItem vendors chartOfAccounts customers b docs) changes.

(** The callback handed to [select]: it appends to [updates] and
    deletes from [changes]. *)
Definition stageRecord (r : record)
    (st : list update_spec * JsMap.t (gmap string value))
  : list update_spec * JsMap.t (gmap string value) :=
  let '(updates, changes) := st in
  let id := get r primaryBillComId in
  ((updates ++
      [UpdateSpec (VStr (getId r))
         (default {["Active" := VBool false]}
                  (JsMap.get_value changes id))])%list,
   JsMap.delete_value changes id).

(** [for (const [id, data] of changes)] *)
Definition stageCreates (changes : JsMap.t (gmap string value))
  : list (gmap string value) :=
  map (fun '(id, data) => <[primaryBillComId := VStr id]> data) changes.

Definition vendorProjection (v : vendor) : itemVendorT :=
  {| date := VUndefined;
     name := vendor_name v;
     address := address1 v;
     city := addressCity v;
     state := addressState v;
     zip := addressZip v;
     description := VUndefined |}.

(** [main(api, billComIntegrationBase)] *)
Definition main : prog unit :=
  let! _ := await PrimaryOrgLogin in
  let! sessionId := await GetSessionId in
  let! vendors := getEntityData Vendor vendorProjection in
  let! chartOfAccounts := getNames ChartOfAccount in
  let! customers := getNames Customer in
  let! bills := await (ListActive Bill) in
  let! changes :=
    for_of (bills : list bill)
           (syncBill sessionId vendors chartOfAccounts customers) [] in
  let! (_, (updates, changes)) :=
    Airtable.select BILL_REPORTING_TABLE EmptyString
      (Function (fun r st => inr (tt, stageRecord r st))) ([], changes) in
  let! _ := Airtable.update BILL_REPORTING_TABLE updates in
  let! _ := Airtable.create BILL_REPORTING_TABLE (stageCreates changes) in
  Ret tt.
End Main.

End SyncBills.

(** ** create_bill.js: a Bill.com Bill from each new Check Request *)

Module CreateBill.

(** *** The JavaScript operations the script applies to cell values *)

(** [v[0]] *)
Definition at0 (v : value) : prog value :=
  match v with
  | VUndefined | VNull =>
      Throw (TypeError "Cannot read properties of undefined (reading '0')")
  | VArr elements => Ret (default VUndefined (head elements))
  | VStr (String c _) => Ret (VStr (String c EmptyString))
  | _ => Ret VUndefined
  end.

(** [for (const x of v)]: the elements [v] yields. *)
Definition iterate (v : value) : prog (list value) :=
  match v with
  | VArr elements => Ret elements
  | VStr s =>
      Ret (map (fun c => VStr (String c EmptyString))
               (list_ascii_of_string s))
  | _ => Throw (TypeError (to_string v ++ " is not iterable"))
  end.

(** [v.map(...)] needs an array. *)
Definition as_array (v : value) : prog (list value) :=
  match v with
  | VArr elements => Ret elements
  | _ => Throw (TypeError "map is not a function")
  end.

(** [v.substring(start, end)] *)
Definition substring (v : value) (start end_ : nat) : prog string :=
  match v with
  | VStr s => Ret (js_substring s start end_)
  | _ => Throw (TypeError "substring is not a function")
  end.

(** [v.toString()] *)
Definition toString (v : value) : prog string :=
  match v with
  | VUndefined | VNull =>
      Throw (TypeError "Cannot read properties of undefined")
  | _ => Ret (to_string v)
  end.

(** [doc.url] and [doc.filename] *)
Definition property (read : attachment -> value) (v : value) : prog value :=
  match v with
  | VUndefined | VNull =>
      Throw (TypeError "Cannot read properties of undefined")
  | VAttachment a => Ret (read a)
  | _ => Ret VUndefined
  end.

(** The characters [encodeURIComponent] leaves alone. *)
Definition unreserved (c : ascii) : bool :=
  let n := N_of_ascii c in
  ((65 <=? n) && (n <=? 90) || (97 <=? n) && (n <=? 122)
   || (48 <=? n) && (n <=? 57)
   || existsb (Ascii.eqb c) (list_ascii_of_string "-_.!~*'()"))%N.

Definition hex_digit (n : N) : ascii :=
  nth (N.to_nat n) (list_ascii_of_string "0123456789ABCDEF") "0"%char.

Definition percent (byte : N) : string :=
  String "%"%char
    (String (hex_digit (byte / 16))
       (String (hex_digit (byte mod 16)) EmptyString)).

(** One code unit, escaped as the bytes of its UTF-8 encoding. *)
Definition encode_unit (c : ascii) : string :=
  let n := N_of_ascii c in
  if unreserved c then String c EmptyString
  else if (n <? 128)%N then percent n
  else percent (192 + n / 64) ++ percent (128 + n mod 64).

Fixpoint encodeURIComponent (s : string) : string :=
  match s with
  | EmptyString => EmptyString
  | String c s' => encode_unit c ++ encodeURIComponent s'
  end.

(** Modelled from the spec: [fetchError] of common/utils.js, which is not
    among the sources. A non-2xx response raises a descriptive error
    with the HTTP status, the filename and the status text. *)
Definition fetchError {A} (code : Z) (context : value) (message : string)
  : prog A :=
  Throw (Error ("Error " ++ pretty code ++ " (from " ++ to_string context
                  ++ "): " ++ message)).

Definition CHECK_REQUESTS_TABLE : string := "Check Requests".
Definition NEW_VENDORS_TABLE : string := "New Vendors".

Section Main.
(** [PRIMARY_ORG_BILL_COM_ID] is imported from common/airtable.js and
    [finalApproverUserId()] from common/inputs.js; neither definition
    is among the sources. *)
Variable PRIMARY_ORG_BILL_COM_ID : string.
Variable finalApproverUserId : value.

(** [getBillComId(table, airtableId)] *)
Definition getBillComId (table : string) (airtableId : value)
  : prog value :=
  Airtable.find table airtableId
    (fun r => Ret (get r PRIMARY_ORG_BILL_COM_ID)).

(** The Vendor to pay for whom this request was submitted. *)
Definition resolveVendor (newCheckRequest : record) : prog value :=
  if truthy (get newCheckRequest "New Vendor?") then
    let! newVendorId := at0 (get newCheckRequest "New Vendor") in
    let! vendorId :=
      Airtable.find NEW_VENDORS_TABLE newVendorId
        (fun newVendor =>
           let! zipCode := toString (get newVendor "Zip Code") in
           await (CreateVendor
                    {| vd_name := get newVendor "Name";
                       vd_address1 := get newVendor "Address Line 1";
                       vd_address2 := get newVendor "Address Line 2";
                       vd_addressCity := get newVendor "City";
                       vd_addressState := get newVendor "State";
                       vd_addressZip := zipCode;
                       vd_addressCountry := get newVendor "Country";
                       vd_email := get newVendor "Email";
                       vd_phone := get newVendor "Phone" |})) in
    let! _ :=
      Airtable.update NEW_VENDORS_TABLE
        [UpdateSpec newVendorId
           (js_object [(PRIMARY_ORG_BILL_COM_ID, vendorId)])] in
    Ret vendorId
  else
    let! vendor := at0 (get newCheckRequest "Vendor") in
    getBillComId "Existing Vendors" vendor.

(** The [description] of a Bill.com line item. *)
Definition lineItemDescription (item : record) : value :=
  let date := get item "Item Expense Date" in
  let description := get item "Description" in
  if is_nullish date then description
  else
    VStr (encodeURIComponent
            (to_string date ++ nl
             ++ to_string (get item "Merchant Name") ++ nl
             ++ to_string (get item "Merchant Address") ++ nl
             ++ to_string (get item "Merchant City") ++ " & "
             ++ to_string (get item "Merchant State") ++ " & "
             ++ to_string (get item "Merchant Zip Code") ++ nl
             ++ to_string description)).

(** The callback handed to [find] for one Check Request Line Item. *)
Definition lineItem (item : record) : prog lineItemData :=
  let category := get item "Category" in
  let! chartOfAccountId :=
    if is_nullish category then Ret VUndefined
    else
      let! category0 := at0 category in
      getBillComId "Chart of Accounts" category0 in
  let! project := at0 (get item "Project") in
  let! customerId := getBillComId "Internal Customers" project in
  Ret {| lid_entity := "BillLineItem";
         lid_amount := get item "Amount";
         lid_chartOfAccountId := chartOfAccountId;
         lid_customerId := customerId;
         lid_description := lineItemDescription item |}.

(** The Check Request Line Items. *)
Definition lineItems (newCheckRequest : record)
  : prog (list lineItemData) :=
  let! itemIds := iterate (get newCheckRequest "Line Items") in
  for_of itemIds
    (fun itemId billComLineItems =>
       let! li := Airtable.find "Check Request Line Items" itemId lineItem in
       Ret (billComLineItems ++ [li])%list)
    [].

(** [newCheckRequest.get('Vendor Invoice ID') || `${...} - ${...}`] *)
Definition invoiceIdOf (newCheckRequest : record) : prog value :=
  let requester := get newCheckRequest "Requester Name" in
  let supplied := get newCheckRequest "Vendor Invoice ID" in
  if truthy supplied then Ret supplied
  else
    let! requester15 := substring requester 0 15 in
    Ret (VStr (requester15 ++ " - "
                 ++ js_substring (getId newCheckRequest) 3 6)).

(** The Bill's approvers. *)
Definition setApprovers (newCheckRequest : record) (newBillId : value)
  : prog unit :=
  let! approverAirtableIds :=
    as_array (js_or (get newCheckRequest "Approvers") (VArr [])) in
  let! (approverBillComIds, _) :=
    all_mapped (AsyncFunction (getBillComId "Users")) approverAirtableIds tt in
  await (SetApprovers newBillId "Bill"
           (approverBillComIds ++ [finalApproverUserId])).

(** The body of [for (const doc of docs)]. *)
Definition uploadDocument (devKey sessionId : string) (newBillId : value)
    (doc : value) (_ : unit) : prog unit :=
  let! docUrl := property (fun a => VStr (url a)) doc in
  let! response := await (Fetch docUrl) in
  let! _ :=
    if ok response then Ret tt
    else
      let! docFilename := property (fun a => opt_value (filename a)) doc in
      fetchError (status response) docFilename (statusText response) in
  let! docFilename := property (fun a => opt_value (filename a)) doc in
  await (UploadAttachment devKey sessionId (blob response) docFilename
           newBillId).

(** The Supporting Documents. *)
Definition uploadDocuments (newCheckRequest : record) (newBillId : value)
  : prog unit :=
  let! devKey := await GetDevKey in
  let! sessionId := await GetSessionId in
  let! docs :=
    iterate (js_or (get newCheckRequest "Supporting Documents")
                   (VArr [])) in
  for_of docs (uploadDocument devKey sessionId newBillId) tt.

(** The Bill.com Bill based on the Check Request, with its approvers. *)
Definition createBill (newCheckRequest : record) : prog (value * value) :=
  let! vendorId := resolveVendor newCheckRequest in
  let! billComLineItems := lineItems newCheckRequest in
  let requester := get newCheckRequest "Requester Name" in
  let! invoiceId := invoiceIdOf newCheckRequest in
  let! newBillId :=
    await (CreateBill
             {| bd_vendorId := vendorId;
                bd_invoiceNumber := invoiceId;
                bd_invoiceDate := get newCheckRequest "Expense Date";
                bd_dueDate := get newCheckRequest "Due Date";
                bd_description :=
                  "Submitted by " ++ to_string requester ++ " ("
                    ++ to_string (get newCheckRequest "Requester Email")
                    ++ ").";
                bd_billLineItems := billComLineItems |}) in
  let! _ := setApprovers newCheckRequest newBillId in
  Ret (invoiceId, newBillId).

(** The [fieldsFunc] handed to [selectAndUpdate]. *)
Definition checkRequestFields (newCheckRequest : record)
  : prog (option (gmap string value)) :=
  let! (invoiceId, newBillId) := createBill newCheckRequest in
  let! _ := uploadDocuments newCheckRequest newBillId in
  Ret (Some (js_object
               [("Active", VBool true);
                ("Vendor Invoice ID", invoiceId);
                (PRIMARY_ORG_BILL_COM_ID, newBillId)])).

(** [main(billComApi, airtableBase)] *)
Definition main : prog unit :=
  let! _ := await PrimaryOrgLogin in
  let! _ :=
    Airtable.selectAndUpdate CHECK_REQUESTS_TABLE "New"
      checkRequestFields in
  Ret tt.
End Main.

End CreateBill.

(** ** A reference environment

    The two services as the scripts rely on them: a Bill.com organisation
    with its active entities, and an Airtable base whose tables keep their
    rows in order. [Update] overwrites the given fields of the row with the
    given id and leaves its other fields alone; [Create] appends rows under
    ids the base allocates; a write of more than ten records is refused.
    Every login opens a session, under the id the organisation grants
    for it. *)

Module World.

Record world := {
  session : string;
  granted : nat -> string;
  key : string;
  vendors : list vendor;
  chartOfAccounts : list named;
  customers : list named;
  bills : list bill;
  documentPages : string -> Z;
  web : value -> response;
  tables : gmap string (list record);
  allocate : list string -> string;
  ledgerWrites : list issued;
}.

Definition rows (w : world) (table : string) : list record :=
  default [] (tables w !! table).

Definition with_rows (w : world) (table : string) (rs : list record)
  : world :=
  {| session := session w; granted := granted w; key := key w;
     vendors := vendors w;
     chartOfAccounts := chartOfAccounts w; customers := customers w;
     bills := bills w; documentPages := documentPages w; web := web w;
     tables := <[table := rs]> (tables w); allocate := allocate w;
     ledgerWrites := ledgerWrites w |}.

Definition with_write {X} (w : world) (c : call X) : world :=
  {| session := session w; granted := granted w; key := key w;
     vendors := vendors w;
     chartOfAccounts := chartOfAccounts w; customers := customers w;
     bills := bills w; documentPages := documentPages w; web := web w;
     tables := tables w; allocate := allocate w;
     ledgerWrites := ledgerWrites w ++ [Issued c] |}.

(** A login: the session is the one granted first, and the later grants
    move up. *)
Definition login (w : world) : world :=
  {| session := granted w 0; granted := fun n => granted w (S n);
     key := key w; vendors := vendors w;
     chartOfAccounts := chartOfAccounts w; customers := customers w;
     bills := bills w; documentPages := documentPages w; web := web w;
     tables := tables w; allocate := allocate w;
     ledgerWrites := ledgerWrites w |}.

Definition active (w : world) (e : entity) : list (entity_obj e) :=
  match e with
  | Vendor => vendors w
  | ChartOfAccount => chartOfAccounts w
  | Customer => customers w
  | Bill => bills w
  end.

Definition targets (u : update_spec) (r : record) : bool :=
  match id u with
  | VStr s => bool_decide (s = getId r)
  | _ => false
  end.

(** A row with the fields of an update written over its own. *)
Definition merge (r : record) (u : update_spec) : record :=
  Record (getId r) (fields u ∪ cells r).

(** What one update does to one row. *)
Definition apply_to_row (r : record) (u : update_spec) : record :=
  if targets u r then merge r u else r.

Definition apply_update (rs : list record) (u : update_spec) : list record :=
  map (fun r => apply_to_row r u) rs.

Definition apply_create (alloc : list string -> string) (rs : list record)
    (fs : gmap string value) : list record :=
  (rs ++ [Record (alloc (map getId rs)) fs])%list.

(** The rows a sequence of creates appends. *)
Fixpoint createdRows (alloc : list string -> string) (rs : list record)
    (cs : list (gmap string value)) : list record :=
  match cs with
  | [] => []
  | c :: cs' =>
      let r := Record (alloc (map getId rs)) c in
      r :: createdRows alloc (rs ++ [r])%list cs'
  end.

Definition update_rows (table : string) (w : world)
    (updates : list update_spec) : world :=
  with_rows w table (foldl apply_update (rows w table) updates).

Definition create_rows (table : string) (w : world)
    (creates : list (gmap string value)) : world :=
  with_rows w table
    (foldl (apply_create (allocate w)) (rows w table) creates).

Definition too_many : exn :=
  Rejected "INVALID_REQUEST_UNKNOWN: at most 10 records per request".

Definition answer : env world :=
  fun X c =>
    match c in call X return world -> (exn + X) * world with
    | SelectAll table _ => fun w => (inr (rows w table), w)
    | Update table updates => fun w =>
        if decide (length updates <= 10)%nat
        then (inr tt, update_rows table w updates)
        else (inl too_many, w)
    | Create table creates => fun w =>
        if decide (length creates <= 10)%nat
        then (inr tt, create_rows table w creates)
        else (inl too_many, w)
    | Find table id => fun w =>
        match List.find (targets (UpdateSpec id ∅)) (rows w table) with
        | Some r => (inr r, w)
        | None => (inl (Rejected "NOT_FOUND"), w)
        end
    | PrimaryOrgLogin => fun w => (inr tt, login w)
    | GetSessionId => fun w => (inr (session w), w)
    | GetDevKey => fun w => (inr (key w), w)
    | ListActive e => fun w => (inr (active w e), w)
    | CreateVendor data => fun w =>
        (inr (VStr ("00v" ++ pretty (length (ledgerWrites w)))),
         with_write w (CreateVendor data))
    | CreateBill data => fun w =>
        (inr (VStr ("00b" ++ pretty (length (ledgerWrites w)))),
         with_write w (CreateBill data))
    | GetDocumentPages id => fun w => (inr (documentPages w id), w)
    | SetApprovers objectId e approvers => fun w =>
        (inr tt, with_write w (SetApprovers objectId e approvers))
    | Fetch url => fun w => (inr (web w url), w)
    | UploadAttachment devKey sessionId file fileName billId => fun w =>
        (inr tt,
         with_write w (UploadAttachment devKey sessionId file fileName billId))
    end.

(** Record ids identify the rows of a table, and the id the base
    allocates for a new row is not in use. *)
Definition consistent (w : world) : Prop :=
  (forall table, NoDup (map getId (rows w table)))
  /\ (forall ids, allocate w ids ∉ ids).

(** An environment in which every call is rejected. *)
Definition offline : env unit :=
  fun X _ w => (inl (Rejected "ECONNRESET"), w).

End World.

(** ** What a sync run computes in the reference environment *)

Module Reconciliation.
Import World.

Section Run.
Variable PRIMARY_ORG : string.
Variable getYyyyMmDd : value -> value.

Definition table : string := SyncBills.BILL_REPORTING_TABLE.

(** The key of a mirror row: the line item id its key field holds. *)
Definition keyOf (r : record) : option string :=
  match get r (SyncBills.primaryBillComId PRIMARY_ORG) with
  | VStr s => Some s
  | _ => None
  end.

Definition vendorMap (w : world) : JsMap.t SyncBills.itemVendorT :=
  foldl (fun data v =>
           JsMap.set data (vendor_id v) (SyncBills.vendorProjection v))
        [] (vendors w).

Definition nameMap (l : list named) : JsMap.t value :=
  foldl (fun data x => JsMap.set data (named_id x) (named_name x)) [] l.

(** The entry a bill's line item contributes in a session of [w], when
    its description is the string [itemDescription]. *)
Definition entryOf (w : world) (b : bill) (item : billLineItem)
    (itemDescription : string) : gmap string value :=
  SyncBills.changeFor PRIMARY_ORG getYyyyMmDd (vendorMap w)
    (nameMap (chartOfAccounts w)) (nameMap (customers w)) b
    (SyncBills.documents (session w) b (documentPages w (bill_id b)))
    item itemDescription.

(** The line items of the fetch, each with its bill, in fetch order. *)
Definition fetched (w : world) : list (bill * billLineItem) :=
  b ← bills w; (fun item => (b, item)) <$> billLineItems b.

(** The line items of bills that have a description, each with its bill
    and its description. *)
Definition legibleIn (bs : list bill) : list (bill * billLineItem * string) :=
  omap (fun x : bill * billLineItem => d ← item_description x.2; Some (x, d))
       (b ← bs; (fun item => (b, item)) <$> billLineItems b).

(** Every line item of the fetch has a description. *)
Definition described (w : world) : bool :=
  forallb (fun x => bool_decide (is_Some (item_description x.2))) (fetched w).

(** The line items of the fetch that have a description, each with its
    bill and its description. *)
Definition legible (w : world) : list (bill * billLineItem * string) :=
  legibleIn (bills w).

(** The Changes Map of a session of [w] once every bill has been visited,
    when every line item of the fetch has a description; the loop over the
    bills throws at the first that has none. *)
Definition changesOf (w : world) : JsMap.t (gmap string value) :=
  foldl (fun changes x =>
           JsMap.set changes (item_id x.1.2) (entryOf w x.1.1 x.1.2 x.2))
        [] (legible w).

(** [updates] and what is left of [changes] once every row of the
    mirror table has been streamed. *)
Definition staged (changes : JsMap.t (gmap string value))
    (rs : list record)
  : list update_spec * JsMap.t (gmap string value) :=
  foldl (fun st r => SyncBills.stageRecord PRIMARY_ORG r st)
        ([], changes) rs.

Definition deactivate : gmap string value :=
  {["Active"%string := VBool false]}.

(** The field set staged for a row, given the rows streamed before it:
    the entry of its key unless an earlier row took it. *)
Definition fieldsFor (changes : JsMap.t (gmap string value))
    (earlier : list record) (r : record) : gmap string value :=
  match keyOf r with
  | Some k =>
      if decide (k ∈ omap keyOf earlier) then deactivate
      else default deactivate (JsMap.get changes k)
  | None => deactivate
  end.

Definition updatesOf (w : world) : list update_spec :=
  (staged (changesOf w) (rows w table)).1.

Definition createsOf (w : world) : list (gmap string value) :=
  SyncBills.stageCreates PRIMARY_ORG
    (staged (changesOf w) (rows w table)).2.

(** The environment a session of [w] leaves once the writes are done. *)
Definition synced (w : world) : world :=
  foldl (create_rows table)
        (foldl (update_rows table) w (Airtable.chunks 10 (updatesOf w)))
        (Airtable.chunks 10 (createsOf w)).

(** The calls of a run whose login opened the session of [w]. *)
Definition syncCalls (w : world) : list issued :=
  ([Issued PrimaryOrgLogin; Issued GetSessionId;
    Issued (ListActive Vendor); Issued (ListActive ChartOfAccount);
    Issued (ListActive Customer); Issued (ListActive Bill)]
   ++ map (fun b => Issued (GetDocumentPages (bill_id b))) (bills w)
   ++ [Issued (SelectAll table EmptyString)]
   ++ map (fun b => Issued (Update table b))
          (Airtable.chunks 10 (updatesOf w))
   ++ map (fun b => Issued (Create table b))
          (Airtable.chunks 10 (createsOf w)))%list.
End Run.

End Reconciliation.

(** ** Sample data *)

Module Sample.
Import World.

Definition PRIMARY_ORG : string := "MSO".

(** A stand-in for [getYyyyMmDd]: the date part of an ISO timestamp. *)
Definition getYyyyMmDd (v : value) : value :=
  match v with
  | VStr s => VStr (js_substring s 0 10)
  | _ => v
  end.

Definition pens : billLineItem :=
  {| item_id := "li1";
     item_description :=
       Some ("2021-03-04" ++ nl ++ "Acme" ++ nl ++ "1 Main St" ++ nl
               ++ "Springfield | IL | 62701" ++ nl ++ "Pens");
     createdTime := VStr "2021-03-05T10:00:00.000+0000";
     chartOfAccountId := VStr "coa1";
     amount := VNum 12;
     customerId := VStr "cus1" |}.

Definition paper : billLineItem :=
  {| item_id := "li2";
     item_description := Some "Paper";
     createdTime := VStr "2021-03-05T10:00:00.000+0000";
     chartOfAccountId := VNull;
     amount := VNum 5;
     customerId := VStr "cus1" |}.

Definition supplies : bill :=
  {| bill_id := "b1";
     vendorId := "v1";
     bill_description := Some "Submitted by Ann (ann@example.org).";
     invoiceDate := VStr "2021-03-06";
     invoiceNumber := VStr "INV-1";
     approvalStatus := "3";
     paymentStatus := "1";
     billLineItems := [pens; paper] |}.

Definition stationer : vendor :=
  {| vendor_id := "v1";
     vendor_name := VStr "Stationer";
     address1 := VStr "2 High St";
     addressCity := VStr "Shelbyville";
     addressState := VStr "KY";
     addressZip := VStr "40065" |}.

(** An allocator of record ids: longer than every id in use. *)
Definition nextId (ids : list string) : string :=
  foldr String.append "!" ids.

Definition keyField : string := "MSO Bill.com Line Item ID".

(** A mirror table with one row for [paper] and one for a line item that
    is no longer active. *)
Definition mirror : list record :=
  [Record "rec1" {[keyField := VStr "li2"; "Note" := VStr "keep"]};
   Record "rec2" {[keyField := VStr "gone"; "Active" := VBool true]}].

(** A mirror table in which two rows hold the key of [paper]. *)
Definition duplicated : list record :=
  [Record "rec1" {[keyField := VStr "li2"]};
   Record "rec2" {[keyField := VStr "li2"]}].

Definition notFound : response :=
  {| status := 404; statusText := "Not Found"; blob := EmptyString |}.

(** A new check request for an existing vendor, with one line item and
    one supporting document. *)
Definition request : record :=
  Record "recAB1234567"
    {["Vendor" := VArr [VStr "recV"];
      "Line Items" := VArr [VStr "recL"];
      "Requester Name" := VStr "Alexandria Bartholomew";
      "Requester Email" := VStr "alex@example.org";
      "Expense Date" := VStr "2021-03-04";
      "Due Date" := VStr "2021-04-04";
      "Supporting Documents" :=
        VArr [VAttachment {| url := "https://dl.example.org/receipt.pdf";
                             filename := Some "receipt.pdf" |}]]}.

Definition requestItem : record :=
  Record "recL"
    {["Amount" := VNum 12;
      "Project" := VArr [VStr "recC"];
      "Description" := VStr "Pens";
      "Item Expense Date" := VStr "2021-03-04";
      "Merchant Name" := VStr "Acme";
      "Merchant Address" := VStr "1 Main St";
      "Merchant City" := VStr "Springfield";
      "Merchant State" := VStr "IL";
      "Merchant Zip Code" := VStr "62701"]}.

Definition billComId : string := "MSO Bill.com ID".

Definition base (mirrorRows : list record) : gmap string (list record) :=
  {["Bill Reporting" := mirrorRows;
    "Check Requests" := [request];
    "Check Request Line Items" := [requestItem];
    "Existing Vendors" := [Record "recV" {[billComId := VStr "v1"]}];
    "Internal Customers" := [Record "recC" {[billComId := VStr "cus1"]}]]}.

(** The reference environment over a ledger with the given bills, in
    which the logins are granted the given session ids, with the given
    mirror table; every document download answers 404. *)
Definition ledgerOf (activeBills : list bill) (grants : nat -> string)
    (mirrorRows : list record) : World.world :=
  {| session := "SESSION";
     granted := grants;
     key := "DEVKEY";
     vendors := [stationer];
     chartOfAccounts :=
       [{| named_id := "coa1"; named_name := VStr "Office Supplies" |}];
     customers := [{| named_id := "cus1"; named_name := VStr "Outreach" |}];
     bills := activeBills;
     documentPages := fun _ => 2;
     web := fun _ => notFound;
     tables := base mirrorRows;
     allocate := nextId;
     ledgerWrites := [] |}.

(** The sample ledger, every login being granted the same session. *)
Definition world (mirrorRows : list record) : World.world :=
  ledgerOf [supplies] (fun _ => "SESSION") mirrorRows.

(** A line item without description. *)
Definition blank : billLineItem :=
  {| item_id := "li4";
     item_description := None;
     createdTime := VStr "2021-03-05T10:00:00.000+0000";
     chartOfAccountId := VNull;
     amount := VNum 7;
     customerId := VStr "cus1" |}.

(** A bill whose second line item has no description. *)
Definition mixed : bill :=
  {| bill_id := "b2";
     vendorId := "v1";
     bill_description := Some "Submitted by Ann (ann@example.org).";
     invoiceDate := VStr "2021-03-06";
     invoiceNumber := VStr "INV-2";
     approvalStatus := "3";
     paymentStatus := "1";
     billLineItems := [paper; blank] |}.

(** The ledger with that bill. *)
Definition broken (mirrorRows : list record) : World.world :=
  ledgerOf [mixed] (fun _ => "SESSION") mirrorRows.

(** The sample ledger, every login being granted a session of its own. *)
Definition rotating (mirrorRows : list record) : World.world :=
  ledgerOf [supplies] (fun n => "SESSION" ++ pretty n) mirrorRows.

(** The fields function of a [selectAndUpdate] that looks the review of
    a row up and marks one row. *)
Definition review (r : record) : prog (option (gmap string value)) :=
  let! _ := await (Find "Reviews" (VStr (getId r))) in
  Ret (if String.eqb (getId r) "recF"
       then Some {["Note" := VStr "seen"]}
       else None).

(** A request whose vendor supplied an invoice id. *)
Definition invoiced : record :=
  Record "recCD7654321"
    {["Vendor Invoice ID" := VStr "INV-9";
      "Requester Name" := VStr "Alexandria Bartholomew"]}.

(** A response with a body. *)
Definition received : response :=
  {| status := 200; statusText := "OK"; blob := "%PDF-1.4" |}.

(** The row every lookup of the stand-in services finds. *)
Definition found : record :=
  Record "recF"
    {[billComId := VStr "id1"; "Name" := VStr "Acme";
      "Zip Code" := VNum 62701; "Project" := VArr [VStr "recC"]]}.

(** Stand-in services without state: every call is accepted and answered
    with a fixed value. *)
Definition stub : env unit :=
  fun X c w =>
    match c in call X return (exn + X) * unit with
    | SelectAll _ _ => (inr [found; Record "recG" ∅], w)
    | Find _ _ => (inr found, w)
    | ListActive e =>
        (inr match e return list (entity_obj e) with
             | Vendor => [stationer]
             | _ => []
             end, w)
    | GetDocumentPages _ => (inr 0, w)
    | GetSessionId => (inr "SESSION", w)
    | GetDevKey => (inr "DEVKEY", w)
    | CreateVendor _ => (inr (VStr "00v0"), w)
    | CreateBill _ => (inr (VStr "00b0"), w)
    | Fetch _ => (inr received, w)
    | Update _ _ | Create _ _ | PrimaryOrgLogin | SetApprovers _ _ _
    | UploadAttachment _ _ _ _ _ => (inr tt, w)
    end.

(** A callback of [select] that throws for one row. *)
Definition failFirst (r : record) (s : unit) : exn + unit * unit :=
  if String.eqb (getId r) "recF" then inl (Error "boom") else inr (tt, s).

(** A request for a new vendor. *)
Definition newVendorRequest : record :=
  Record "recNV1234567"
    {["New Vendor?" := VBool true; "New Vendor" := VArr [VStr "recP"]]}.

(** A request without requester name. *)
Definition anonymous : record :=
  Record "recAN1234567"
    {["Vendor" := VArr [VStr "recV"]; "Line Items" := VArr [VStr "recL"]]}.

(** A line item whose free text has two lines. *)
Definition notes : billLineItem :=
  {| item_id := "li3";
     item_description :=
       Some ("2021-03-04" ++ nl ++ "Acme" ++ nl ++ "1 Main St" ++ nl
               ++ "Springfield | IL | 62701" ++ nl ++ "Pens" ++ nl
               ++ "blue");
     createdTime := VStr "2021-03-05T10:00:00.000+0000";
     chartOfAccountId := VNull;
     amount := VNum 3;
     customerId := VStr "cus1" |}.

End Sample.

(** ** Observations the properties are stated with *)

(** [s.endsWith(suffix)] *)
Fixpoint ends_with (suffix s : string) : bool :=
  if String.eqb suffix s then true
  else
    match s with
    | EmptyString => false
    | String _ s' => ends_with suffix s'
    end.

(** The elements of the update arrays a trace sent to a table. *)
Definition updatesSent (table : string) (trace : list issued)
  : list update_spec :=
  concat (map (fun i =>
                 match i with
                 | Issued (Update t us) =>
                     if decide (t = table) then us else []
                 | _ => []
                 end) trace).

(** The field sets of the create arrays a trace sent to a table. *)
Definition createsSent (table : string) (trace : list issued)
  : list (gmap string value) :=
  concat (map (fun i =>
                 match i with
                 | Issued (Create t cs) =>
                     if decide (t = table) then cs else []
                 | _ => []
                 end) trace).

(** The text a match covers: the literals and the captured groups, in
    pattern order. *)
Fixpoint matched_text (re : list token) (gs : list (string * list ascii))
  : list ascii :=
  match re with
  | [] => []
  | Lit text :: re' => (text ++ matched_text re' gs)%list
  | Group _ :: re' =>
      match gs with
      | (_, g) :: gs' => (g ++ matched_text re' gs')%list
      | [] => []
      end
  end.

Fixpoint group_names (re : list token) : list string :=
  match re with
  | [] => []
  | Lit _ :: re' => group_names re'
  | Group name :: re' => name :: group_names re'
  end.

(** What [.+] can capture: at least one character, none a line
    terminator. *)
Definition capture (g : list ascii) : Prop :=
  g <> [] /\ forallb is_dot g = true.

(** A text that is one non-empty line. *)
Definition single_line (s : string) : bool :=
  negb (String.eqb s EmptyString) && forallb is_dot (list_ascii_of_string s).

(** A text without the character of the [" | "] separator. *)
Definition bar_free (s : string) : bool :=
  forallb (fun c => negb (Ascii.eqb c "|"%char)) (list_ascii_of_string s).

(** A text whose first character exists and is not a line terminator. *)
Definition starts_line (s : string) : bool :=
  match s with
  | String c _ => is_dot c
  | EmptyString => false
  end.

(** A program that, whatever the environment answers, sends no update to
    the given table. *)
Definition quiet (table : string) {A} (p : prog A) : Prop :=
  forall W (h : env W) (w : W), updatesSent table (calls h p w) = [].

(** Every call a program issues, whatever the environment answers,
    satisfies [P]. *)
Definition only (P : issued -> Prop) {A} (p : prog A) : Prop :=
  forall W (h : env W) (w : W), Forall P (calls h p w).

(** Every call of the program satisfies [P] and every value it returns
    satisfies [Q], on every path. *)
Fixpoint within (P : issued -> Prop) {A} (Q : A -> Prop) (p : prog A) : Prop :=
  match p with
  | Ret a => Q a
  | Throw _ => True
  | Await c k => P (Issued c) /\ forall r, within P Q (k r)
  end.

(** A promise that, once resumed, issues calls that satisfy [P] only. *)
Definition promised (P : issued -> Prop) {A} (pr : promise A) : Prop :=
  match pr with
  | Pending rest => within P (fun _ => True) rest
  | _ => True
  end.

(** The condition on a callback: an async function issues calls that
    satisfy [P] only; a function issues none. *)
Definition callback_only (P : issued -> Prop) {X S A}
    (func : callback X S A) : Prop :=
  match func with
  | Function _ => True
  | AsyncFunction f => forall x, only P (f x)
  | Awaiting g k => forall x, only P (let! b := g x in k x b)
  end.

(** An answer to the call [c], taken as an answer to the call [c'] when
    the two are calls of the same operation. *)
Definition answer_as {X Y} (c : call X) (c' : call Y) : option (X -> Y) :=
  match c in call X, c' in call Y return option (X -> Y) with
  | SelectAll _ _, SelectAll _ _ => Some (fun x => x)
  | Update _ _, Update _ _ => Some (fun x => x)
  | Create _ _, Create _ _ => Some (fun x => x)
  | Find _ _, Find _ _ => Some (fun x => x)
  | PrimaryOrgLogin, PrimaryOrgLogin => Some (fun x => x)
  | GetSessionId, GetSessionId => Some (fun x => x)
  | GetDevKey, GetDevKey => Some (fun x => x)
  | ListActive e, ListActive e' =>
      match e, e' return option (list (entity_obj e) -> list (entity_obj e'))
      with
      | Vendor, Vendor => Some (fun x => x)
      | ChartOfAccount, ChartOfAccount => Some (fun x => x)
      | Customer, Customer => Some (fun x => x)
      | Bill, Bill => Some (fun x => x)
      | ChartOfAccount, Customer => Some (fun x => x)
      | Customer, ChartOfAccount => Some (fun x => x)
      | _, _ => None
      end
  | CreateVendor _, CreateVendor _ => Some (fun x => x)
  | CreateBill _, CreateBill _ => Some (fun x => x)
  | GetDocumentPages _, GetDocumentPages _ => Some (fun x => x)
  | SetApprovers _ _ _, SetApprovers _ _ _ => Some (fun x => x)
  | Fetch _, Fetch _ => Some (fun x => x)
  | UploadAttachment _ _ _ _ _, UploadAttachment _ _ _ _ _ =>
      Some (fun x => x)
  | _, _ => None
  end.

(** The environment [h] with the answer to its next call fixed ahead. *)
Definition primed {W X} (h : env W) (c : call X) (r : exn + X)
  : env (bool * W) :=
  fun Y c' bw =>
    if bw.1 then
      (match r, answer_as c c' with
       | inr x, Some f => inr (f x)
       | inl e, _ => inl e
       | _, None => inl (Error EmptyString)
       end, (false, bw.2))
    else ((h Y c' bw.2).1, (false, (h Y c' bw.2).2)).

(** The environment answers every call of the program in the same way
    whatever its state: the calls the program then issues, in order, and
    how it settles. *)
Fixpoint steady {W A} (h : env W) (p : prog A) (t : list issued)
    (o : exn + A) : Prop :=
  match p with
  | Ret a => t = [] /\ o = inr a
  | Throw e => t = [] /\ o = inl e
  | Await c k =>
      exists r t', t = Issued c :: t' /\ (forall w, (h _ c w).1 = r)
                   /\ steady h (k r) t' o
  end.

(** A promise that will be fulfilled with [v] after the calls [q], in an
    environment that is steady for it. *)
Definition fulfils {W A} (h : env W) (pr : promise A) (q : list issued)
    (v : A) : Prop :=
  match pr with
  | Fulfilled a => q = [] /\ a = v
  | Failed _ => False
  | Pending rest => steady h rest q (inr v)
  end.

(** The calls of a trace that have a step come in the order [R] of their
    steps. *)
Definition ordered (step : issued -> option nat) (R : nat -> nat -> Prop)
    (trace : list issued) : Prop :=
  forall (i j : nat) (c1 c2 : issued) (a b : nat),
    (i < j)%nat -> trace !! i = Some c1 -> trace !! j = Some c2 ->
    step c1 = Some a -> step c2 = Some b -> R a b.

(** Whatever the environment answers, the calls of a program come in the
    order of their steps, and their steps satisfy [P]. *)
Definition stepped (step : issued -> option nat) (R : nat -> nat -> Prop)
    (P : nat -> Prop) {A} (p : prog A) : Prop :=
  forall W (h : env W) (w : W),
    ordered step R (calls h p w)
    /\ Forall (fun c => forall n, step c = Some n -> P n) (calls h p w).

(** The calls the sync may issue. *)
Definition syncCall (i : issued) : Prop :=
  match i with
  | Issued PrimaryOrgLogin | Issued GetSessionId | Issued (ListActive _)
  | Issued (GetDocumentPages _) => True
  | Issued (SelectAll table view) =>
      table = SyncBills.BILL_REPORTING_TABLE /\ view = EmptyString
  | Issued (Update table updates) =>
      table = SyncBills.BILL_REPORTING_TABLE
      /\ (0 < length updates <= 10)%nat
  | Issued (Create table creates) =>
      table = SyncBills.BILL_REPORTING_TABLE
      /\ (0 < length creates <= 10)%nat
  | _ => False
  end.

(** The steps of a sync: reading, updating, creating. *)
Definition syncStep (i : issued) : option nat :=
  match i with
  | Issued (Update _ _) => Some 1%nat
  | Issued (Create _ _) => Some 2%nat
  | _ => Some 0%nat
  end.

(** The tables in which the bill-creation workflow looks records up. *)
Definition lookupTables : list string :=
  [CreateBill.NEW_VENDORS_TABLE; "Existing Vendors";
   "Check Request Line Items"; "Chart of Accounts"; "Internal Customers";
   "Users"].

(** The calls the bill-creation workflow may issue. *)
Definition billCall (i : issued) : Prop :=
  match i with
  | Issued PrimaryOrgLogin | Issued GetDevKey | Issued GetSessionId
  | Issued (CreateVendor _) | Issued (CreateBill _)
  | Issued (SetApprovers _ _ _) | Issued (Fetch _)
  | Issued (UploadAttachment _ _ _ _ _) => True
  | Issued (SelectAll table view) =>
      table = CreateBill.CHECK_REQUESTS_TABLE /\ view = "New"
  | Issued (Find table _) =>
      table ∈ lookupTables
  | Issued (Update table updates) =>
      (table = CreateBill.NEW_VENDORS_TABLE
       \/ table = CreateBill.CHECK_REQUESTS_TABLE)
      /\ length updates = 1%nat
  | _ => False
  end.

(** The steps of the processing of one Check Request: the vendor is
    created, its id written back, the bill created, its approvers set,
    the documents fetched and uploaded, the request updated. Lookups have
    no step. *)
Definition billStep (i : issued) : option nat :=
  match i with
  | Issued (CreateVendor _) => Some 0%nat
  | Issued (Update table _) =>
      if decide (table = CreateBill.NEW_VENDORS_TABLE) then Some 1%nat
      else Some 5%nat
  | Issued (CreateBill _) => Some 2%nat
  | Issued (SetApprovers _ _ _) => Some 3%nat
  | Issued (Fetch _) | Issued (UploadAttachment _ _ _ _ _) => Some 4%nat
  | _ => None
  end.

(** Steps are taken in rising order; only the step of the documents (4)
    is taken more than once. *)
Definition billOrder (a b : nat) : Prop :=
  (a < b)%nat \/ (a = 4%nat /\ b = 4%nat).

(** A text without an opening parenthesis. *)
Definition paren_free (s : string) : bool :=
  forallb (fun c => negb (Ascii.eqb c "("%char)) (list_ascii_of_string s).

(** The description of a call that creates a bill is [text]. *)
Definition describedAs (text : string) (i : issued) : Prop :=
  match i with
  | Issued (CreateBill data) => bd_description data = text
  | _ => True
  end.

(** A text that is empty or starts with a line terminator. *)
Definition ends_line (s : string) : bool :=
  match s with
  | String c _ => negb (is_dot c)
  | EmptyString => true
  end.

(** A run of characters at which [.+] stops: the end of the text or a
    line terminator. *)
Definition stops (r : list ascii) : Prop :=
  match r with
  | [] => True
  | c :: _ => is_dot c = false
  end.

(** * Properties *)

Local Open Scope list_scope.

(** ** Running programs *)

Section Running.
Context {W : Type} (h : env W).

Lemma run_bind {A B} (p : prog A) (f : A -> prog B) (w : W) :
  run h (bind p f) w =
    let '(o, w1, t1) := run h p w in
    match o with
    | inl e => (inl e, w1, t1)
    | inr a => let '(o2, w2, t2) := run h (f a) w1 in (o2, w2, t1 ++ t2)
    end.
Proof.
  revert w. induction p as [a|e|X c k IH]; intros w; simpl.
  - destruct (run h (f a) w) as [[o2 w2] t2]. reflexivity.
  - reflexivity.
  - destruct (h X c w) as [r w1]. rewrite IH.
    destruct (run h (k r) w1) as [[o w2] t1].
    destruct o as [e|a]; [reflexivity|].
    destruct (run h (f a) w2) as [[o2 w3] t2]. reflexivity.
Qed.

Lemma run_await {X} (c : call X) (w : W) :
  run h (await c) w = ((h X c w).1, (h X c w).2, [Issued c]).
Proof.
  unfold await. simpl. destruct (h X c w) as [[e|x] w1]; reflexivity.
Qed.

Lemma run_catch {A} (p : prog A) (handler : exn -> prog A) (w : W) :
  run h (catch p handler) w =
    let '(o, w1, t1) := run h p w in
    match o with
    | inl e =>
        let '(o2, w2, t2) := run h (handler e) w1 in (o2, w2, t1 ++ t2)
    | inr a => (inr a, w1, t1)
    end.
Proof.
  revert w. induction p as [a|e|X c k IH]; intros w; simpl.
  - reflexivity.
  - destruct (run h (handler e) w) as [[o2 w2] t2]. reflexivity.
  - destruct (h X c w) as [r w1]. rewrite IH.
    destruct (run h (k r) w1) as [[o w2] t1].
    destruct o as [e|a]; [|reflexivity].
    destruct (run h (handler e) w2) as [[o2 w3] t2]. reflexivity.
Qed.

Lemma run_catchError {A} (p : prog A) (querying table : string) (w : W) :
  run h (Airtable.catchError p querying table) w =
    let '(o, w1, t) := run h p w in
    (match o with
     | inl e => inl (Airtable.wrapped querying table e)
     | inr a => inr a
     end, w1, t).
Proof.
  unfold Airtable.catchError. rewrite run_catch.
  destruct (run h p w) as [[[e|a] w1] t]; simpl; [|reflexivity].
  rewrite app_nil_r. reflexivity.
Qed.

End Running.

(** ** Batches *)

Lemma chunks_go_concat {X} (size fuel : nat) (l : list X) :
  (0 < size)%nat -> (length l <= fuel)%nat ->
  concat (Airtable.chunks_go fuel size l) = l.
Proof.
  intros Hsize. revert l. induction fuel as [|fuel IH]; intros l Hlen.
  - destruct l; [reflexivity|simpl in Hlen; lia].
  - destruct l as [|x l]; [reflexivity|].
    cbn [Airtable.chunks_go concat]. rewrite IH.
    + apply take_drop.
    + rewrite length_drop. simpl in *. lia.
Qed.

Lemma chunks_concat {X} (size : nat) (l : list X) :
  (0 < size)%nat -> concat (Airtable.chunks size l) = l.
Proof. intros. apply chunks_go_concat; [assumption|lia]. Qed.

Lemma chunks_go_bounded {X} (size fuel : nat) (l : list X) :
  Forall (fun b => length b <= size)%nat (Airtable.chunks_go fuel size l).
Proof.
  revert l. induction fuel as [|fuel IH]; intros l; [constructor|].
  destruct l as [|x l]; [constructor|].
  cbn [Airtable.chunks_go]. constructor; [|apply IH].
  rewrite length_take. lia.
Qed.

Lemma chunks_bounded {X} (size : nat) (l : list X) :
  Forall (fun b => length b <= size)%nat (Airtable.chunks size l).
Proof. apply chunks_go_bounded. Qed.

Lemma run_each_batch_ok {W X} (h : env W) (c : list X -> call unit)
    (step : W -> list X -> W) (batches : list (list X)) (w : W) :
  (forall b w0, In b batches -> h _ (c b) w0 = (inr tt, step w0 b)) ->
  run h (Airtable.each_batch (fun b => await (c b)) batches) w =
    (inr (map (fun _ => tt) batches), foldl step w batches,
     map (fun b => Issued (c b)) batches).
Proof.
  revert w. induction batches as [|b bs IH]; intros w Hok; [reflexivity|].
  cbn [Airtable.each_batch]. rewrite run_bind, run_await.
  rewrite (Hok b w) by (left; reflexivity). cbn [fst snd].
  rewrite run_bind, IH by (intros; apply Hok; right; assumption).
  simpl. rewrite app_nil_r. reflexivity.
Qed.

(** ** The reference environment *)

Section ReferenceWrites.
Import World.

Lemma rows_with_rows (w : world) (t : string) (rs : list record) :
  rows (with_rows w t rs) t = rs.
Proof. unfold rows, with_rows. simpl. rewrite lookup_insert_eq. done. Qed.

Lemma run_update (t : string) (us : list update_spec) (w : world) :
  run answer (Airtable.update t us) w =
    (inr (map (fun _ => tt) (Airtable.chunks 10 us)),
     foldl (update_rows t) w (Airtable.chunks 10 us),
     map (fun b => Issued (Update t b)) (Airtable.chunks 10 us)).
Proof.
  unfold Airtable.update, Airtable.batch, Airtable.batchAsync.
  rewrite run_catchError.
  rewrite (run_each_batch_ok answer (Update t) (update_rows t)); [done|].
  intros b w0 Hb. simpl.
  pose proof (chunks_bounded 10 us) as Hall.
  rewrite List.Forall_forall in Hall. specialize (Hall b Hb).
  destruct (decide (length b <= 10)%nat); [reflexivity|lia].
Qed.

Lemma run_create (t : string) (cs : list (gmap string value)) (w : world) :
  run answer (Airtable.create t cs) w =
    (inr (map (fun _ => tt) (Airtable.chunks 10 cs)),
     foldl (create_rows t) w (Airtable.chunks 10 cs),
     map (fun b => Issued (Create t b)) (Airtable.chunks 10 cs)).
Proof.
  unfold Airtable.create, Airtable.batch, Airtable.batchAsync.
  rewrite run_catchError.
  rewrite (run_each_batch_ok answer (Create t) (create_rows t)); [done|].
  intros b w0 Hb. simpl.
  pose proof (chunks_bounded 10 cs) as Hall.
  rewrite List.Forall_forall in Hall. specialize (Hall b Hb).
  destruct (decide (length b <= 10)%nat); [reflexivity|lia].
Qed.

End ReferenceWrites.

(** ** Arrays of promises *)

Lemma js_map_pure {X S A} (g : X -> A) (f : X -> S -> S) (xs : list X)
    (s : S) :
  js_map (Function (fun x st => inr (g x, f x st))) xs s
  = Ret (map (fun x => Fulfilled (g x)) xs, foldl (fun st x => f x st) s xs).
Proof.
  revert s. induction xs as [|x xs IH]; intros s; [reflexivity|].
  cbn [js_map]. rewrite IH. reflexivity.
Qed.

Lemma rounds_fulfilled {A} (vs : list A) (done : list A) (a : A) :
  rounds (length vs) done (Ret a) (map Ret vs) = Ret (done ++ a :: vs).
Proof.
  revert done a. induction vs as [|v vs IH]; intros done a; [reflexivity|].
  cbn [length map rounds]. rewrite IH, <- app_assoc. reflexivity.
Qed.

Lemma promise_all_resumed {A} (ps : list (promise A)) (vs : list A) :
  rejection ps = None -> map resumed ps = map Ret vs ->
  promise_all ps = Ret vs.
Proof.
  intros Hnone Hvs. unfold promise_all. rewrite Hnone, Hvs.
  destruct vs as [|v vs]; [reflexivity|]. cbn [map].
  rewrite length_map. apply (rounds_fulfilled vs [] v).
Qed.

Lemma promise_all_fulfilled {A} (vs : list A) :
  promise_all (map Fulfilled vs) = Ret vs.
Proof.
  unfold promise_all.
  assert (Hnone : rejection (map (@Fulfilled A) vs) = None)
    by (induction vs; simpl; auto).
  rewrite Hnone, map_map. cbn [resumed].
  destruct vs as [|v vs]; [reflexivity|]. cbn [map].
  change (map (fun x => Ret x) vs) with (map (@Ret A) vs).
  rewrite length_map. apply (rounds_fulfilled vs [] v).
Qed.

Lemma all_mapped_pure {X S A} (g : X -> A) (f : X -> S -> S) (xs : list X)
    (s : S) :
  all_mapped (Function (fun x st => inr (g x, f x st))) xs s
  = Ret (map g xs, foldl (fun st x => f x st) s xs).
Proof.
  unfold all_mapped. rewrite js_map_pure. cbn [bind].
  rewrite <- (map_map g Fulfilled), promise_all_fulfilled.
  reflexivity.
Qed.

(** ** A sync run in the reference environment *)

Section SyncRun.
Import World Reconciliation.
Variable PRIMARY_ORG : string.
Variable getYyyyMmDd : value -> value.

#[local] Abbreviation syncItem := (SyncBills.syncItem PRIMARY_ORG getYyyyMmDd).
#[local] Abbreviation syncBill := (SyncBills.syncBill PRIMARY_ORG getYyyyMmDd).
#[local] Abbreviation changeFor :=
  (SyncBills.changeFor PRIMARY_ORG getYyyyMmDd).

Lemma syncItems_described (vm : JsMap.t SyncBills.itemVendorT)
    (cm cu : JsMap.t value) (b : bill) (docs : list attachment)
    (items : list billLineItem) (ch : JsMap.t (gmap string value)) :
  Forall (fun item => is_Some (item_description item)) items ->
  for_of items (syncItem vm cm cu b docs) ch
  = Ret (foldl (fun changes x =>
                  JsMap.set changes (item_id x.1)
                    (changeFor vm cm cu b docs x.1 x.2))
               ch
               (omap (fun item => d ← item_description item; Some (item, d))
                     items)).
Proof.
  intros Hall. revert ch.
  induction Hall as [|item items [d Hd] _ IH]; intros ch; [reflexivity|].
  cbn [for_of omap list_omap]. unfold SyncBills.syncItem at 1.
  rewrite Hd. cbn [bind mbind option_bind foldl fst snd]. apply IH.
Qed.

Lemma syncItems_undescribed (vm : JsMap.t SyncBills.itemVendorT)
    (cm cu : JsMap.t value) (b : bill) (docs : list attachment)
    (items : list billLineItem) (ch : JsMap.t (gmap string value)) :
  Exists (fun item => item_description item = None) items ->
  for_of items (syncItem vm cm cu b docs) ch = Throw SyncBills.noDescription.
Proof.
  intros Hex. revert ch.
  induction items as [|item items IH]; intros ch;
    [apply Exists_nil in Hex; destruct Hex|].
  cbn [for_of]. unfold SyncBills.syncItem at 1.
  destruct (item_description item) as [d|] eqn:Hd; [|reflexivity].
  cbn [bind]. apply IH.
  apply Exists_cons in Hex as [Hex|Hex]; [congruence|exact Hex].
Qed.

Lemma run_syncBills (sid : string) (vm : JsMap.t SyncBills.itemVendorT)
    (cm cu : JsMap.t value) (bs : list bill)
    (ch : JsMap.t (gmap string value)) (w : world) :
  Forall (fun b => Forall (fun item => is_Some (item_description item))
                          (billLineItems b)) bs ->
  run answer (for_of bs (syncBill sid vm cm cu) ch) w =
    (inr (foldl
            (fun changes x =>
               JsMap.set changes (item_id x.1.2)
                 (changeFor vm cm cu x.1.1
                    (SyncBills.documents sid x.1.1
                       (documentPages w (bill_id x.1.1)))
                    x.1.2 x.2))
            ch (legibleIn bs)),
     w, map (fun b => Issued (GetDocumentPages (bill_id b))) bs).
Proof.
  intros Hall. revert ch.
  induction Hall as [|b bs Hb _ IH]; intros ch; [reflexivity|].
  cbn [for_of]. rewrite run_bind. unfold SyncBills.syncBill at 1.
  rewrite run_bind, run_await. cbn [answer fst snd].
  rewrite (syncItems_described _ _ _ _ _ _ _ Hb). cbn [run].
  rewrite IH. cbn [app map]. f_equal. f_equal. f_equal.
  unfold legibleIn. cbn [mbind list_bind]. rewrite omap_app, foldl_app.
  f_equal. change (?f <$> ?l) with (fmap f l).
  generalize (billLineItems b) as items. clear. intros items. revert ch.
  induction items as [|item items IH]; intros ch; [reflexivity|].
  cbn [omap list_omap fmap list_fmap fst snd].
  destruct (item_description item) as [d|]; cbn [mbind option_bind foldl];
    apply IH.
Qed.

Lemma run_syncBills_undescribed (sid : string)
    (vm : JsMap.t SyncBills.itemVendorT) (cm cu : JsMap.t value)
    (bs : list bill) (ch : JsMap.t (gmap string value)) (w : world) :
  Exists (fun b => Exists (fun item => item_description item = None)
                          (billLineItems b)) bs ->
  exists n,
    run answer (for_of bs (syncBill sid vm cm cu) ch) w =
      (inl SyncBills.noDescription, w,
       map (fun b => Issued (GetDocumentPages (bill_id b))) (take n bs)).
Proof.
  intros Hex. revert ch.
  induction bs as [|b bs IH]; intros ch;
    [apply Exists_nil in Hex; destruct Hex|].
  cbn [for_of]. rewrite run_bind. unfold SyncBills.syncBill at 1.
  rewrite run_bind, run_await. cbn [answer fst snd].
  destruct (decide (Exists (fun item => item_description item = None)
                           (billLineItems b))) as [Hb|Hb].
  - exists 1%nat. rewrite (syncItems_undescribed _ _ _ _ _ _ _ Hb).
    cbn [run take map app]. reflexivity.
  - apply Exists_cons in Hex as [Hex|Hex]; [contradiction|].
    assert (Hall : Forall (fun item => is_Some (item_description item))
                          (billLineItems b)).
    { apply Forall_forall. intros item Hin.
      destruct (item_description item) eqn:Hd; [eauto|].
      exfalso. apply Hb, Exists_exists. eauto. }
    rewrite (syncItems_described _ _ _ _ _ _ _ Hall). cbn [run].
    match goal with
    | |- context [run answer (for_of bs _ ?c) w] =>
        destruct (IH Hex c) as [n Hn]
    end.
    exists (S n). rewrite Hn. reflexivity.
Qed.

Lemma described_Forall (w : world) :
  described w = true ->
  Forall (fun b => Forall (fun item => is_Some (item_description item))
                          (billLineItems b)) (bills w).
Proof.
  unfold described, fetched. rewrite forallb_forall.
  intros H. apply Forall_forall. intros b Hb.
  apply Forall_forall. intros item Hitem.
  assert (Hin : In (b, item)
                   (b ← bills w; (fun item => (b, item)) <$> billLineItems b)).
  { apply list_elem_of_In, list_elem_of_bind. exists b. split; [|exact Hb].
    apply list_elem_of_fmap. eauto. }
  specialize (H _ Hin). apply bool_decide_eq_true in H. exact H.
Qed.

Lemma undescribed_Exists (w : world) :
  described w = false ->
  Exists (fun b => Exists (fun item => item_description item = None)
                          (billLineItems b)) (bills w).
Proof.
  unfold described, fetched. intros H.
  apply not_true_iff_false in H. rewrite forallb_forall in H.
  apply Exists_exists.
  destruct (decide (Exists (fun b => Exists
                              (fun item => item_description item = None)
                              (billLineItems b)) (bills w)))
    as [Hex|Hno]; [apply Exists_exists in Hex; exact Hex|].
  exfalso. apply H. intros [b item] Hin.
  apply list_elem_of_In, list_elem_of_bind in Hin as (b' & Hin & Hb).
  apply list_elem_of_fmap in Hin as (item' & [= -> ->] & Hitem).
  apply bool_decide_eq_true. cbn [snd].
  destruct (item_description item') eqn:Hd; [eauto|].
  exfalso. apply Hno, Exists_exists. exists b'. split; [exact Hb|].
  apply Exists_exists. eauto.
Qed.

Lemma run_main (w : world) :
  described w = true ->
  run answer (SyncBills.main PRIMARY_ORG getYyyyMmDd) w =
    (inr tt, synced PRIMARY_ORG getYyyyMmDd (login w),
     syncCalls PRIMARY_ORG getYyyyMmDd (login w)).
Proof.
  intros Hdesc.
  unfold SyncBills.main, SyncBills.getNames, SyncBills.getEntityData.
  repeat (rewrite run_bind, ?run_bind, ?run_await; cbn [answer fst snd run]).
  rewrite run_syncBills by exact (described_Forall w Hdesc).
  unfold Airtable.select.
  rewrite run_bind, run_catchError, run_bind, run_await.
  cbn [answer fst snd].
  rewrite (all_mapped_pure (fun _ => tt)
             (fun r st => SyncBills.stageRecord PRIMARY_ORG r st)).
  cbn [run].
  change (foldl _ ([], _) (rows (login w) SyncBills.BILL_REPORTING_TABLE))
    with (staged PRIMARY_ORG (changesOf PRIMARY_ORG getYyyyMmDd (login w))
            (rows (login w) table)).
  unfold synced, syncCalls, updatesOf, createsOf.
  destruct (staged PRIMARY_ORG (changesOf PRIMARY_ORG getYyyyMmDd (login w))
              (rows (login w) table)) as [updates changes].
  rewrite run_bind, run_update, run_bind, run_create. cbn [run fst snd].
  rewrite !app_nil_r. reflexivity.
Qed.

(** What a run does when a line item of the fetch has no description. *)
Lemma run_main_undescribed (w : world) :
  described w = false ->
  exists n,
    run answer (SyncBills.main PRIMARY_ORG getYyyyMmDd) w =
      (inl SyncBills.noDescription, login w,
       [Issued PrimaryOrgLogin; Issued GetSessionId;
        Issued (ListActive Vendor); Issued (ListActive ChartOfAccount);
        Issued (ListActive Customer); Issued (ListActive Bill)]
       ++ map (fun b => Issued (GetDocumentPages (bill_id b)))
              (take n (bills w))).
Proof.
  intros Hdesc.
  unfold SyncBills.main, SyncBills.getNames, SyncBills.getEntityData.
  repeat (rewrite run_bind, ?run_bind, ?run_await; cbn [answer fst snd run]).
  match goal with
  | |- context [run answer (for_of ?bs (SyncBills.syncBill _ _ ?sid ?vm ?cm ?cu)
                              ?ch) ?w0] =>
      destruct (run_syncBills_undescribed sid vm cm cu bs ch w0
                  (undescribed_Exists w Hdesc)) as [n Hn]
  end.
  exists n.
  rewrite Hn. reflexivity.
Qed.
End SyncRun.

(** ** The JavaScript [Map] *)

Section JsMapFacts.
Context {V : Type}.
Implicit Types (m : JsMap.t V) (k : string) (v : V).

Lemma get_set_eq m k v : JsMap.get (JsMap.set m k v) k = Some v.
Proof.
  induction m as [|[k' v'] m IH]; simpl.
  - destruct (decide (k = k)); congruence.
  - destruct (decide (k' = k)); simpl.
    + destruct (decide (k = k)); congruence.
    + destruct (decide (k' = k)); congruence.
Qed.

Lemma get_set_ne m k k' v :
  k <> k' -> JsMap.get (JsMap.set m k v) k' = JsMap.get m k'.
Proof.
  intros Hne. induction m as [|[k0 v0] m IH]; simpl.
  - destruct (decide (k = k')); congruence.
  - destruct (decide (k0 = k)); simpl.
    + subst. destruct (decide (k = k')); congruence.
    + destruct (decide (k0 = k')); congruence.
Qed.

Lemma keys_set m k v k' :
  k' ∈ JsMap.keys (JsMap.set m k v) <-> k' = k \/ k' ∈ JsMap.keys m.
Proof.
  unfold JsMap.keys. induction m as [|[k0 v0] m IH]; simpl.
  - set_solver.
  - destruct (decide (k0 = k)); simpl; set_solver.
Qed.

Lemma NoDup_keys_set m k v :
  NoDup (JsMap.keys m) -> NoDup (JsMap.keys (JsMap.set m k v)).
Proof.
  induction m as [|[k0 v0] m IH]; simpl; intros Hnd.
  - apply NoDup_singleton.
  - apply NoDup_cons in Hnd as [Hnotin Hnd].
    destruct (decide (k0 = k)); simpl.
    + subst. apply NoDup_cons; auto.
    + apply NoDup_cons. split; [|apply IH; assumption].
      intros Hin. apply keys_set in Hin. destruct Hin; congruence.
Qed.

Lemma get_None m k : JsMap.get m k = None <-> k ∉ JsMap.keys m.
Proof.
  unfold JsMap.keys. induction m as [|[k0 v0] m IH]; simpl.
  - set_solver.
  - destruct (decide (k0 = k)).
    + split; [discriminate|]. set_solver.
    + rewrite IH. set_solver.
Qed.

Lemma get_Some_elem m k v : JsMap.get m k = Some v -> (k, v) ∈ m.
Proof.
  induction m as [|[k0 v0] m IH]; simpl; [discriminate|].
  destruct (decide (k0 = k)).
  - intros [= ->]. subst. left.
  - intros H. right. apply IH, H.
Qed.

Lemma elem_get_Some m k v :
  NoDup (JsMap.keys m) -> (k, v) ∈ m -> JsMap.get m k = Some v.
Proof.
  induction m as [|[k0 v0] m IH]; simpl; intros Hnd Hin.
  - inversion Hin.
  - apply NoDup_cons in Hnd as [Hnotin Hnd].
    apply elem_of_cons in Hin as [[= -> ->]|Hin].
    + destruct (decide (k0 = k0)); congruence.
    + destruct (decide (k0 = k)).
      * subst. exfalso. apply Hnotin.
        apply (list_elem_of_fmap_2 fst) in Hin. exact Hin.
      * apply IH; assumption.
Qed.

Lemma get_delete_eq m k : JsMap.get (JsMap.delete m k) k = None.
Proof.
  induction m as [|[k0 v0] m IH]; simpl; [reflexivity|].
  destruct (decide (k0 = k)); simpl; [assumption|].
  destruct (decide (k0 = k)); congruence.
Qed.

Lemma get_delete_ne m k k' :
  k <> k' -> JsMap.get (JsMap.delete m k) k' = JsMap.get m k'.
Proof.
  intros Hne. induction m as [|[k0 v0] m IH]; simpl; [reflexivity|].
  destruct (decide (k0 = k)); simpl.
  - subst. destruct (decide (k = k')); congruence.
  - destruct (decide (k0 = k')); congruence.
Qed.

Lemma keys_delete m k k' :
  k' ∈ JsMap.keys (JsMap.delete m k) <-> k' <> k /\ k' ∈ JsMap.keys m.
Proof.
  unfold JsMap.keys. induction m as [|[k0 v0] m IH]; simpl.
  - set_solver.
  - destruct (decide (k0 = k)); simpl; set_solver.
Qed.

Lemma NoDup_keys_delete m k :
  NoDup (JsMap.keys m) -> NoDup (JsMap.keys (JsMap.delete m k)).
Proof.
  induction m as [|[k0 v0] m IH]; simpl; intros Hnd; [constructor|].
  apply NoDup_cons in Hnd as [Hnotin Hnd].
  destruct (decide (k0 = k)); simpl; [apply IH; assumption|].
  apply NoDup_cons. split; [|apply IH; assumption].
  rewrite keys_delete. tauto.
Qed.

Lemma delete_absent m k : k ∉ JsMap.keys m -> JsMap.delete m k = m.
Proof.
  unfold JsMap.keys. induction m as [|[k0 v0] m IH]; simpl; intros Hnotin;
    [reflexivity|].
  destruct (decide (k0 = k)); [set_solver|].
  f_equal. apply IH. set_solver.
Qed.

Lemma get_all_None m : (forall k, JsMap.get m k = None) -> m = [].
Proof.
  destruct m as [|[k v] m]; [reflexivity|]. intros Hnone.
  specialize (Hnone k). simpl in Hnone.
  destruct (decide (k = k)); [discriminate|congruence].
Qed.

Lemma elem_delete m k k' v :
  (k', v) ∈ JsMap.delete m k -> (k', v) ∈ m.
Proof.
  induction m as [|[k0 v0] m IH]; simpl; [trivial|].
  destruct (decide (k0 = k)); set_solver.
Qed.

End JsMapFacts.

(** ** Field names and object literals *)

Lemma ends_with_app (p suffix : string) :
  ends_with suffix (p +:+ suffix) = true.
Proof.
  induction p as [|c p IH]; simpl.
  - destruct suffix; simpl; [reflexivity|]. rewrite Ascii.eqb_refl.
    rewrite String.eqb_refl. reflexivity.
  - destruct (String.eqb suffix (String c (p +:+ suffix))); [reflexivity|].
    exact IH.
Qed.

Lemma fieldName_literal (org entity literal : string) :
  ends_with (" Bill.com " +:+ entity +:+ " ID") literal = false ->
  SyncBills.billComIdFieldName org entity <> literal.
Proof.
  intros Hends <-. unfold SyncBills.billComIdFieldName in Hends.
  rewrite ends_with_app in Hends. discriminate.
Qed.

Lemma chars_app (s1 s2 : string) :
  list_ascii_of_string (s1 +:+ s2)
  = list_ascii_of_string s1 ++ list_ascii_of_string s2.
Proof. induction s1 as [|c s1 IH]; simpl; [|rewrite IH]; reflexivity. Qed.

Lemma chars_inj (s1 s2 : string) :
  list_ascii_of_string s1 = list_ascii_of_string s2 -> s1 = s2.
Proof.
  intros H. rewrite <- (string_of_list_ascii_of_string s1), H.
  apply string_of_list_ascii_of_string.
Qed.

Lemma string_app_inv_tail (s1 s2 t : string) :
  s1 +:+ t = s2 +:+ t -> s1 = s2.
Proof.
  intros H. apply chars_inj.
  apply (f_equal list_ascii_of_string) in H. rewrite !chars_app in H.
  exact (app_inv_tail _ _ _ H).
Qed.

Lemma fieldName_inj (org e1 e2 : string) :
  SyncBills.billComIdFieldName org e1 = SyncBills.billComIdFieldName org e2 ->
  e1 = e2.
Proof.
  unfold SyncBills.billComIdFieldName. intros H.
  apply String.app_inj in H. apply (String.app_inj " Bill.com ") in H.
  exact (string_app_inv_tail _ _ _ H).
Qed.

Ltac key_neq :=
  first
    [ discriminate
    | apply fieldName_literal; reflexivity
    | apply not_eq_sym; apply fieldName_literal; reflexivity
    | let H := fresh in intros H; apply fieldName_inj in H; discriminate H ].

Lemma foldl_insert_lookup (props : list (string * value)) (k : string)
    (o : gmap string value) :
  foldl (fun o '(k, v) => <[k := v]> o) o props !! k =
    foldl (fun acc kv => if decide (kv.1 = k) then Some kv.2 else acc)
          (o !! k) props.
Proof.
  revert o. induction props as [|[k' v'] props IH]; intros o; simpl.
  - reflexivity.
  - rewrite IH. f_equal. rewrite lookup_insert.
    destruct (decide (k' = k)); reflexivity.
Qed.

Lemma js_object_lookup (props : list (string * value)) (k : string) :
  js_object props !! k =
    foldl (fun acc kv => if decide (kv.1 = k) then Some kv.2 else acc)
          None props.
Proof. unfold js_object. rewrite foldl_insert_lookup. reflexivity. Qed.

Ltac object_lookup :=
  rewrite js_object_lookup; cbn [foldl fst snd];
  repeat first
    [ rewrite decide_True by reflexivity
    | rewrite decide_False by key_neq ];
  try reflexivity.

Section ChangeFields.
Variable PRIMARY_ORG : string.
Variable getYyyyMmDd : value -> value.
Variables (vendors : JsMap.t SyncBills.itemVendorT)
          (chartOfAccounts customers : JsMap.t value)
          (b : bill) (docs : list attachment) (item : billLineItem)
          (itemDescription : string).

Let entry :=
  SyncBills.changeFor PRIMARY_ORG getYyyyMmDd vendors chartOfAccounts
    customers b docs item itemDescription.
Let itemVendor :=
  SyncBills.itemVendorOf
    (default SyncBills.empty_object (JsMap.get vendors (vendorId b)))
    itemDescription.

Lemma changeFor_Active : entry !! "Active"%string = Some (VBool true).
Proof. subst entry. unfold SyncBills.changeFor. object_lookup. Qed.

Lemma changeFor_key :
  entry !! SyncBills.primaryBillComId PRIMARY_ORG
  = Some (VStr (item_id item)).
Proof.
  subst entry. unfold SyncBills.changeFor, SyncBills.primaryBillComId.
  object_lookup.
Qed.

Lemma changeFor_ExpenseDate :
  entry !! "Expense Date"%string
  = Some (js_or (SyncBills.date itemVendor) (invoiceDate b)).
Proof. subst entry. unfold SyncBills.changeFor. object_lookup. Qed.

Lemma changeFor_VendorName :
  entry !! "Vendor Name"%string = Some (SyncBills.name itemVendor).
Proof. subst entry. unfold SyncBills.changeFor. object_lookup. Qed.

Lemma changeFor_VendorAddress :
  entry !! "Vendor Address"%string = Some (SyncBills.address itemVendor).
Proof. subst entry. unfold SyncBills.changeFor. object_lookup. Qed.

Lemma changeFor_VendorCity :
  entry !! "Vendor City"%string = Some (SyncBills.city itemVendor).
Proof. subst entry. unfold SyncBills.changeFor. object_lookup. Qed.

Lemma changeFor_VendorState :
  entry !! "Vendor State"%string = Some (SyncBills.state itemVendor).
Proof. subst entry. unfold SyncBills.changeFor. object_lookup. Qed.

Lemma changeFor_VendorZip :
  entry !! "Vendor Zip Code"%string = Some (SyncBills.zip itemVendor).
Proof. subst entry. unfold SyncBills.changeFor. object_lookup. Qed.

End ChangeFields.

(** ** Streaming the mirror table *)

Section Staging.
Import World Reconciliation.
Variable PRIMARY_ORG : string.

#[local] Abbreviation keyOf := (keyOf PRIMARY_ORG).
#[local] Abbreviation staged := (staged PRIMARY_ORG).
#[local] Abbreviation fieldsFor := (fieldsFor PRIMARY_ORG).
#[local] Abbreviation stage := (fun st r => SyncBills.stageRecord PRIMARY_ORG r st).

Implicit Types (ch : JsMap.t (gmap string value)) (rs : list record).

Lemma get_value_keyOf ch (r : record) :
  JsMap.get_value ch (get r (SyncBills.primaryBillComId PRIMARY_ORG))
  = match keyOf r with Some k => JsMap.get ch k | None => None end.
Proof.
  unfold Reconciliation.keyOf.
  destruct (get r (SyncBills.primaryBillComId PRIMARY_ORG)); reflexivity.
Qed.

Lemma delete_value_keyOf ch (r : record) :
  JsMap.delete_value ch (get r (SyncBills.primaryBillComId PRIMARY_ORG))
  = match keyOf r with Some k => JsMap.delete ch k | None => ch end.
Proof.
  unfold Reconciliation.keyOf.
  destruct (get r (SyncBills.primaryBillComId PRIMARY_ORG)); reflexivity.
Qed.

Lemma foldl_stage us ch rs :
  foldl stage (us, ch) rs = (us ++ (staged ch rs).1, (staged ch rs).2).
Proof.
  unfold Reconciliation.staged. revert us ch.
  induction rs as [|r rs IH]; intros us ch; simpl.
  - rewrite app_nil_r. reflexivity.
  - rewrite IH. rewrite (IH [_]). simpl. rewrite <- app_assoc. reflexivity.
Qed.

Lemma staged_cons ch (r : record) rs :
  staged ch (r :: rs) =
    (UpdateSpec (VStr (getId r)) (fieldsFor ch [] r)
       :: (staged (match keyOf r with
                   | Some k => JsMap.delete ch k
                   | None => ch
                   end) rs).1,
     (staged (match keyOf r with
              | Some k => JsMap.delete ch k
              | None => ch
              end) rs).2).
Proof.
  unfold Reconciliation.staged at 1. simpl. rewrite foldl_stage. simpl.
  rewrite get_value_keyOf, delete_value_keyOf.
  unfold Reconciliation.fieldsFor. simpl.
  destruct (keyOf r); reflexivity.
Qed.

(** What is left of [changes]: the entries no streamed row has as key. *)
Lemma staged_rest_get ch rs (k : string) :
  JsMap.get (staged ch rs).2 k =
    if decide (k ∈ omap keyOf rs) then None else JsMap.get ch k.
Proof.
  revert ch. induction rs as [|r rs IH]; intros ch.
  - reflexivity.
  - rewrite staged_cons. cbn [snd]. rewrite IH. cbn [omap list_omap].
    destruct (keyOf r) as [k'|] eqn:Hk; [|reflexivity].
    destruct (decide (k' = k)) as [->|Hne].
    + rewrite get_delete_eq. repeat case_decide; try reflexivity; set_solver.
    + rewrite get_delete_ne by assumption.
      repeat case_decide; try reflexivity; set_solver.
Qed.

Lemma staged_rest_NoDup ch rs :
  NoDup (JsMap.keys ch) -> NoDup (JsMap.keys (staged ch rs).2).
Proof.
  revert ch. induction rs as [|r rs IH]; intros ch Hnd; [assumption|].
  rewrite staged_cons. cbn [snd]. apply IH.
  destruct (keyOf r); [apply NoDup_keys_delete|]; assumption.
Qed.

Lemma staged_rest_elem ch rs (k : string) (e : gmap string value) :
  (k, e) ∈ (staged ch rs).2 -> (k, e) ∈ ch.
Proof.
  revert ch. induction rs as [|r rs IH]; intros ch; [trivial|].
  rewrite staged_cons. cbn [snd]. intros Hin. apply IH in Hin.
  destruct (keyOf r) as [k'|]; [|assumption].
  eapply elem_delete, Hin.
Qed.

(** The update staged for the row at each position. *)
Lemma staged_lookup ch rs (i : nat) (r : record) :
  rs !! i = Some r ->
  (staged ch rs).1 !! i
  = Some (UpdateSpec (VStr (getId r)) (fieldsFor ch (take i rs) r)).
Proof.
  revert ch i. induction rs as [|r0 rs IH]; intros ch i Hi; [discriminate|].
  rewrite staged_cons. cbn [fst].
  destruct i as [|i]; simpl in Hi |- *.
  - injection Hi as ->. reflexivity.
  - rewrite (IH _ i) by assumption. do 2 f_equal.
    unfold Reconciliation.fieldsFor.
    destruct (keyOf r) as [k|]; [|reflexivity].
    cbn [omap list_omap].
    destruct (keyOf r0) as [k0|] eqn:Hk0.
    + destruct (decide (k0 = k)) as [->|Hne].
      * rewrite get_delete_eq.
        repeat case_decide; try reflexivity; set_solver.
      * rewrite get_delete_ne by assumption.
        repeat case_decide; try reflexivity; set_solver.
    + reflexivity.
Qed.

Lemma staged_length ch rs : length (staged ch rs).1 = length rs.
Proof.
  revert ch. induction rs as [|r rs IH]; intros ch; [reflexivity|].
  rewrite staged_cons. simpl. rewrite IH. reflexivity.
Qed.

Lemma staged_ids ch rs :
  map id (staged ch rs).1 = map (fun r => VStr (getId r)) rs.
Proof.
  revert ch. induction rs as [|r rs IH]; intros ch; [reflexivity|].
  rewrite staged_cons. simpl. rewrite IH. reflexivity.
Qed.

End Staging.

(** ** Writes to the mirror table *)

Section Writes.
Import World.

Lemma getId_apply_to_row (r : record) (u : update_spec) :
  getId (apply_to_row r u) = getId r.
Proof. unfold apply_to_row. destruct (targets u r); reflexivity. Qed.

Lemma targets_getId (u : update_spec) (r r' : record) :
  getId r = getId r' -> targets u r = targets u r'.
Proof. unfold targets. intros ->. reflexivity. Qed.

Lemma targets_own (r : record) (fs : gmap string value) (r' : record) :
  targets (UpdateSpec (VStr (getId r)) fs) r'
  = bool_decide (getId r = getId r').
Proof. reflexivity. Qed.

Lemma foldl_apply_update (rs : list record) (us : list update_spec) :
  foldl apply_update rs us = map (fun r => foldl apply_to_row r us) rs.
Proof.
  revert rs. induction us as [|u us IH]; intros rs; simpl.
  - rewrite map_id. reflexivity.
  - rewrite IH. unfold apply_update. rewrite map_map. reflexivity.
Qed.

Lemma foldl_apply_miss (r : record) (us : list update_spec) :
  Forall (fun u => id u <> VStr (getId r)) us ->
  foldl apply_to_row r us = r.
Proof.
  induction 1 as [|u us Hu _ IH]; [reflexivity|]. simpl.
  replace (apply_to_row r u) with r; [exact IH|].
  unfold apply_to_row, targets. destruct (id u) as [| | | |s| |]; try reflexivity.
  case_bool_decide; [congruence|reflexivity].
Qed.

Lemma updates_by_row (rs : list record) (us : list update_spec) :
  NoDup (map getId rs) ->
  map id us = map (fun r => VStr (getId r)) rs ->
  foldl apply_update rs us = zip_with merge rs us.
Proof.
  rewrite foldl_apply_update. revert us.
  induction rs as [|r rs IH]; intros us Hnd Hids.
  - reflexivity.
  - destruct us as [|u us]; [discriminate|].
    simpl in Hids. injection Hids as Hu Hids.
    apply NoDup_cons in Hnd as [Hnotin Hnd].
    cbn [map zip_with foldl]. f_equal.
    + unfold apply_to_row at 2, targets. rewrite Hu.
      rewrite bool_decide_eq_true_2 by reflexivity.
      rewrite foldl_apply_miss; [reflexivity|].
      apply Forall_forall. intros u' Hu' Hid. simpl in Hid.
      apply (list_elem_of_fmap_2 id) in Hu'.
      change (map id us) with (id <$> us) in Hids.
      rewrite Hids, Hid in Hu'.
      apply list_elem_of_fmap in Hu' as (r' & [= Heq] & Hr').
      apply Hnotin. rewrite Heq. apply list_elem_of_fmap_2. exact Hr'.
    + rewrite <- IH by assumption.
      apply map_ext_in. intros r' Hr'.
      replace (apply_to_row r' u) with r'; [reflexivity|].
      unfold apply_to_row, targets. rewrite Hu.
      case_bool_decide as Heq; [|reflexivity].
      exfalso. apply Hnotin. rewrite Heq.
      apply list_elem_of_fmap_2, list_elem_of_In, Hr'.
Qed.

Lemma foldl_apply_create (alloc : list string -> string) (rs : list record)
    (cs : list (gmap string value)) :
  foldl (apply_create alloc) rs cs = rs ++ createdRows alloc rs cs.
Proof.
  revert rs. induction cs as [|c cs IH]; intros rs; simpl.
  - rewrite app_nil_r. reflexivity.
  - rewrite IH. unfold apply_create. rewrite <- app_assoc. reflexivity.
Qed.

Lemma cells_createdRows (alloc : list string -> string) (rs : list record)
    (cs : list (gmap string value)) :
  map cells (createdRows alloc rs cs) = cs.
Proof.
  revert rs. induction cs as [|c cs IH]; intros rs; simpl; [reflexivity|].
  rewrite IH. reflexivity.
Qed.

Lemma NoDup_createdRows (alloc : list string -> string) (rs : list record)
    (cs : list (gmap string value)) :
  (forall ids, alloc ids ∉ ids) ->
  NoDup (map getId rs) ->
  NoDup (map getId (rs ++ createdRows alloc rs cs)).
Proof.
  intros Hfresh. revert rs. induction cs as [|c cs IH]; intros rs Hnd; simpl.
  - rewrite app_nil_r. assumption.
  - rewrite cons_middle, app_assoc. apply IH.
    rewrite map_app. simpl. apply NoDup_app. split; [assumption|].
    split; [|apply NoDup_singleton].
    intros x Hx Hx'. apply list_elem_of_singleton in Hx'. subst x.
    exact (Hfresh _ Hx).
Qed.

Lemma rows_with_rows_ne (w : world) (t t' : string) (rs : list record) :
  t <> t' -> rows (with_rows w t rs) t' = rows w t'.
Proof.
  intros Hne. unfold rows, with_rows. simpl.
  rewrite lookup_insert_ne by assumption. reflexivity.
Qed.

Lemma rows_update_batches (t : string) (bs : list (list update_spec))
    (w : world) :
  rows (foldl (update_rows t) w bs) t
  = foldl apply_update (rows w t) (concat bs).
Proof.
  revert w. induction bs as [|b bs IH]; intros w; [reflexivity|].
  simpl. rewrite IH. unfold update_rows. rewrite rows_with_rows.
  rewrite foldl_app. reflexivity.
Qed.

Lemma allocate_update_batches (t : string) (bs : list (list update_spec))
    (w : world) :
  allocate (foldl (update_rows t) w bs) = allocate w.
Proof.
  revert w. induction bs as [|b bs IH]; intros w; [reflexivity|].
  simpl. rewrite IH. reflexivity.
Qed.

Lemma allocate_create_batches (t : string)
    (bs : list (list (gmap string value))) (w : world) :
  allocate (foldl (create_rows t) w bs) = allocate w.
Proof.
  revert w. induction bs as [|b bs IH]; intros w; [reflexivity|].
  simpl. rewrite IH. reflexivity.
Qed.

Lemma rows_create_batches (t : string) (bs : list (list (gmap string value)))
    (w : world) :
  rows (foldl (create_rows t) w bs) t
  = foldl (apply_create (allocate w)) (rows w t) (concat bs).
Proof.
  revert w. induction bs as [|b bs IH]; intros w; [reflexivity|].
  simpl. rewrite IH. unfold create_rows. rewrite rows_with_rows.
  rewrite foldl_app. reflexivity.
Qed.

End Writes.

(** ** The Changes Map *)

Section FoldSet.
Context {X V : Type} (key : X -> string) (val : X -> V).

Let add (m : JsMap.t V) (x : X) := JsMap.set m (key x) (val x).

Lemma foldl_set_NoDup (xs : list X) (m : JsMap.t V) :
  NoDup (JsMap.keys m) -> NoDup (JsMap.keys (foldl add m xs)).
Proof.
  revert m. induction xs as [|x xs IH]; intros m Hnd; [assumption|].
  simpl. apply IH, NoDup_keys_set, Hnd.
Qed.

Lemma foldl_set_get (xs : list X) (m : JsMap.t V) (k : string) (v : V) :
  JsMap.get (foldl add m xs) k = Some v ->
  JsMap.get m k = Some v \/ exists x, x ∈ xs /\ key x = k /\ val x = v.
Proof.
  revert m. induction xs as [|x xs IH]; intros m Hget; [left; assumption|].
  simpl in Hget. apply IH in Hget as [Hget|(x' & Hin & Hk & Hv)].
  - subst add. simpl in Hget. destruct (decide (key x = k)) as [<-|Hne].
    + rewrite get_set_eq in Hget. injection Hget as <-.
      right. exists x. split; [left|auto].
    + rewrite get_set_ne in Hget by assumption. left. assumption.
  - right. exists x'. split; [right; assumption|auto].
Qed.

Lemma foldl_set_keys (xs : list X) (m : JsMap.t V) (k : string) :
  k ∈ JsMap.keys (foldl add m xs) <->
  k ∈ JsMap.keys m \/ exists x, x ∈ xs /\ key x = k.
Proof.
  revert m. induction xs as [|x xs IH]; intros m; simpl.
  - split; [auto|]. intros [H|(x & Hx & _)]; [assumption|inversion Hx].
  - rewrite IH. subst add. simpl. rewrite keys_set. split.
    + intros [[->|H]|(x' & Hx' & Hk)].
      * right. exists x. split; [left|reflexivity].
      * left. assumption.
      * right. exists x'. split; [right; assumption|assumption].
    + intros [H|(x' & Hx' & Hk)]; [left; right; assumption|].
      apply elem_of_cons in Hx' as [->|Hx'].
      * left. left. symmetry. assumption.
      * right. exists x'. auto.
Qed.

End FoldSet.

Section ChangesMap.
Import World Reconciliation.
Variable PRIMARY_ORG : string.
Variable getYyyyMmDd : value -> value.

#[local] Abbreviation changesOf := (changesOf PRIMARY_ORG getYyyyMmDd).
#[local] Abbreviation entryOf := (entryOf PRIMARY_ORG getYyyyMmDd).

Lemma elem_of_fetched (w : world) (b : bill) (item : billLineItem) :
  (b, item) ∈ fetched w <-> b ∈ bills w /\ item ∈ billLineItems b.
Proof.
  unfold fetched. rewrite list_elem_of_bind. split.
  - intros (b' & Hin & Hb). apply list_elem_of_fmap in Hin as (i & [= -> ->] & Hi).
    auto.
  - intros [Hb Hi]. exists b. split; [|assumption].
    apply list_elem_of_fmap. exists item. auto.
Qed.

Lemma elem_of_legible (w : world) (b : bill) (item : billLineItem)
    (d : string) :
  (b, item, d) ∈ legible w
  <-> b ∈ bills w /\ item ∈ billLineItems b /\ item_description item = Some d.
Proof.
  unfold legible, legibleIn. rewrite list_elem_of_omap. split.
  - intros ([b' item'] & Hin & Hd). cbn [snd] in Hd.
    destruct (item_description item') as [d'|] eqn:Hdesc; [|discriminate].
    cbn in Hd. injection Hd as -> -> ->.
    apply (elem_of_fetched w) in Hin as [Hb Hi]. auto.
  - intros (Hb & Hi & Hd). exists (b, item). split.
    + apply (elem_of_fetched w). auto.
    + cbn [snd]. rewrite Hd. reflexivity.
Qed.

Lemma changesOf_NoDup (w : world) : NoDup (JsMap.keys (changesOf w)).
Proof.
  apply (foldl_set_NoDup (fun x : bill * billLineItem * string => item_id x.1.2)
           (fun x => entryOf w x.1.1 x.1.2 x.2)).
  constructor.
Qed.

Lemma changesOf_get (w : world) (k : string) (e : gmap string value) :
  JsMap.get (changesOf w) k = Some e ->
  exists b item d,
    b ∈ bills w /\ item ∈ billLineItems b /\ item_description item = Some d
    /\ item_id item = k /\ e = entryOf w b item d.
Proof.
  intros Hget.
  apply (foldl_set_get (fun x : bill * billLineItem * string => item_id x.1.2)
           (fun x => entryOf w x.1.1 x.1.2 x.2)) in Hget
    as [Hget|([[b item] d] & Hin & Hk & He)]; [discriminate|].
  apply elem_of_legible in Hin as (Hb & Hi & Hd). exists b, item, d. auto.
Qed.

Lemma changesOf_present (w : world) (b : bill) (item : billLineItem) :
  b ∈ bills w -> item ∈ billLineItems b ->
  is_Some (item_description item) ->
  is_Some (JsMap.get (changesOf w) (item_id item)).
Proof.
  intros Hb Hi [d Hd].
  destruct (JsMap.get (changesOf w) (item_id item)) eqn:Hget; [eauto|].
  exfalso. apply get_None in Hget. apply Hget.
  apply (foldl_set_keys (fun x : bill * billLineItem * string => item_id x.1.2)
           (fun x => entryOf w x.1.1 x.1.2 x.2)).
  right. exists (b, item, d). split; [|reflexivity].
  apply elem_of_legible. auto.
Qed.

(** Every entry carries its own key and [Active: true]. *)
Lemma changesOf_keyed (w : world) (k : string) (e : gmap string value) :
  JsMap.get (changesOf w) k = Some e ->
  e !! SyncBills.primaryBillComId PRIMARY_ORG = Some (VStr k)
  /\ e !! "Active"%string = Some (VBool true).
Proof.
  intros Hget.
  apply changesOf_get in Hget as (b & item & d & _ & _ & _ & <- & ->).
  unfold Reconciliation.entryOf.
  split; [apply changeFor_key|apply changeFor_Active].
Qed.

End ChangesMap.

(** ** Lists of keyed rows *)

Section Keyed.
Context {A K : Type} `{EqDecision K} (f : A -> option K).

Lemma omap_ext_lookup (l1 l2 : list A) :
  length l1 = length l2 ->
  (forall i x y, l1 !! i = Some x -> l2 !! i = Some y -> f x = f y) ->
  omap f l1 = omap f l2.
Proof.
  revert l2. induction l1 as [|x l1 IH]; intros [|y l2] Hlen Hext;
    try discriminate; [reflexivity|].
  cbn [omap list_omap]. rewrite (Hext 0%nat x y) by reflexivity.
  rewrite (IH l2); [reflexivity|simpl in Hlen; lia|].
  intros i x' y' Hx Hy. exact (Hext (S i) x' y' Hx Hy).
Qed.

Lemma NoDup_omap_lookup (l : list A) (i j : nat) (x y : A) (k : K) :
  NoDup (omap f l) ->
  l !! i = Some x -> l !! j = Some y -> f x = Some k -> f y = Some k ->
  i = j.
Proof.
  revert i j. induction l as [|a l IH]; intros i j Hnd Hi Hj Hx Hy;
    [discriminate|].
  cbn [omap list_omap] in Hnd.
  assert (Hin : forall n z, l !! n = Some z -> f z = Some k -> k ∈ omap f l).
  { intros n z Hn Hz. apply list_elem_of_omap. exists z.
    split; [eapply list_elem_of_lookup_2, Hn|assumption]. }
  destruct i as [|i], j as [|j]; simpl in Hi, Hj.
  - reflexivity.
  - injection Hi as ->. rewrite Hx in Hnd.
    apply NoDup_cons in Hnd as [Hnotin _]. exfalso. eauto.
  - injection Hj as ->. rewrite Hy in Hnd.
    apply NoDup_cons in Hnd as [Hnotin _]. exfalso. eauto.
  - f_equal. apply IH; try assumption.
    destruct (f a); [apply NoDup_cons in Hnd as [_ Hnd]|]; assumption.
Qed.

Lemma filter_none (P : A -> Prop) `{forall x, Decision (P x)} (l : list A) :
  (forall j y, l !! j = Some y -> ~ P y) -> filter P l = [].
Proof.
  induction l as [|a l IH]; intros Hnone; [reflexivity|].
  rewrite filter_cons_False by exact (Hnone 0%nat a eq_refl).
  apply IH. intros j y Hj. exact (Hnone (S j) y Hj).
Qed.

Lemma filter_unique (P : A -> Prop) `{forall x, Decision (P x)}
    (l : list A) (i : nat) (x : A) :
  l !! i = Some x -> P x ->
  (forall j y, l !! j = Some y -> P y -> j = i) ->
  filter P l = [x].
Proof.
  revert i. induction l as [|a l IH]; intros i Hi HP Huniq; [discriminate|].
  destruct i as [|i]; simpl in Hi.
  - injection Hi as ->. rewrite filter_cons_True by assumption. f_equal.
    apply filter_none. intros j y Hj Hy.
    specialize (Huniq (S j) y Hj Hy). discriminate.
  - rewrite filter_cons_False.
    + apply (IH i); [assumption|assumption|].
      intros j y Hj Hy. specialize (Huniq (S j) y Hj Hy). lia.
    + intros Ha. specialize (Huniq 0%nat a eq_refl Ha). discriminate.
Qed.

End Keyed.

(** ** The mirror table after a run *)

Section Mirror.
Import World Reconciliation.
Variable PRIMARY_ORG : string.
Variable getYyyyMmDd : value -> value.

#[local] Abbreviation K := (SyncBills.primaryBillComId PRIMARY_ORG).
#[local] Abbreviation keyOf := (keyOf PRIMARY_ORG).
#[local] Abbreviation staged := (staged PRIMARY_ORG).
#[local] Abbreviation fieldsFor := (fieldsFor PRIMARY_ORG).
#[local] Abbreviation changesOf := (changesOf PRIMARY_ORG getYyyyMmDd).
#[local] Abbreviation updatesOf := (updatesOf PRIMARY_ORG getYyyyMmDd).
#[local] Abbreviation createsOf := (createsOf PRIMARY_ORG getYyyyMmDd).
#[local] Abbreviation synced := (synced PRIMARY_ORG getYyyyMmDd).

Implicit Types (ch : JsMap.t (gmap string value)) (rs : list record).

Lemma key_not_Active : K <> "Active"%string.
Proof. unfold SyncBills.primaryBillComId. key_neq. Qed.

Lemma keyOf_insert (i : string) (k : string) (e : gmap string value) :
  keyOf (Record i (<[K := VStr k]> e)) = Some k.
Proof.
  unfold Reconciliation.keyOf, get. simpl. rewrite lookup_insert_eq.
  reflexivity.
Qed.

Lemma keyOf_merge ch (earlier : list record) (r : record) (x : value) :
  (forall k e, JsMap.get ch k = Some e -> e !! K = Some (VStr k)) ->
  keyOf (merge r (UpdateSpec x (fieldsFor ch earlier r))) = keyOf r.
Proof.
  intros Hkeyed.
  assert (Hde : keyOf (Record (getId r) (deactivate ∪ cells r)) = keyOf r).
  { unfold Reconciliation.keyOf, get. simpl.
    rewrite lookup_union_r; [reflexivity|].
    apply lookup_singleton_ne. apply not_eq_sym, key_not_Active. }
  unfold merge, Reconciliation.fieldsFor. simpl.
  destruct (keyOf r) as [k|] eqn:Hk; [|exact Hde].
  case_decide; [exact Hde|].
  destruct (JsMap.get ch k) as [e|] eqn:Hget; [|exact Hde]. simpl.
  unfold Reconciliation.keyOf, get. simpl.
  rewrite (lookup_union_Some_l _ _ _ _ (Hkeyed k e Hget)). reflexivity.
Qed.

Lemma updated_lookup ch rs (i : nat) (r : record) :
  rs !! i = Some r ->
  zip_with merge rs (staged ch rs).1 !! i
  = Some (merge r (UpdateSpec (VStr (getId r)) (fieldsFor ch (take i rs) r))).
Proof.
  intros Hi. rewrite lookup_zip_with, Hi. simpl.
  rewrite (staged_lookup PRIMARY_ORG ch rs i r Hi). reflexivity.
Qed.

Lemma keyOf_updated ch rs :
  (forall k e, JsMap.get ch k = Some e -> e !! K = Some (VStr k)) ->
  omap keyOf (zip_with merge rs (staged ch rs).1) = omap keyOf rs.
Proof.
  intros Hkeyed. apply omap_ext_lookup.
  - rewrite length_zip_with_l_eq; [reflexivity|].
    symmetry. apply staged_length.
  - intros i x y Hx Hy. rewrite (updated_lookup ch rs i y Hy) in Hx.
    injection Hx as <-. apply keyOf_merge, Hkeyed.
Qed.

Lemma keyOf_created (alloc : list string -> string) rs ch :
  omap keyOf (createdRows alloc rs (SyncBills.stageCreates PRIMARY_ORG ch))
  = JsMap.keys ch.
Proof.
  revert rs. induction ch as [|[k e] ch IH]; intros rs; [reflexivity|].
  cbn [SyncBills.stageCreates map createdRows omap list_omap].
  rewrite keyOf_insert. cbn [JsMap.keys map fst]. f_equal. apply IH.
Qed.

Lemma created_lookup (alloc : list string -> string) rs ch (p : nat)
    (k : string) (e : gmap string value) :
  ch !! p = Some (k, e) ->
  exists r,
    createdRows alloc rs (SyncBills.stageCreates PRIMARY_ORG ch) !! p = Some r
    /\ cells r = <[K := VStr k]> e.
Proof.
  revert rs p. induction ch as [|[k0 e0] ch IH]; intros rs p Hp;
    [discriminate|].
  cbn [SyncBills.stageCreates map createdRows].
  destruct p as [|p]; simpl in Hp.
  - injection Hp as -> ->. eexists. split; reflexivity.
  - apply IH, Hp.
Qed.

Lemma rows_synced (w : world) :
  NoDup (map getId (rows w table)) ->
  rows (synced w) table =
    zip_with merge (rows w table) (updatesOf w)
    ++ createdRows (allocate w)
         (zip_with merge (rows w table) (updatesOf w)) (createsOf w).
Proof.
  intros Hnd. unfold Reconciliation.synced.
  rewrite rows_create_batches, allocate_update_batches, rows_update_batches.
  rewrite !chunks_concat by lia.
  rewrite updates_by_row; [apply foldl_apply_create|assumption|].
  apply staged_ids.
Qed.

Lemma keys_synced (w : world) :
  NoDup (map getId (rows w table)) ->
  omap keyOf (rows (synced w) table)
  = omap keyOf (rows w table)
    ++ JsMap.keys (staged (changesOf w) (rows w table)).2.
Proof.
  intros Hnd. rewrite rows_synced by assumption. rewrite omap_app.
  unfold Reconciliation.updatesOf, Reconciliation.createsOf.
  rewrite keyOf_updated, keyOf_created; [reflexivity|].
  intros k e Hget. eapply changesOf_keyed, Hget.
Qed.

Lemma keys_synced_NoDup (w : world) :
  NoDup (map getId (rows w table)) ->
  NoDup (omap keyOf (rows w table)) ->
  NoDup (omap keyOf (rows (synced w) table)).
Proof.
  intros Hids Hkeys. rewrite keys_synced by assumption.
  apply NoDup_app. split; [assumption|]. split.
  - intros k Hk. apply get_None. rewrite staged_rest_get.
    rewrite decide_True by assumption. reflexivity.
  - apply staged_rest_NoDup, changesOf_NoDup.
Qed.

(** Each key of the Changes Map ends up on exactly one row. *)
Lemma line_item_row (w : world) (k : string) (e : gmap string value) :
  NoDup (map getId (rows w table)) ->
  NoDup (omap keyOf (rows w table)) ->
  JsMap.get (changesOf w) k = Some e ->
  exists r,
    filter (fun r => keyOf r = Some k) (rows (synced w) table) = [r]
    /\ e ⊆ cells r.
Proof.
  intros Hids Hkeys Hget.
  pose proof (keys_synced_NoDup w Hids Hkeys) as Hnd.
  assert (Hpos : exists i r, rows (synced w) table !! i = Some r
                             /\ keyOf r = Some k /\ e ⊆ cells r).
  { rewrite rows_synced by assumption.
    destruct (decide (k ∈ omap keyOf (rows w table))) as [Hin|Hnotin].
    - apply list_elem_of_omap in Hin as (r & Hr & Hk).
      apply list_elem_of_lookup in Hr as [i Hi].
      exists i. eexists. split; [|split].
      + rewrite lookup_app_l; [apply updated_lookup, Hi|].
        rewrite length_zip_with_l_eq;
          [eapply lookup_lt_Some, Hi|symmetry; apply staged_length].
      + rewrite keyOf_merge; [assumption|].
        intros k' e' Hget'. eapply changesOf_keyed, Hget'.
      + unfold merge, Reconciliation.fieldsFor. simpl. rewrite Hk.
        rewrite decide_False, Hget; [apply map_union_subseteq_l|].
        intros Hearlier. apply list_elem_of_omap in Hearlier as (r' & Hr' & Hk').
        apply list_elem_of_lookup in Hr' as [j Hj].
        pose proof (lookup_lt_Some _ _ _ Hj) as Hlt.
        rewrite length_take in Hlt. rewrite lookup_take_lt in Hj by lia.
        pose proof (NoDup_omap_lookup keyOf _ i j r r' k Hkeys Hi Hj Hk Hk').
        lia.
    - assert (Hrest : JsMap.get (staged (changesOf w) (rows w table)).2 k
                      = Some e).
      { rewrite staged_rest_get, decide_False by assumption. exact Hget. }
      apply get_Some_elem, list_elem_of_lookup in Hrest as [p Hp].
      destruct (created_lookup (allocate w)
                  (zip_with merge (rows w table) (updatesOf w))
                  _ p k e Hp) as (r & Hr & Hcells).
      eexists _, r. split; [|split].
      + rewrite lookup_app_r by apply Nat.le_add_r.
        rewrite Nat.add_comm, Nat.add_sub. exact Hr.
      + unfold Reconciliation.keyOf, get. rewrite Hcells, lookup_insert_eq.
        reflexivity.
      + rewrite Hcells, insert_id; [reflexivity|].
        eapply changesOf_keyed, Hget. }
  destruct Hpos as (i & r & Hi & Hk & Hsub).
  exists r. split; [|assumption].
  apply (filter_unique _ _ i); [assumption|assumption|].
  intros j y Hj Hy. symmetry.
  exact (NoDup_omap_lookup keyOf _ i j r y k Hnd Hi Hj Hk Hy).
Qed.

End Mirror.

(** ** What a run sends and leaves *)

Section SyncOutcome.
Import World Reconciliation.
Variable PRIMARY_ORG : string.
Variable getYyyyMmDd : value -> value.

#[local] Abbreviation main := (SyncBills.main PRIMARY_ORG getYyyyMmDd).
#[local] Abbreviation keyOf := (keyOf PRIMARY_ORG).
#[local] Abbreviation changesOf := (changesOf PRIMARY_ORG getYyyyMmDd).
#[local] Abbreviation updatesOf := (updatesOf PRIMARY_ORG getYyyyMmDd).
#[local] Abbreviation createsOf := (createsOf PRIMARY_ORG getYyyyMmDd).
#[local] Abbreviation synced := (synced PRIMARY_ORG getYyyyMmDd).
#[local] Abbreviation syncCalls := (syncCalls PRIMARY_ORG getYyyyMmDd).

Lemma result_main (w : world) :
  described w = true -> result answer main w = inr tt.
Proof. intros H. unfold result. rewrite run_main by exact H. reflexivity. Qed.

Lemma final_main (w : world) :
  described w = true -> final answer main w = synced (login w).
Proof. intros H. unfold final. rewrite run_main by exact H. reflexivity. Qed.

Lemma calls_main (w : world) :
  described w = true -> calls answer main w = syncCalls (login w).
Proof. intros H. unfold calls. rewrite run_main by exact H. reflexivity. Qed.

Lemma result_main_undescribed (w : world) :
  described w = false ->
  result answer main w = inl SyncBills.noDescription.
Proof.
  intros H. unfold result.
  destruct (run_main_undescribed PRIMARY_ORG getYyyyMmDd w H) as [n ->].
  reflexivity.
Qed.

Lemma final_main_undescribed (w : world) :
  described w = false -> final answer main w = login w.
Proof.
  intros H. unfold final.
  destruct (run_main_undescribed PRIMARY_ORG getYyyyMmDd w H) as [n ->].
  reflexivity.
Qed.

Lemma updatesSent_app (t : string) (l1 l2 : list issued) :
  updatesSent t (l1 ++ l2) = updatesSent t l1 ++ updatesSent t l2.
Proof. unfold updatesSent. rewrite map_app, concat_app. reflexivity. Qed.

Lemma createsSent_app (t : string) (l1 l2 : list issued) :
  createsSent t (l1 ++ l2) = createsSent t l1 ++ createsSent t l2.
Proof. unfold createsSent. rewrite map_app, concat_app. reflexivity. Qed.

Lemma updatesSent_updates (t : string) (bs : list (list update_spec)) :
  updatesSent t (map (fun b => Issued (Update t b)) bs) = concat bs.
Proof.
  unfold updatesSent. induction bs as [|b bs IH]; [reflexivity|].
  simpl. rewrite decide_True by reflexivity. rewrite IH. reflexivity.
Qed.

Lemma createsSent_creates (t : string)
    (bs : list (list (gmap string value))) :
  createsSent t (map (fun b => Issued (Create t b)) bs) = concat bs.
Proof.
  unfold createsSent. induction bs as [|b bs IH]; [reflexivity|].
  simpl. rewrite decide_True by reflexivity. rewrite IH. reflexivity.
Qed.

Lemma updatesSent_none {X} (t : string) (f : X -> issued) (xs : list X) :
  (forall x, updatesSent t [f x] = []) -> updatesSent t (map f xs) = [].
Proof.
  intros Hf. induction xs as [|x xs IH]; [reflexivity|].
  change (map f (x :: xs)) with ([f x] ++ map f xs).
  rewrite updatesSent_app, Hf, IH. reflexivity.
Qed.

Lemma createsSent_none {X} (t : string) (f : X -> issued) (xs : list X) :
  (forall x, createsSent t [f x] = []) -> createsSent t (map f xs) = [].
Proof.
  intros Hf. induction xs as [|x xs IH]; [reflexivity|].
  change (map f (x :: xs)) with ([f x] ++ map f xs).
  rewrite createsSent_app, Hf, IH. reflexivity.
Qed.

Lemma updatesSent_main (w : world) :
  described w = true ->
  updatesSent table (calls answer main w) = updatesOf (login w).
Proof.
  intros H. rewrite calls_main by exact H. unfold Reconciliation.syncCalls.
  rewrite !updatesSent_app, updatesSent_updates.
  rewrite !updatesSent_none by reflexivity.
  rewrite chunks_concat by lia. simpl. apply app_nil_r.
Qed.

Lemma createsSent_main (w : world) :
  described w = true ->
  createsSent table (calls answer main w) = createsOf (login w).
Proof.
  intros H. rewrite calls_main by exact H. unfold Reconciliation.syncCalls.
  rewrite !createsSent_app, createsSent_creates.
  rewrite !createsSent_none by reflexivity.
  rewrite chunks_concat by lia. reflexivity.
Qed.

Lemma writes_main_undescribed (w : world) :
  described w = false ->
  updatesSent table (calls answer main w) = []
  /\ createsSent table (calls answer main w) = []
  /\ Issued (SelectAll table EmptyString) ∉ calls answer main w.
Proof.
  intros H. unfold calls.
  destruct (run_main_undescribed PRIMARY_ORG getYyyyMmDd w H) as [n ->].
  cbn [snd]. split; [|split].
  - rewrite updatesSent_app, updatesSent_none by reflexivity. reflexivity.
  - rewrite createsSent_app, createsSent_none by reflexivity. reflexivity.
  - rewrite elem_of_app, !elem_of_cons, elem_of_nil, list_elem_of_fmap.
    intros [[?|[?|[?|[?|[?|[?|[]]]]]]]|(b & ? & _)]; discriminate.
Qed.

End SyncOutcome.

(** ** A second run *)

Section SecondRun.
Import World Reconciliation.
Variable PRIMARY_ORG : string.
Variable getYyyyMmDd : value -> value.

#[local] Abbreviation K := (SyncBills.primaryBillComId PRIMARY_ORG).
#[local] Abbreviation keyOf := (keyOf PRIMARY_ORG).
#[local] Abbreviation staged := (staged PRIMARY_ORG).
#[local] Abbreviation fieldsFor := (fieldsFor PRIMARY_ORG).
#[local] Abbreviation changesOf := (changesOf PRIMARY_ORG getYyyyMmDd).
#[local] Abbreviation updatesOf := (updatesOf PRIMARY_ORG getYyyyMmDd).
#[local] Abbreviation createsOf := (createsOf PRIMARY_ORG getYyyyMmDd).
#[local] Abbreviation synced := (synced PRIMARY_ORG getYyyyMmDd).

Implicit Types (ch : JsMap.t (gmap string value)) (rs : list record).

Lemma update_batches_preserve {X} (f : world -> X) (t : string)
    (bs : list (list update_spec)) (w : world) :
  (forall w t rs, f (with_rows w t rs) = f w) ->
  f (foldl (update_rows t) w bs) = f w.
Proof.
  intros Hf. revert w. induction bs as [|b bs IH]; intros w; [reflexivity|].
  simpl. rewrite IH. apply Hf.
Qed.

Lemma create_batches_preserve {X} (f : world -> X) (t : string)
    (bs : list (list (gmap string value))) (w : world) :
  (forall w t rs, f (with_rows w t rs) = f w) ->
  f (foldl (create_rows t) w bs) = f w.
Proof.
  intros Hf. revert w. induction bs as [|b bs IH]; intros w; [reflexivity|].
  simpl. rewrite IH. apply Hf.
Qed.

Lemma synced_preserves {X} (f : world -> X) (w : world) :
  (forall w t rs, f (with_rows w t rs) = f w) -> f (synced w) = f w.
Proof.
  intros Hf. unfold Reconciliation.synced.
  rewrite create_batches_preserve, update_batches_preserve by assumption.
  reflexivity.
Qed.

Lemma changesOf_synced (w : world) : changesOf (synced w) = changesOf w.
Proof.
  unfold Reconciliation.changesOf, Reconciliation.entryOf,
    Reconciliation.vendorMap, Reconciliation.legible.
  rewrite (synced_preserves bills), (synced_preserves vendors),
    (synced_preserves chartOfAccounts), (synced_preserves customers),
    (synced_preserves session), (synced_preserves documentPages)
    by reflexivity.
  reflexivity.
Qed.

(** A login that is granted the session id in use changes no entry. *)
Lemma changesOf_login (w : world) :
  granted w 0 = session w -> changesOf (login w) = changesOf w.
Proof.
  intros Hsame.
  unfold Reconciliation.changesOf, Reconciliation.entryOf,
    Reconciliation.vendorMap, Reconciliation.legible.
  cbn [login bills vendors chartOfAccounts customers session documentPages].
  rewrite Hsame. reflexivity.
Qed.

Lemma described_synced (w : world) : described (synced w) = described w.
Proof.
  unfold described, fetched. rewrite (synced_preserves bills) by reflexivity.
  reflexivity.
Qed.

Lemma staged_app ch (l1 l2 : list record) :
  staged ch (l1 ++ l2) =
    ((staged ch l1).1 ++ (staged (staged ch l1).2 l2).1,
     (staged (staged ch l1).2 l2).2).
Proof.
  unfold Reconciliation.staged at 1. rewrite foldl_app.
  fold (staged ch l1). destruct (staged ch l1) as [us1 ch1]. simpl.
  apply foldl_stage.
Qed.

Lemma staged_ext ch (l1 l2 : list record) :
  Forall2 (fun a b => getId a = getId b /\ keyOf a = keyOf b) l1 l2 ->
  staged ch l1 = staged ch l2.
Proof.
  intros Hall. revert ch. induction Hall as [|a b l1 l2 [Hid Hk] _ IH];
    intros ch; [reflexivity|].
  rewrite !staged_cons. unfold Reconciliation.fieldsFor.
  rewrite Hid, Hk, IH. reflexivity.
Qed.

Lemma updated_same_keys ch rs :
  (forall k e, JsMap.get ch k = Some e -> e !! K = Some (VStr k)) ->
  Forall2 (fun a b => getId a = getId b /\ keyOf a = keyOf b)
          (zip_with merge rs (staged ch rs).1) rs.
Proof.
  intros Hkeyed. apply Forall2_same_length_lookup. split.
  - rewrite length_zip_with_l_eq; [reflexivity|].
    symmetry. apply staged_length.
  - intros i x y Hx Hy. rewrite (updated_lookup PRIMARY_ORG ch rs i y Hy) in Hx.
    injection Hx as <-. split; [reflexivity|]. apply keyOf_merge, Hkeyed.
Qed.

Lemma updated_holds_update ch rs :
  Forall2 (fun r u => id u = VStr (getId r) /\ fields u ⊆ cells r)
          (zip_with merge rs (staged ch rs).1) (staged ch rs).1.
Proof.
  apply Forall2_same_length_lookup. split.
  - rewrite length_zip_with_l_eq; [|symmetry; apply staged_length].
    symmetry. apply staged_length.
  - intros i x u Hx Hu.
    apply lookup_zip_with_Some in Hx as (r & u' & -> & Hr & Hu').
    rewrite Hu in Hu'. injection Hu' as <-.
    pose proof (staged_lookup PRIMARY_ORG ch rs i r Hr) as Hs.
    rewrite Hu in Hs. injection Hs as ->. simpl. split; [reflexivity|].
    apply map_union_subseteq_l.
Qed.

(** Streaming the rows created for what was left of the map consumes it
    and stages for each of them the fields it already has. *)
Lemma staged_created (alloc : list string -> string) rs ch :
  NoDup (JsMap.keys ch) ->
  (forall k e, (k, e) ∈ ch -> e !! K = Some (VStr k)) ->
  staged ch (createdRows alloc rs (SyncBills.stageCreates PRIMARY_ORG ch))
  = (map (fun r => UpdateSpec (VStr (getId r)) (cells r))
         (createdRows alloc rs (SyncBills.stageCreates PRIMARY_ORG ch)),
     []).
Proof.
  revert rs. induction ch as [|[k e] ch IH]; intros rs Hnd Hkeyed;
    [reflexivity|].
  cbn [SyncBills.stageCreates map createdRows].
  fold (SyncBills.stageCreates PRIMARY_ORG ch).
  rewrite staged_cons, keyOf_insert.
  cbn [JsMap.keys map fst] in Hnd. apply NoDup_cons in Hnd as [Hnotin Hnd].
  assert (Hdel : JsMap.delete ((k, e) :: ch) k = ch).
  { simpl. rewrite decide_True by reflexivity.
    apply delete_absent, Hnotin. }
  rewrite Hdel, IH; [|assumption|intros k' e' Hin; apply Hkeyed; right; exact Hin].
  cbn [fst snd getId cells]. do 2 f_equal.
  unfold Reconciliation.fieldsFor. rewrite keyOf_insert. simpl.
  rewrite decide_True by reflexivity. simpl.
  rewrite insert_id; [reflexivity|]. apply Hkeyed. left.
Qed.

Lemma merge_held (l : list record) (us : list update_spec) :
  Forall2 (fun r u => id u = VStr (getId r) /\ fields u ⊆ cells r) l us ->
  zip_with merge l us = l.
Proof.
  induction 1 as [|r u l us [_ Hsub] _ IH]; [reflexivity|].
  simpl. rewrite IH. f_equal. unfold merge.
  rewrite (map_subseteq_union _ _ Hsub). destruct r; reflexivity.
Qed.

Lemma created_hold_own (l : list record) :
  Forall2 (fun r u => id u = VStr (getId r) /\ fields u ⊆ cells r) l
          (map (fun r => UpdateSpec (VStr (getId r)) (cells r)) l).
Proof.
  induction l as [|r l IH]; simpl; constructor; [|exact IH].
  split; reflexivity.
Qed.

Lemma getId_updated ch rs :
  map getId (zip_with merge rs (staged ch rs).1) = map getId rs.
Proof.
  apply list_eq. intros i.
  change (map getId ?l) with (getId <$> l). rewrite !list_lookup_fmap.
  destruct (rs !! i) as [r|] eqn:Hr.
  - rewrite (updated_lookup PRIMARY_ORG ch rs i r Hr). reflexivity.
  - rewrite lookup_zip_with, Hr. reflexivity.
Qed.

(** The mirror table a run leaves, and what a second run stages for it. *)
Lemma second_staging (w : world) :
  consistent w ->
  let rows1 := rows (synced w) table in
  NoDup (map getId rows1)
  /\ exists us2,
       staged (changesOf w) rows1 = (us2, [])
       /\ Forall2 (fun r u => id u = VStr (getId r) /\ fields u ⊆ cells r)
                  rows1 us2.
Proof.
  intros [Hids Hfresh] rows1. subst rows1.
  rewrite rows_synced by apply Hids.
  unfold Reconciliation.updatesOf, Reconciliation.createsOf.
  set (ch := changesOf w). set (rs := rows w table).
  assert (Hkeyed : forall k e, JsMap.get ch k = Some e ->
                               e !! K = Some (VStr k)).
  { intros k e Hget. eapply changesOf_keyed, Hget. }
  split.
  - apply NoDup_createdRows; [assumption|].
    rewrite getId_updated. apply Hids.
  - eexists. split.
    + rewrite staged_app.
      rewrite (staged_ext ch _ rs (updated_same_keys ch rs Hkeyed)).
      rewrite staged_created.
      * reflexivity.
      * apply staged_rest_NoDup, changesOf_NoDup.
      * intros k e Hin. apply Hkeyed.
        apply elem_get_Some; [apply changesOf_NoDup|].
        eapply staged_rest_elem, Hin.
    + apply Forall2_app; [apply updated_holds_update|].
      apply created_hold_own.
Qed.

End SecondRun.

(** ** Reconciliation *)

Section ReconciliationClaims.
Import World Reconciliation.
Variable PRIMARY_ORG : string.
Variable getYyyyMmDd : value -> value.

#[local] Abbreviation main := (SyncBills.main PRIMARY_ORG getYyyyMmDd).
#[local] Abbreviation keyOf := (keyOf PRIMARY_ORG).
#[local] Abbreviation changesOf := (changesOf PRIMARY_ORG getYyyyMmDd).

Lemma undescribed_item (w : world) (b : bill) (item : billLineItem) :
  b ∈ bills w -> item ∈ billLineItems b -> item_description item = None ->
  described w = false.
Proof.
  intros Hb Hitem Hnone. apply not_true_iff_false. intros Hdesc.
  pose proof (described_Forall w Hdesc) as Hall.
  rewrite Forall_forall in Hall. specialize (Hall b Hb).
  rewrite Forall_forall in Hall. destruct (Hall item Hitem) as [d Hd].
  congruence.
Qed.

Lemma described_item (w : world) (b : bill) (item : billLineItem) :
  described w = true -> b ∈ bills w -> item ∈ billLineItems b ->
  is_Some (item_description item).
Proof.
  intros Hdesc Hb Hitem.
  pose proof (described_Forall w Hdesc) as Hall.
  rewrite Forall_forall in Hall. specialize (Hall b Hb).
  rewrite Forall_forall in Hall. exact (Hall item Hitem).
Qed.

(** C1 fails on the code. When a line item of the fetch has no
    description, the run throws the TypeError of [item.description.match]
    before it reads the mirror table and leaves the table as it was: a
    fetched line item that had no row has none after the run. *)
Theorem undescribed_line_item_stops_mirroring (w : world) (b : bill)
    (item : billLineItem) :
  b ∈ bills w -> item ∈ billLineItems b -> item_description item = None ->
  result answer main w = inl SyncBills.noDescription
  /\ rows (final answer main w) table = rows w table
  /\ forall b' item',
       b' ∈ bills w -> item' ∈ billLineItems b' ->
       item_id item' ∉ omap keyOf (rows w table) ->
       filter (fun r => keyOf r = Some (item_id item'))
              (rows (final answer main w) table) = [].
Proof.
  intros Hb Hitem Hnone.
  pose proof (undescribed_item w b item Hb Hitem Hnone) as Hdesc.
  rewrite result_main_undescribed, final_main_undescribed by exact Hdesc.
  split; [reflexivity|]. split; [reflexivity|].
  intros b' item' _ _ Hnew.
  change (rows (login w) table) with (rows w table).
  induction (rows w table) as [|r rs IH]; [reflexivity|].
  cbn [omap list_omap] in Hnew.
  destruct (keyOf r) as [k|] eqn:Hk.
  - apply not_elem_of_cons in Hnew as [Hne Hnew].
    rewrite filter_cons_False by (rewrite Hk; congruence). apply IH, Hnew.
  - rewrite filter_cons_False by (rewrite Hk; discriminate). apply IH, Hnew.
Qed.

(** C2 fails on the code. When a line item of the fetch has no
    description, the run stages and sends no update at all: every row of
    the mirror table, whether or not its key is in the fetch, is left as
    it was, its [Active] field included. *)
Theorem undescribed_line_item_stops_deactivation (w : world) (b : bill)
    (item : billLineItem) (i : nat) (r : record) :
  b ∈ bills w -> item ∈ billLineItems b -> item_description item = None ->
  rows w table !! i = Some r ->
  updatesSent table (calls answer main w) = []
  /\ rows (final answer main w) table !! i = Some r.
Proof.
  intros Hb Hitem Hnone Hi.
  pose proof (undescribed_item w b item Hb Hitem Hnone) as Hdesc.
  split; [apply writes_main_undescribed, Hdesc|].
  rewrite final_main_undescribed by exact Hdesc. exact Hi.
Qed.



End ReconciliationClaims.

(** ** Promises that take turns *)

Lemma answer_as_same {X} (c : call X) : answer_as c c = Some (fun x => x).
Proof. destruct c; try reflexivity. destruct e; reflexivity. Qed.

Lemma run_primed {W X A} (h : env W) (c : call X) (r : exn + X) (p : prog A)
    (w : W) :
  run (primed h c r) p (false, w)
  = ((run h p w).1.1, (false, (run h p w).1.2), (run h p w).2).
Proof.
  revert w. induction p as [a|e|Y c' k IH]; intros w; try reflexivity.
  cbn [run]. unfold primed at 1. cbn [fst snd].
  destruct (h Y c' w) as [r' w1]. cbn [fst snd]. rewrite IH.
  destruct (run h (k r') w1) as [[o w2] t]. reflexivity.
Qed.

Lemma only_Await_inv (P : issued -> Prop) {A X} (c : call X)
    (k : exn + X -> prog A) :
  only P (Await c k) -> P (Issued c) /\ forall r, only P (k r).
Proof.
  intros H. split.
  - specialize (H unit World.offline tt). unfold calls in H. cbn [run] in H.
    unfold World.offline at 1 in H.
    destruct (run World.offline (k _) tt) as [[o w2] t].
    apply Forall_cons in H as [H _]. exact H.
  - intros r W h w. specialize (H _ (primed h c r) (true, w)).
    unfold calls in *. cbn [run] in H. unfold primed at 1 in H.
    cbn [fst snd] in H. rewrite answer_as_same in H.
    assert (Hr : match r with
                 | inl e => inl e
                 | inr x => inr x
                 end = r) by (destruct r; reflexivity).
    destruct r as [e|x]; rewrite run_primed in H;
      destruct (run h (k _) w) as [[o w2] t]; cbn [fst snd] in H;
      apply Forall_cons in H as [_ H]; exact H.
Qed.

Lemma only_within (P : issued -> Prop) {A} (p : prog A) :
  only P p <-> within P (fun _ => True) p.
Proof.
  split.
  - induction p as [a|e|X c k IH]; intros H; simpl; auto.
    apply only_Await_inv in H as [Hc Hk]. split; [exact Hc|].
    intros r. apply IH, Hk.
  - intros H W h. induction p as [a|e|X c k IH]; intros w; unfold calls;
      cbn [run]; try constructor.
    destruct H as [Hc Hk]. destruct (h X c w) as [r w1].
    specialize (IH r (Hk r) w1). unfold calls in IH.
    destruct (run h (k r) w1) as [[o w2] t]. constructor; assumption.
Qed.

Section Within.
Variable P : issued -> Prop.

#[local] Abbreviation any := (fun _ => True).

Lemma within_weaken {A} (Q Q' : A -> Prop) (p : prog A) :
  (forall a, Q a -> Q' a) -> within P Q p -> within P Q' p.
Proof.
  intros HQ. induction p as [a|e|X c k IH]; simpl; auto.
  intros [Hc Hk]. split; auto.
Qed.

Lemma within_bind {A B} (Q : A -> Prop) (Q' : B -> Prop) (p : prog A)
    (f : A -> prog B) :
  within P Q p -> (forall a, Q a -> within P Q' (f a)) ->
  within P Q' (bind p f).
Proof.
  intros Hp Hf. induction p as [a|e|X c k IH]; simpl in *; auto.
  destruct Hp as [Hc Hk]. split; auto.
Qed.

Lemma within_catch {A} (Q : A -> Prop) (p : prog A)
    (handler : exn -> prog A) :
  within P Q p -> (forall e, within P Q (handler e)) ->
  within P Q (catch p handler).
Proof.
  intros Hp Hh. induction p as [a|e|X c k IH]; simpl in *; auto.
  destruct Hp as [Hc Hk]. split; auto.
Qed.

Lemma within_started {A} (p : prog A) :
  within P any p -> within P (promised P) (started p).
Proof. destruct p as [a|e|X c k]; simpl; auto. Qed.

Lemma within_awaited {A B} (p : prog B) (k : B -> prog A) :
  within P any (let! b := p in k b) ->
  within P (fun pr => promised P (awaited pr k)) (started p).
Proof. destruct p as [b|e|X c k0]; simpl; auto. Qed.

Lemma within_js_map {X S A} (func : callback X S A) (xs : list X) (s : S) :
  callback_only P func ->
  within P (fun r => Forall (promised P) r.1) (js_map func xs s).
Proof.
  intros Hfunc. revert s. induction xs as [|x xs IH]; intros s.
  - simpl. constructor.
  - cbn [js_map]. destruct func as [f|f|B g k].
    + destruct (f x s) as [e|[a s1]]; [exact I|].
      eapply within_bind; [apply IH|]. intros [ps s2] Hps. simpl.
      constructor; [exact I|exact Hps].
    + eapply within_bind; [apply within_started, only_within, Hfunc|].
      intros pr Hpr. eapply within_bind; [apply IH|].
      intros [ps s1] Hps. simpl. constructor; assumption.
    + eapply within_bind;
        [apply (within_awaited (g x) (k x)), only_within, Hfunc|].
      intros pr Hpr. eapply within_bind; [apply IH|].
      intros [ps s1] Hps. simpl. constructor; assumption.
Qed.

Lemma within_turn {A} (ps : list (prog A)) :
  Forall (within P any) ps -> within P (Forall (within P any)) (turn ps).
Proof.
  induction 1 as [|p ps Hp Hps IH]; [constructor|].
  destruct p as [a|e|X c k]; cbn [turn].
  - eapply within_bind; [exact IH|]. intros qs Hqs. simpl.
    constructor; [exact I|exact Hqs].
  - exact I.
  - destruct Hp as [Hc Hk]. split; [exact Hc|]. intros r.
    eapply within_bind; [exact IH|]. intros qs Hqs. simpl.
    constructor; [apply Hk|exact Hqs].
Qed.

Lemma rounds_Await {A X} (n : nat) (done : list A) (c : call X)
    (k : exn + X -> prog A) (rest : list (prog A)) :
  rounds n done (Await c k) rest
  = Await c (fun r => let! rest' := turn rest in rounds n done (k r) rest').
Proof. destruct n; reflexivity. Qed.

Lemma rounds_Throw {A} (n : nat) (done : list A) (e : exn)
    (rest : list (prog A)) :
  rounds n done (Throw e) rest = Throw e.
Proof. destruct n; reflexivity. Qed.

Lemma rounds_last {A} (n : nat) (done : list A) (a : A) :
  rounds n done (Ret a) [] = Ret (done ++ [a]).
Proof. destruct n; reflexivity. Qed.

Lemma rounds_next {A} (n : nat) (done : list A) (a : A) (q : prog A)
    (rest : list (prog A)) :
  rounds (S n) done (Ret a) (q :: rest) = rounds n (done ++ [a]) q rest.
Proof. reflexivity. Qed.

Lemma within_rounds {A} (n : nat) (done : list A) (p : prog A)
    (rest : list (prog A)) :
  within P any p -> Forall (within P any) rest ->
  within P any (rounds n done p rest).
Proof.
  revert done p rest. induction n as [|n IHn]; intros done p.
  - induction p as [a|e|X c k IH]; intros rest Hp Hrest.
    + destruct rest; exact I.
    + exact I.
    + rewrite rounds_Await. destruct Hp as [Hc Hk]. split; [exact Hc|].
      intros r. eapply within_bind; [apply within_turn, Hrest|].
      intros rest' Hrest'. apply IH; [apply Hk|exact Hrest'].
  - induction p as [a|e|X c k IH]; intros rest Hp Hrest.
    + destruct rest as [|q rest]; [exact I|]. rewrite rounds_next.
      apply Forall_cons in Hrest as [Hq Hrest]. apply IHn; assumption.
    + exact I.
    + rewrite rounds_Await. destruct Hp as [Hc Hk]. split; [exact Hc|].
      intros r. eapply within_bind; [apply within_turn, Hrest|].
      intros rest' Hrest'. apply IH; [apply Hk|exact Hrest'].
Qed.

Lemma within_promise_all {A} (ps : list (promise A)) :
  Forall (promised P) ps -> within P any (promise_all ps).
Proof.
  intros Hps. unfold promise_all.
  destruct (rejection ps); [exact I|].
  assert (Hall : Forall (within P any) (map resumed ps)).
  { induction Hps as [|pr ps Hpr _ IH]; [constructor|].
    cbn [map]. constructor; [|exact IH]. destruct pr; simpl; auto. }
  destruct (map resumed ps) as [|p rest]; [exact I|].
  apply Forall_cons in Hall as [Hp Hrest]. apply within_rounds; assumption.
Qed.

Lemma within_all_mapped {X S A} (func : callback X S A) (xs : list X)
    (s : S) :
  callback_only P func -> within P any (all_mapped func xs s).
Proof.
  intros Hfunc. unfold all_mapped.
  eapply within_bind; [apply within_js_map, Hfunc|].
  intros [ps s'] Hps. eapply within_bind; [apply within_promise_all, Hps|].
  intros results _. exact I.
Qed.

Lemma only_all_mapped {X S A} (func : callback X S A) (xs : list X) (s : S) :
  callback_only P func -> only P (all_mapped func xs s).
Proof. intros Hfunc. apply only_within, within_all_mapped, Hfunc. Qed.

End Within.

Section Steady.
Context {W : Type} (h : env W).

Lemma steady_run {A} (p : prog A) (t : list issued) (o : exn + A) (w : W) :
  steady h p t o -> result h p w = o /\ calls h p w = t.
Proof.
  revert t w. induction p as [a|e|X c k IH]; intros t w; simpl.
  - intros [-> ->]. split; reflexivity.
  - intros [-> ->]. split; reflexivity.
  - intros (r & t' & -> & Hr & Hk). unfold result, calls. cbn [run].
    specialize (Hr w). destruct (h X c w) as [r' w1]. simpl in Hr. subst r'.
    destruct (IH r t' w1 Hk) as [Ho Ht]. unfold result, calls in Ho, Ht.
    destruct (run h (k r) w1) as [[o' w2] t'']. simpl in *. subst.
    split; reflexivity.
Qed.

Lemma steady_bind {A B} (p : prog A) (f : A -> prog B) (t t' : list issued)
    (a : A) (o : exn + B) :
  steady h p t (inr a) -> steady h (f a) t' o ->
  steady h (bind p f) (t ++ t') o.
Proof.
  revert t. induction p as [a'|e|X c k IH]; intros t; simpl.
  - intros [-> [= ->]] Hf. exact Hf.
  - intros [_ [=]].
  - intros (r & t0 & -> & Hr & Hk) Hf. exists r, (t0 ++ t').
    split; [reflexivity|]. split; [exact Hr|]. apply IH; assumption.
Qed.

Lemma steady_catch {A} (p : prog A) (handler : exn -> prog A)
    (t : list issued) (a : A) :
  steady h p t (inr a) -> steady h (catch p handler) t (inr a).
Proof.
  revert t. induction p as [a'|e|X c k IH]; intros t; simpl.
  - auto.
  - intros [_ [=]].
  - intros (r & t0 & -> & Hr & Hk). exists r, t0. auto.
Qed.

#[local] Abbreviation runs :=
  (fun A (p : prog A) (q : list issued) (v : A) => steady h p q (inr v)).

Lemma steady_awaited {A B} (p : prog B) (k : B -> prog A)
    (q : list issued) (v : A) :
  steady h (let! b := p in k b) q (inr v) ->
  exists t1 pr q',
    steady h (started p) t1 (inr pr) /\ fulfils h (awaited pr k) q' v
    /\ q = t1 ++ q'.
Proof.
  destruct p as [b|e|X c k0]; simpl.
  - intros Hk. exists [], (Fulfilled b), q. simpl. auto.
  - intros [_ [=]].
  - intros (r & t' & -> & Hr & Hk).
    exists [Issued c], (Pending (k0 r)), t'. simpl. split; [|auto].
    exists r, []. auto.
Qed.

Lemma steady_js_map_awaiting {X A B} (g : X -> prog B) (k : X -> B -> prog A)
    (xs : list X) (paths : X -> list issued) (vals : X -> A) :
  (forall x, x ∈ xs ->
             steady h (let! b := g x in k x b) (paths x) (inr (vals x))) ->
  exists t1 ps qs,
    steady h (js_map (Awaiting g k) xs tt) t1 (inr (ps, tt))
    /\ Forall3 (fulfils h) ps qs (map vals xs)
    /\ t1 ++ concat qs ≡ₚ concat (map paths xs).
Proof.
  induction xs as [|x xs IH]; intros Hxs.
  - exists [], [], []. simpl. split; [auto|]. split; [constructor|reflexivity].
  - destruct IH as (t1 & ps & qs & Hrun & Hall & Hperm).
    { intros y Hy. apply Hxs. right. exact Hy. }
    destruct (steady_awaited (g x) (k x) (paths x) (vals x)) as
      (t0 & pr & q' & Hstart & Hpr & Hq); [apply Hxs; left|].
    exists (t0 ++ t1), (awaited pr (k x) :: ps), (q' :: qs).
    split; [|split].
    + cbn [js_map]. eapply steady_bind; [exact Hstart|].
      rewrite <- (app_nil_r t1).
      eapply steady_bind; [exact Hrun|]. simpl. auto.
    + cbn [map]. constructor; assumption.
    + cbn [map concat]. rewrite Hq, <- Hperm.
      rewrite <- !app_assoc. apply Permutation_app_head.
      rewrite !app_assoc. apply Permutation_app_tail, Permutation_app_comm.
Qed.

Lemma fulfils_rejection {A} (ps : list (promise A)) qs vs :
  Forall3 (fulfils h) ps qs vs -> rejection ps = None.
Proof.
  induction 1 as [|pr q v ps qs vs Hpr _ IH]; [reflexivity|].
  destruct pr; simpl in *; [exact IH|destruct Hpr|exact IH].
Qed.

Lemma fulfils_resumed {A} (ps : list (promise A)) qs vs :
  Forall3 (fulfils h) ps qs vs -> Forall3 (runs A) (map resumed ps) qs vs.
Proof.
  induction 1 as [|pr q v ps qs vs Hpr _ IH]; [constructor|].
  cbn [map]. constructor; [|exact IH].
  destruct pr; simpl in *; [|destruct Hpr|exact Hpr].
  destruct Hpr as [-> ->]. auto.
Qed.

Lemma steady_turn {A} (rest : list (prog A)) qs vs :
  Forall3 (runs A) rest qs vs ->
  exists heads rest' qs',
    steady h (turn rest) heads (inr rest')
    /\ Forall3 (runs A) rest' qs' vs
    /\ heads ++ concat qs' ≡ₚ concat qs.
Proof.
  induction 1 as [|p q v rest qs vs Hp _ IH].
  - exists [], [], []. simpl. split; [auto|]. split; [constructor|reflexivity].
  - destruct IH as (heads & rest' & qs' & Hturn & Hall & Hperm).
    destruct p as [a|e|X c k]; simpl in Hp.
    + destruct Hp as [-> [= ->]].
      exists heads, (Ret a :: rest'), ([] :: qs'). split; [|split].
      * cbn [turn]. rewrite <- (app_nil_r heads).
        eapply steady_bind; [exact Hturn|]. simpl. auto.
      * constructor; [simpl; auto|exact Hall].
      * simpl. exact Hperm.
    + destruct Hp as [_ [=]].
    + destruct Hp as (r & t' & -> & Hr & Hk).
      exists (Issued c :: heads), (k r :: rest'), (t' :: qs').
      split; [|split].
      * cbn [turn]. exists r, heads. split; [reflexivity|].
        split; [exact Hr|]. rewrite <- (app_nil_r heads).
        eapply steady_bind; [exact Hturn|]. simpl. auto.
      * constructor; assumption.
      * cbn [concat app]. constructor. rewrite <- Hperm.
        rewrite !app_assoc. apply Permutation_app_tail, Permutation_app_comm.
Qed.

Lemma steady_rounds {A} (n : nat) :
  forall (done : list A) (p : prog A) (rest : list (prog A))
         (q : list issued) (v : A) qs vs,
    length rest = n -> steady h p q (inr v) -> Forall3 (runs A) rest qs vs ->
    exists t,
      steady h (rounds n done p rest) t (inr (done ++ v :: vs))
      /\ t ≡ₚ q ++ concat qs.
Proof.
  induction n as [|n IHn]; intros done p;
    induction p as [a|e|X c k IH]; intros rest q v qs vs Hlen Hp Hrest.
  - destruct rest; [|discriminate]. inversion Hrest; subst.
    simpl in Hp. destruct Hp as [-> [= ->]]. exists []. simpl. auto.
  - simpl in Hp. destruct Hp as [_ [=]].
  - simpl in Hp. destruct Hp as (r & t' & -> & Hr & Hk).
    destruct (steady_turn rest qs vs Hrest)
      as (heads & rest' & qs' & Hturn & Hall & Hperm).
    destruct (IH r rest' t' v qs' vs) as (t & Ht & Htperm);
      [rewrite (Forall3_length_lr _ _ _ _ Hall),
         <- (Forall3_length_lr _ _ _ _ Hrest); exact Hlen
      |exact Hk|exact Hall|].
    exists (Issued c :: heads ++ t). split.
    + rewrite rounds_Await. exists r, (heads ++ t). split; [reflexivity|].
      split; [exact Hr|]. eapply steady_bind; [exact Hturn|exact Ht].
    + cbn [app]. constructor. rewrite Htperm, <- Hperm.
      rewrite !app_assoc. apply Permutation_app_tail, Permutation_app_comm.
  - destruct rest as [|p' rest]; [discriminate|].
    inversion Hrest as [|? q' v' ? qs' vs' Hp' Hrest']; subst.
    simpl in Hp. destruct Hp as [-> [= ->]]. rewrite rounds_next.
    destruct (IHn (done ++ [a]) p' rest q' v' qs' vs') as (t & Ht & Hperm);
      [simpl in Hlen; lia|exact Hp'|exact Hrest'|].
    exists t. rewrite <- app_assoc in Ht. split; [exact Ht|exact Hperm].
  - simpl in Hp. destruct Hp as [_ [=]].
  - simpl in Hp. destruct Hp as (r & t' & -> & Hr & Hk).
    destruct (steady_turn rest qs vs Hrest)
      as (heads & rest' & qs' & Hturn & Hall & Hperm).
    destruct (IH r rest' t' v qs' vs) as (t & Ht & Htperm);
      [rewrite (Forall3_length_lr _ _ _ _ Hall),
         <- (Forall3_length_lr _ _ _ _ Hrest); exact Hlen
      |exact Hk|exact Hall|].
    exists (Issued c :: heads ++ t). split.
    + rewrite rounds_Await. exists r, (heads ++ t). split; [reflexivity|].
      split; [exact Hr|]. eapply steady_bind; [exact Hturn|exact Ht].
    + cbn [app]. constructor. rewrite Htperm, <- Hperm.
      rewrite !app_assoc. apply Permutation_app_tail, Permutation_app_comm.
Qed.

Lemma steady_promise_all {A} (ps : list (promise A)) qs vs :
  Forall3 (fulfils h) ps qs vs ->
  exists t, steady h (promise_all ps) t (inr vs) /\ t ≡ₚ concat qs.
Proof.
  intros Hall. unfold promise_all.
  rewrite (fulfils_rejection ps qs vs Hall).
  apply fulfils_resumed in Hall.
  destruct Hall as [|p q v rest qs vs Hp Hrest].
  - exists []. simpl. auto.
  - destruct (steady_rounds (length rest) [] p rest q v qs vs eq_refl Hp Hrest)
      as (t & Ht & Hperm).
    exists t. split; [exact Ht|exact Hperm].
Qed.

Lemma steady_all_mapped_awaiting {X A B} (g : X -> prog B)
    (k : X -> B -> prog A) (xs : list X) (paths : X -> list issued)
    (vals : X -> A) :
  (forall x, x ∈ xs ->
             steady h (let! b := g x in k x b) (paths x) (inr (vals x))) ->
  exists t,
    steady h (all_mapped (Awaiting g k) xs tt) t (inr (map vals xs, tt))
    /\ t ≡ₚ concat (map paths xs).
Proof.
  intros Hxs.
  destruct (steady_js_map_awaiting g k xs paths vals Hxs)
    as (t1 & ps & qs & Hmap & Hall & Hperm).
  destruct (steady_promise_all ps qs _ Hall) as (t2 & Hrun & Hperm2).
  exists (t1 ++ t2). split.
  - unfold all_mapped. eapply steady_bind; [exact Hmap|]. cbn iota beta.
    rewrite <- (app_nil_r t2). eapply steady_bind; [exact Hrun|].
    simpl. auto.
  - rewrite Hperm2. exact Hperm.
Qed.

End Steady.

(** ** The record-store client *)

Section RecordStore.
Context {W : Type} (h : env W).

Lemma run_each_batch_fails {X A} (func : list X -> prog A)
    (done : list (list X)) (b : list X) (rest : list (list X))
    (w w0 w1 : W) (rs : list A) (t t1 : list issued) (e : exn) :
  run h (Airtable.each_batch func done) w = (inr rs, w0, t) ->
  run h (func b) w0 = (inl e, w1, t1) ->
  run h (Airtable.each_batch func (done ++ b :: rest)) w
  = (inl e, w1, t ++ t1).
Proof.
  revert w rs t. induction done as [|d done IH]; intros w rs t Hdone Hb.
  - simpl in Hdone. injection Hdone as <- <- <-.
    cbn [app Airtable.each_batch]. rewrite run_bind, Hb. reflexivity.
  - cbn [app Airtable.each_batch] in Hdone |- *.
    rewrite run_bind in Hdone |- *.
    destruct (run h (func d) w) as [[[e'|a] w'] t'] eqn:Hd;
      [discriminate|].
    rewrite run_bind in Hdone |- *.
    destruct (run h (Airtable.each_batch func done) w')
      as [[[e'|rs'] w''] t''] eqn:Hrest; [discriminate|].
    simpl in Hdone. injection Hdone as <- <- <-.
    rewrite (IH w' rs' t'' Hrest Hb). rewrite app_nil_r, app_assoc.
    reflexivity.
Qed.

(** C8. Whenever the call underlying a record-store operation fails,
    [select], [update], [create] and [find] reject with one error whose
    message names the operation and the table. *)
Theorem store_failure_is_wrapped (table : string) (e : exn) (w w1 : W) :
  (forall (view : string) (S A : Type) (func : callback record S A)
          (s : S),
      h _ (SelectAll table view) w = (inl e, w1) ->
      run h (Airtable.select table view func s) w
      = (inl (Error ("Error selecting records in Airtable Table " +:+ table
                       +:+ ": " +:+ exn_to_string e)),
         w1, [Issued (SelectAll table view)]))
  /\ (forall (id : value) (A : Type) (func : record -> prog A),
         h _ (Find table id) w = (inl e, w1) ->
         run h (Airtable.find table id func) w
         = (inl (Error ("Error finding records in Airtable Table " +:+ table
                          +:+ ": " +:+ exn_to_string e)),
            w1, [Issued (Find table id)]))
  /\ (forall (updates : list update_spec) done b rest w0 rs t,
         Airtable.chunks 10 updates = done ++ b :: rest ->
         run h (Airtable.each_batch (fun b => await (Update table b)) done) w
         = (inr rs, w0, t) ->
         h _ (Update table b) w0 = (inl e, w1) ->
         run h (Airtable.update table updates) w
         = (inl (Error ("Error updating records in Airtable Table " +:+ table
                          +:+ ": " +:+ exn_to_string e)),
            w1, t ++ [Issued (Update table b)]))
  /\ (forall (creates : list (gmap string value)) done b rest w0 rs t,
         Airtable.chunks 10 creates = done ++ b :: rest ->
         run h (Airtable.each_batch (fun b => await (Create table b)) done) w
         = (inr rs, w0, t) ->
         h _ (Create table b) w0 = (inl e, w1) ->
         run h (Airtable.create table creates) w
         = (inl (Error ("Error creating records in Airtable Table " +:+ table
                          +:+ ": " +:+ exn_to_string e)),
            w1, t ++ [Issued (Create table b)])).
Proof.
  repeat split.
  - intros view S A func s Hcall. unfold Airtable.select.
    rewrite run_catchError, run_bind, run_await, Hcall. reflexivity.
  - intros id A func Hcall. unfold Airtable.find.
    rewrite run_catchError, run_bind, run_await, Hcall. reflexivity.
  - intros updates done b rest w0 rs t Hchunks Hdone Hcall.
    unfold Airtable.update, Airtable.batch, Airtable.batchAsync.
    rewrite run_catchError, Hchunks.
    rewrite (run_each_batch_fails _ done b rest w w0 w1 rs t
               [Issued (Update table b)] e Hdone); [reflexivity|].
    rewrite run_await, Hcall. reflexivity.
  - intros creates done b rest w0 rs t Hchunks Hdone Hcall.
    unfold Airtable.create, Airtable.batch, Airtable.batchAsync.
    rewrite run_catchError, Hchunks.
    rewrite (run_each_batch_fails _ done b rest w w0 w1 rs t
               [Issued (Create table b)] e Hdone); [reflexivity|].
    rewrite run_await, Hcall. reflexivity.
Qed.

Lemma run_update_one (table : string) (u : update_spec) (w : W) :
  run h (Airtable.update table [u]) w
  = (match (h _ (Update table [u]) w).1 with
     | inl e => inl (Airtable.wrapped "updating" table e)
     | inr _ => inr [tt]
     end, (h _ (Update table [u]) w).2, [Issued (Update table [u])]).
Proof.
  unfold Airtable.update, Airtable.batch, Airtable.batchAsync.
  rewrite run_catchError.
  change (Airtable.chunks 10 [u]) with [[u]]. cbn [Airtable.each_batch].
  rewrite run_bind, run_await.
  destruct (h _ (Update table [u]) w) as [[e|[]] w1]; reflexivity.
Qed.

Lemma steady_update_one (table : string) (u : update_spec) :
  (forall w, (h _ (Update table [u]) w).1 = inr tt) ->
  steady h (Airtable.update table [u]) [Issued (Update table [u])]
         (inr [tt]).
Proof.
  intros Hok. unfold Airtable.update, Airtable.batch, Airtable.batchAsync.
  change (Airtable.chunks 10 [u]) with [[u]].
  exists (inr tt), []. split; [reflexivity|]. split; [exact Hok|].
  simpl. auto.
Qed.

Lemma steady_updateWith (table : string)
    (fieldsFunc : record -> prog (option (gmap string value)))
    (r : record) (reads : list issued) (fields : option (gmap string value)) :
  steady h (fieldsFunc r) reads (inr fields) ->
  (forall us w, (h _ (Update table us) w).1 = inr tt) ->
  steady h (Airtable.updateWith table fieldsFunc r)
    (reads ++ match fields with
              | Some fs =>
                  [Issued (Update table [UpdateSpec (VStr (getId r)) fs])]
              | None => []
              end)
    (inr ((fun _ => [tt]) <$> fields)).
Proof.
  intros Hreads Hok. unfold Airtable.updateWith.
  eapply steady_bind; [exact Hreads|]. unfold Airtable.updateFields.
  destruct fields as [fs|]; [|simpl; auto]. cbn iota beta.
  apply (steady_bind h _ _ [_] [] [tt]);
    [apply steady_update_one, Hok|simpl; auto].
Qed.

(** C9. [selectAndUpdate] starts, for every row of the selected view, a
    promise that applies the fields function to the row, waits for its
    promise and then issues one update of that row, writing back the
    result, exactly when the result is not null; a null result, or a
    fields function that rejects, is followed by no call. When the answers to the calls of the fields
    function do not depend on the state of the services and the updates
    are accepted, [selectAndUpdate] resolves, with an update result for
    exactly the rows with fields, and its calls are, in the order in
    which the promises take their turns, the select, the calls of the
    fields function for every row and one update of each row with
    fields. *)
Theorem selectAndUpdate_updates_non_null (table view : string)
    (fieldsFunc : record -> prog (option (gmap string value))) :
  Airtable.selectAndUpdate table view fieldsFunc
  = Airtable.select table view
      (Awaiting fieldsFunc (Airtable.updateFields table)) tt
  /\ (forall (r : record) (w : W),
         run h (Airtable.updateWith table fieldsFunc r) w
         = let '(o, w1, t) := run h (fieldsFunc r) w in
           match o with
           | inr (Some fs) =>
               let u := Update table [UpdateSpec (VStr (getId r)) fs] in
               (match (h _ u w1).1 with
                | inl e => inl (Airtable.wrapped "updating" table e)
                | inr _ => inr (Some [tt])
                end, (h _ u w1).2, t ++ [Issued u])
           | inr None => (inr None, w1, t)
           | inl e => (inl e, w1, t)
           end)
  /\ (forall (records : list record) (w w0 : W)
             (fields : record -> option (gmap string value))
             (reads : record -> list issued),
         h _ (SelectAll table view) w = (inr records, w0) ->
         (forall r, r ∈ records ->
                    steady h (fieldsFunc r) (reads r) (inr (fields r))) ->
         (forall us w', (h _ (Update table us) w').1 = inr tt) ->
         result h (Airtable.selectAndUpdate table view fieldsFunc) w
         = inr (map (fun r => (fun _ => [tt]) <$> fields r) records, tt)
         /\ calls h (Airtable.selectAndUpdate table view fieldsFunc) w
            ≡ₚ Issued (SelectAll table view)
               :: concat
                    (map (fun r =>
                            reads r
                            ++ match fields r with
                               | Some fs =>
                                   [Issued
                                      (Update table
                                         [UpdateSpec (VStr (getId r)) fs])]
                               | None => []
                               end)
                         records)).
Proof.
  split; [reflexivity|]. split.
  - intros r w. unfold Airtable.updateWith, Airtable.updateFields.
    rewrite run_bind.
    destruct (run h (fieldsFunc r) w) as [[[e|[fs|]] w1] t];
      [reflexivity| |simpl; rewrite app_nil_r; reflexivity].
    rewrite run_bind, run_update_one.
    destruct (h _ (Update table [UpdateSpec (VStr (getId r)) fs]) w1)
      as [[e|[]] w2]; simpl; rewrite ?app_nil_r; reflexivity.
  - intros records w w0 fields reads Hselect Hreads Hok.
    destruct (steady_all_mapped_awaiting h fieldsFunc
                (Airtable.updateFields table) records _ _
                (fun r Hr => steady_updateWith table fieldsFunc r (reads r)
                               (fields r) (Hreads r Hr) Hok))
      as (t & Hsteady & Hperm).
    destruct (steady_run h _ _ _ w0 Hsteady) as [Hres Hcalls].
    unfold result, calls in *.
    unfold Airtable.selectAndUpdate, Airtable.select.
    rewrite run_catchError, run_bind, run_await, Hselect. cbn [fst snd].
    destruct (run h (all_mapped _ records tt) w0) as [[o w1] t'].
    cbn [fst snd] in Hres, Hcalls. subst o t'. cbn [fst snd app].
    split; [reflexivity|]. constructor. exact Hperm.
Qed.

Lemma run_js_map_awaiting {X A B} (g : X -> prog B) (k : X -> B -> prog A)
    (first : X -> issued) (xs : list X) (w : W) :
  (forall x, x ∈ xs ->
     exists Y (c : call Y) k0, g x = Await c k0 /\ first x = Issued c) ->
  exists ps w1,
    run h (js_map (Awaiting g k) xs tt) w = (inr (ps, tt), w1, map first xs).
Proof.
  revert w. induction xs as [|x xs IH]; intros w Hxs.
  - exists [], w. reflexivity.
  - destruct (Hxs x) as (Y & c & k0 & Hg & Hfirst); [left|].
    cbn [js_map]. rewrite Hg. cbn [started bind run].
    destruct (h Y c w) as [r w'].
    destruct (IH w') as (ps & w1 & Hrun).
    { intros y Hy. apply Hxs. right. exact Hy. }
    rewrite run_bind, Hrun. cbn [run map]. rewrite Hfirst, app_nil_r.
    eexists _, _. reflexivity.
Qed.

(** X25. [selectAndUpdate] calls the fields function on every row of the
    view before it resumes any of them: when the fields function starts
    with a call on every row, these calls are issued right after the
    select, in the order of the rows, before any update and before any
    later call of the fields function. *)
Theorem selectAndUpdate_starts_every_row (table view : string)
    (fieldsFunc : record -> prog (option (gmap string value)))
    (first : record -> issued) (records : list record) (w w0 : W) :
  h _ (SelectAll table view) w = (inr records, w0) ->
  (forall r, r ∈ records ->
     exists X (c : call X) k,
       fieldsFunc r = Await c k /\ first r = Issued c) ->
  exists t,
    calls h (Airtable.selectAndUpdate table view fieldsFunc) w
    = Issued (SelectAll table view) :: map first records ++ t.
Proof.
  intros Hselect Hfirst.
  destruct (run_js_map_awaiting fieldsFunc (Airtable.updateFields table)
              first records w0 Hfirst) as (ps & w1 & Hmap).
  unfold calls, Airtable.selectAndUpdate, Airtable.select.
  rewrite run_catchError, run_bind, run_await, Hselect. cbn [fst snd].
  unfold all_mapped. rewrite run_bind, Hmap. cbn iota beta.
  rewrite run_bind.
  destruct (run h (promise_all ps) w1) as [[[e|a] w2] t];
    cbn [fst snd app run]; rewrite ?app_nil_r; exists t; reflexivity.
Qed.

End RecordStore.

(** ** Programs that leave a table alone *)

Section Quiet.
Variable table : string.

Lemma updatesSent_cat (l1 l2 : list issued) :
  updatesSent table (l1 ++ l2) = updatesSent table l1 ++ updatesSent table l2.
Proof. unfold updatesSent. rewrite map_app, concat_app. reflexivity. Qed.

Lemma quiet_Ret {A} (a : A) : quiet table (Ret a).
Proof. intros W h w. reflexivity. Qed.

Lemma quiet_Throw {A} (e : exn) : quiet table (@Throw A e).
Proof. intros W h w. reflexivity. Qed.

Lemma quiet_bind {A B} (p : prog A) (f : A -> prog B) :
  quiet table p -> (forall a, quiet table (f a)) -> quiet table (bind p f).
Proof.
  intros Hp Hf W h w. specialize (Hp W h w). unfold calls in *.
  rewrite run_bind. destruct (run h p w) as [[[e|a] w1] t1]; [exact Hp|].
  specialize (Hf a W h w1). unfold calls in Hf.
  destruct (run h (f a) w1) as [[o2 w2] t2]. simpl in *.
  rewrite updatesSent_cat, Hp, Hf. reflexivity.
Qed.

Lemma quiet_await {X} (c : call X) :
  updatesSent table [Issued c] = [] -> quiet table (await c).
Proof. intros Hc W h w. unfold calls. rewrite run_await. exact Hc. Qed.

Lemma quiet_catch {A} (p : prog A) (handler : exn -> prog A) :
  quiet table p -> (forall e, quiet table (handler e)) ->
  quiet table (catch p handler).
Proof.
  intros Hp Hh W h w. specialize (Hp W h w). unfold calls in *.
  rewrite run_catch. destruct (run h p w) as [[[e|a] w1] t1]; [|exact Hp].
  specialize (Hh e W h w1). unfold calls in Hh.
  destruct (run h (handler e) w1) as [[o2 w2] t2]. simpl in *.
  rewrite updatesSent_cat, Hp, Hh. reflexivity.
Qed.

Lemma quiet_for_of {X S} (xs : list X) (body : X -> S -> prog S) (s : S) :
  (forall x s, quiet table (body x s)) -> quiet table (for_of xs body s).
Proof.
  intros Hbody. revert s. induction xs as [|x xs IH]; intros s.
  - apply quiet_Ret.
  - cbn [for_of]. apply quiet_bind; [apply Hbody|exact IH].
Qed.

Lemma updatesSent_nil (l : list issued) :
  updatesSent table l = []
  <-> Forall (fun c => updatesSent table [c] = []) l.
Proof.
  induction l as [|c l IH]; [split; [constructor|reflexivity]|].
  change (c :: l) with ([c] ++ l). rewrite updatesSent_cat. cbn [app].
  rewrite Forall_cons, <- IH. split.
  - intros H. apply app_eq_nil in H. exact H.
  - intros [-> ->]. reflexivity.
Qed.

Lemma quiet_only {A} (p : prog A) :
  quiet table p <-> only (fun c => updatesSent table [c] = []) p.
Proof.
  split; intros H W h w; apply updatesSent_nil, H.
Qed.

Lemma quiet_all_mapped {X A} (f : X -> prog A) (xs : list X) :
  (forall x, quiet table (f x)) ->
  quiet table (all_mapped (AsyncFunction f) xs tt).
Proof.
  intros Hf. apply quiet_only, only_all_mapped. intros x.
  apply quiet_only, Hf.
Qed.

Lemma quiet_catchError {A} (p : prog A) (querying t : string) :
  quiet table p -> quiet table (Airtable.catchError p querying t).
Proof.
  intros Hp. apply quiet_catch; [exact Hp|]. intros e. apply quiet_Throw.
Qed.

Lemma quiet_find {A} (t : string) (id : value) (func : record -> prog A) :
  (forall r, quiet table (func r)) -> quiet table (Airtable.find t id func).
Proof.
  intros Hfunc. apply quiet_catchError, quiet_bind; [|exact Hfunc].
  apply quiet_await. reflexivity.
Qed.

Lemma quiet_update (t : string) (us : list update_spec) :
  t <> table -> quiet table (Airtable.update t us).
Proof.
  intros Hne. apply quiet_catchError.
  unfold Airtable.batch, Airtable.batchAsync.
  induction (Airtable.chunks 10 us) as [|b bs IH]; [apply quiet_Ret|].
  cbn [Airtable.each_batch]. apply quiet_bind.
  - apply quiet_await. unfold updatesSent. simpl.
    rewrite decide_False by assumption. reflexivity.
  - intros r. apply quiet_bind; [exact IH|]. intros rs. apply quiet_Ret.
Qed.

End Quiet.

(** ** Bill creation *)

Section BillCreation.
Variable PRIMARY_ORG_BILL_COM_ID : string.
Variable finalApproverUserId : value.

#[local] Abbreviation T := (CreateBill.CHECK_REQUESTS_TABLE).
#[local] Abbreviation createBill :=
  (CreateBill.createBill PRIMARY_ORG_BILL_COM_ID finalApproverUserId).
#[local] Abbreviation checkRequestFields :=
  (CreateBill.checkRequestFields PRIMARY_ORG_BILL_COM_ID finalApproverUserId).

Lemma quiet_at0 (v : value) : quiet T (CreateBill.at0 v).
Proof.
  destruct v as [| | | |[|c s]| |]; first [apply quiet_Ret|apply quiet_Throw].
Qed.

Lemma quiet_iterate (v : value) : quiet T (CreateBill.iterate v).
Proof. destruct v; first [apply quiet_Ret|apply quiet_Throw]. Qed.

Lemma quiet_as_array (v : value) : quiet T (CreateBill.as_array v).
Proof. destruct v; first [apply quiet_Ret|apply quiet_Throw]. Qed.

Lemma quiet_substring (v : value) (a b : nat) :
  quiet T (CreateBill.substring v a b).
Proof. destruct v; first [apply quiet_Ret|apply quiet_Throw]. Qed.

Lemma quiet_toString (v : value) : quiet T (CreateBill.toString v).
Proof. destruct v; first [apply quiet_Ret|apply quiet_Throw]. Qed.

Lemma quiet_property (read : attachment -> value) (v : value) :
  quiet T (CreateBill.property read v).
Proof. destruct v; first [apply quiet_Ret|apply quiet_Throw]. Qed.

Lemma quiet_getBillComId (t : string) (v : value) :
  quiet T (CreateBill.getBillComId PRIMARY_ORG_BILL_COM_ID t v).
Proof. apply quiet_find. intros r. apply quiet_Ret. Qed.

Lemma quiet_resolveVendor (req : record) :
  quiet T (CreateBill.resolveVendor PRIMARY_ORG_BILL_COM_ID req).
Proof.
  unfold CreateBill.resolveVendor.
  destruct (truthy (get req "New Vendor?")).
  - apply quiet_bind; [apply quiet_at0|]. intros newVendorId.
    apply quiet_bind.
    + apply quiet_find. intros newVendor.
      apply quiet_bind; [apply quiet_toString|]. intros zipCode.
      apply quiet_await. reflexivity.
    + intros vendorId. apply quiet_bind; [|intros; apply quiet_Ret].
      apply quiet_update. discriminate.
  - apply quiet_bind; [apply quiet_at0|]. intros vendor.
    apply quiet_getBillComId.
Qed.

Lemma quiet_lineItem (item : record) :
  quiet T (CreateBill.lineItem PRIMARY_ORG_BILL_COM_ID item).
Proof.
  unfold CreateBill.lineItem. apply quiet_bind.
  - destruct (is_nullish (get item "Category")); [apply quiet_Ret|].
    apply quiet_bind; [apply quiet_at0|]. intros c.
    apply quiet_getBillComId.
  - intros chartOfAccountId. apply quiet_bind; [apply quiet_at0|].
    intros project. apply quiet_bind; [apply quiet_getBillComId|].
    intros customerId. apply quiet_Ret.
Qed.

Lemma quiet_lineItems (req : record) :
  quiet T (CreateBill.lineItems PRIMARY_ORG_BILL_COM_ID req).
Proof.
  unfold CreateBill.lineItems. apply quiet_bind; [apply quiet_iterate|].
  intros itemIds. apply quiet_for_of. intros itemId items.
  apply quiet_bind; [|intros; apply quiet_Ret].
  apply quiet_find, quiet_lineItem.
Qed.

Lemma quiet_invoiceIdOf (req : record) : quiet T (CreateBill.invoiceIdOf req).
Proof.
  unfold CreateBill.invoiceIdOf.
  destruct (truthy (get req "Vendor Invoice ID")); [apply quiet_Ret|].
  apply quiet_bind; [apply quiet_substring|]. intros s. apply quiet_Ret.
Qed.

Lemma quiet_setApprovers (req : record) (newBillId : value) :
  quiet T (CreateBill.setApprovers PRIMARY_ORG_BILL_COM_ID
             finalApproverUserId req newBillId).
Proof.
  unfold CreateBill.setApprovers. apply quiet_bind; [apply quiet_as_array|].
  intros ids. apply quiet_bind.
  - apply quiet_all_mapped. intros aid. apply quiet_getBillComId.
  - intros [billComIds u]. apply quiet_await. reflexivity.
Qed.

Lemma quiet_createBill (req : record) : quiet T (createBill req).
Proof.
  unfold CreateBill.createBill.
  apply quiet_bind; [apply quiet_resolveVendor|]. intros vendorId.
  apply quiet_bind; [apply quiet_lineItems|]. intros items.
  apply quiet_bind; [apply quiet_invoiceIdOf|]. intros invoiceId.
  apply quiet_bind; [apply quiet_await; reflexivity|]. intros newBillId.
  apply quiet_bind; [apply quiet_setApprovers|]. intros; apply quiet_Ret.
Qed.

Lemma quiet_uploadDocument (devKey sessionId : string) (newBillId doc : value)
    (u : unit) :
  quiet T (CreateBill.uploadDocument devKey sessionId newBillId doc u).
Proof.
  unfold CreateBill.uploadDocument.
  apply quiet_bind; [apply quiet_property|]. intros docUrl.
  apply quiet_bind; [apply quiet_await; reflexivity|]. intros response.
  apply quiet_bind.
  - destruct (ok response); [apply quiet_Ret|].
    apply quiet_bind; [apply quiet_property|]. intros f.
    apply quiet_Throw.
  - intros _. apply quiet_bind; [apply quiet_property|]. intros f.
    apply quiet_await. reflexivity.
Qed.

Lemma run_for_of_app {W X S} (h : env W) (l1 l2 : list X)
    (body : X -> S -> prog S) (s s1 : S) (w w1 : W) (t1 : list issued) :
  run h (for_of l1 body s) w = (inr s1, w1, t1) ->
  run h (for_of (l1 ++ l2) body s) w =
    let '(o, w2, t2) := run h (for_of l2 body s1) w1 in (o, w2, t1 ++ t2).
Proof.
  revert s w t1. induction l1 as [|x l1 IH]; intros s w t1 Hrun.
  - simpl in Hrun. injection Hrun as <- <- <-. simpl.
    destruct (run h (for_of l2 body s) w) as [[o w2] t2]. reflexivity.
  - cbn [app for_of] in Hrun |- *. rewrite run_bind in Hrun |- *.
    destruct (run h (body x s) w) as [[[e|s'] w'] t'] eqn:Hx; [discriminate|].
    destruct (run h (for_of l1 body s') w') as [[o'' w''] t''] eqn:Hl1.
    injection Hrun as -> <- <-. rewrite (IH _ _ _ Hl1).
    destruct (run h (for_of l2 body s1) w'') as [[o w2] t2].
    rewrite app_assoc. reflexivity.
Qed.

(** C7. When the fetch of a supporting document answers with a status
    outside 200..299, the processing of the request row ends there with
    an error that names the document's filename and the status, and no
    update of the Check Requests table (the confirmation write-back) is
    sent for the row. *)
Theorem failed_fetch_aborts_row {W} (h : env W) (req : record)
    (w w1 w1a w1b w2 w3 : W) (invoiceId newBillId : value)
    (t1 t2 : list issued) (devKey sessionId : string)
    (before after : list value) (a : attachment) (resp : response) :
  run h (createBill req) w = (inr (invoiceId, newBillId), w1, t1) ->
  h _ GetDevKey w1 = (inr devKey, w1a) ->
  h _ GetSessionId w1a = (inr sessionId, w1b) ->
  js_or (get req "Supporting Documents") (VArr [])
  = VArr (before ++ VAttachment a :: after) ->
  run h (for_of before
           (CreateBill.uploadDocument devKey sessionId newBillId) tt) w1b
  = (inr tt, w2, t2) ->
  h _ (Fetch (VStr (url a))) w2 = (inr resp, w3) ->
  ~ (200 <= status resp < 300)%Z ->
  let row := Airtable.updateWith T checkRequestFields req in
  result h row w
  = inl (Error ("Error " +:+ pretty (status resp) +:+ " (from "
                  +:+ to_string (opt_value (filename a)) +:+ "): "
                  +:+ statusText resp))
  /\ final h row w = w3
  /\ last (calls h row w) = Some (Issued (Fetch (VStr (url a))))
  /\ updatesSent T (calls h row w) = [].
Proof.
  intros Hbill Hkey Hsession Hdocs Hbefore Hfetch Hstatus row.
  assert (Hok : ok resp = false).
  { unfold ok. apply andb_false_iff.
    destruct (Z.leb_spec 200 (status resp)); [|left; reflexivity].
    right. apply Z.ltb_ge. lia. }
  assert (Hrun : run h (checkRequestFields req) w
                 = (inl (Error ("Error " +:+ pretty (status resp)
                                  +:+ " (from "
                                  +:+ to_string (opt_value (filename a))
                                  +:+ "): " +:+ statusText resp)),
                    w3,
                    t1 ++ [Issued GetDevKey; Issued GetSessionId] ++ t2
                       ++ [Issued (Fetch (VStr (url a)))])).
  { unfold CreateBill.checkRequestFields. rewrite run_bind, Hbill.
    cbn iota beta. rewrite run_bind. unfold CreateBill.uploadDocuments.
    rewrite run_bind, run_await, Hkey. cbn [fst snd].
    rewrite run_bind, run_await, Hsession. cbn [fst snd].
    rewrite run_bind, Hdocs. cbn [CreateBill.iterate run].
    rewrite (run_for_of_app h before _ _ tt tt w1b w2 t2 Hbefore).
    cbn [for_of]. rewrite run_bind. unfold CreateBill.uploadDocument at 1.
    cbn [CreateBill.property]. rewrite run_bind. cbn [run].
    rewrite run_bind, run_await, Hfetch. cbn [fst snd].
    rewrite run_bind, Hok. cbn [CreateBill.property CreateBill.fetchError
      bind run]. simpl. reflexivity. }
  unfold result, final, calls. subst row.
  unfold Airtable.updateWith, Airtable.updateFields.
  rewrite run_bind, Hrun. cbn [fst snd].
  repeat split.
  - rewrite !app_assoc. apply last_snoc.
  - rewrite !updatesSent_cat.
    pose proof (quiet_createBill req W h w) as Hq1.
    unfold calls in Hq1. rewrite Hbill in Hq1. cbn [snd] in Hq1.
    rewrite Hq1.
    pose proof (quiet_for_of T before
                  (CreateBill.uploadDocument devKey sessionId newBillId) tt
                  (quiet_uploadDocument devKey sessionId newBillId)
                  W h w1b) as Hq2.
    unfold calls in Hq2. rewrite Hbefore in Hq2. cbn [snd] in Hq2.
    rewrite Hq2. reflexivity.
Qed.

End BillCreation.

(** ** The invoice id *)

Lemma length_append (s1 s2 : string) :
  String.length (s1 +:+ s2) = (String.length s1 + String.length s2)%nat.
Proof. induction s1 as [|c s1 IH]; simpl; [|rewrite IH]; reflexivity. Qed.

Lemma length_substring (n m : nat) (s : string) :
  (String.length (String.substring n m s) <= m)%nat.
Proof.
  revert n m. induction s as [|c s IH]; intros [|n] [|m]; simpl;
    try lia; try apply IH.
  specialize (IH 0%nat m). lia.
Qed.

Lemma length_js_substring (s : string) (a b : nat) :
  (String.length (js_substring s a b) <= Nat.max a b - Nat.min a b)%nat.
Proof. unfold js_substring. apply length_substring. Qed.

(** C6, as amended. With no vendor-supplied invoice id, requester name
    "Alexandria Bartholomew" and request-row id "recAB1234567", the invoice
    id is "Alexandria Bart - AB1": the first 15 characters of the name,
    " - ", and the 3 characters of the row id from offset 3. A synthesized
    id never exceeds 21 characters, and a vendor-supplied invoice id, when
    present, is used instead. *)
Theorem invoice_id_synthesis :
  CreateBill.invoiceIdOf
    (Record "recAB1234567"
            {["Requester Name"%string := VStr "Alexandria Bartholomew"]})
  = Ret (VStr "Alexandria Bart - AB1")
  /\ (forall (req : record) (requester : string),
         truthy (get req "Vendor Invoice ID") = false ->
         get req "Requester Name" = VStr requester ->
         exists invoiceId,
           CreateBill.invoiceIdOf req = Ret (VStr invoiceId)
           /\ invoiceId = String.substring 0 15 requester +:+ " - "
                          +:+ String.substring 3 3 (getId req)
           /\ (String.length invoiceId <= 21)%nat)
  /\ (forall (req : record),
         truthy (get req "Vendor Invoice ID") = true ->
         CreateBill.invoiceIdOf req = Ret (get req "Vendor Invoice ID")).
Proof.
  split; [vm_compute; reflexivity|]. split.
  - intros req requester Hnone Hname. unfold CreateBill.invoiceIdOf.
    rewrite Hnone, Hname. simpl. eexists. split; [reflexivity|].
    split; [reflexivity|].
    rewrite !length_append.
    pose proof (length_js_substring requester 0 15).
    pose proof (length_js_substring (getId req) 3 6).
    unfold js_substring in *. simpl in *. lia.
  - intros req Hsome. unfold CreateBill.invoiceIdOf. rewrite Hsome.
    reflexivity.
Qed.

(** The invoice id of the example is not the one the specification
    prints, which is 22 characters long. *)
Lemma invoice_id_example_differs :
  CreateBill.invoiceIdOf
    (Record "recAB1234567"
            {["Requester Name"%string := VStr "Alexandria Bartholomew"]})
  <> Ret (VStr "Alexandria Barth - B12").
Proof. vm_compute. discriminate. Qed.

(** ** Matching *)

Section Matching.

Lemma strip_prefix_Some (p s r : list ascii) :
  strip_prefix p s = Some r <-> s = p ++ r.
Proof.
  revert s. induction p as [|a p IH]; intros s; simpl.
  - split; [intros [= ->]; reflexivity|intros ->; reflexivity].
  - destruct s as [|b s]; [split; discriminate|].
    destruct (Ascii.eqb_spec a b) as [->|Hne].
    + rewrite IH. split; [intros ->; reflexivity|intros [= ->]; reflexivity].
    + split; [discriminate|intros [= -> _]; congruence].
Qed.

Lemma plus_dot_sound {R} (k : list ascii -> option R) (s g : list ascii)
    (v : R) :
  plus_dot k s = Some (g, v) ->
  capture g /\ exists r, s = g ++ r /\ k r = Some v.
Proof.
  revert g v. induction s as [|c s IH]; intros g v; simpl; [discriminate|].
  destruct (is_dot c) eqn:Hc; [|discriminate].
  destruct (plus_dot k s) as [[g' v']|] eqn:Hplus.
  - intros [= <- <-]. destruct (IH g' v' eq_refl) as ([Hne Hdots] & r & -> & Hk).
    split; [split; [discriminate|simpl; rewrite Hc; exact Hdots]|].
    exists r. split; [reflexivity|exact Hk].
  - destruct (k s) as [v'|] eqn:Hk; [|discriminate].
    intros [= <- <-]. split; [split; [discriminate|simpl; rewrite Hc; reflexivity]|].
    exists s. split; [reflexivity|exact Hk].
Qed.

Lemma plus_dot_complete {R} (k : list ascii -> option R) (g r : list ascii) :
  capture g -> is_Some (k r) -> is_Some (plus_dot k (g ++ r)).
Proof.
  intros [Hne Hdots] Hk. induction g as [|c g IH]; [congruence|].
  simpl in Hdots. apply andb_true_iff in Hdots as [Hc Hdots].
  cbn [app plus_dot]. rewrite Hc.
  destruct g as [|c' g].
  - simpl. destruct (plus_dot k r) as [[g' v']|]; [eauto|].
    destruct Hk as [v ->]. eauto.
  - destruct (IH ltac:(discriminate) Hdots) as [[g' v'] ->]. eauto.
Qed.

Lemma match_here_sound (re : list token) (s : list ascii)
    (gs : list (string * list ascii)) :
  match_here re s = Some gs ->
  map fst gs = group_names re
  /\ Forall (fun ng => capture ng.2) gs
  /\ exists tail, s = matched_text re gs ++ tail.
Proof.
  revert s gs. induction re as [|[text|name] re IH]; intros s gs; simpl.
  - intros [= <-]. repeat split; [constructor|]. exists s. reflexivity.
  - destruct (strip_prefix text s) as [s'|] eqn:Hstrip; [|discriminate].
    apply strip_prefix_Some in Hstrip as ->. intros Hm.
    destruct (IH _ _ Hm) as (Hnames & Hcaps & tail & ->).
    repeat split; try assumption. exists tail. rewrite app_assoc. reflexivity.
  - destruct (plus_dot (match_here re) s) as [[g gs']|] eqn:Hplus;
      [|discriminate].
    intros [= <-]. apply plus_dot_sound in Hplus as (Hcap & r & -> & Hm).
    destruct (IH _ _ Hm) as (Hnames & Hcaps & tail & ->).
    repeat split.
    + simpl. rewrite Hnames. reflexivity.
    + constructor; assumption.
    + exists tail. rewrite app_assoc. reflexivity.
Qed.

Lemma match_here_complete (re : list token)
    (gs : list (string * list ascii)) (tail : list ascii) :
  map fst gs = group_names re ->
  Forall (fun ng => capture ng.2) gs ->
  is_Some (match_here re (matched_text re gs ++ tail)).
Proof.
  revert gs. induction re as [|[text|name] re IH]; intros gs Hnames Hcaps;
    simpl.
  - eauto.
  - rewrite <- app_assoc.
    rewrite (proj2 (strip_prefix_Some text _ _) eq_refl). apply IH; assumption.
  - destruct gs as [|[n g] gs]; [discriminate|].
    simpl in Hnames. injection Hnames as _ Hnames.
    apply Forall_cons in Hcaps as [Hcap Hcaps]. rewrite <- app_assoc.
    destruct (plus_dot_complete (match_here re) g
                (matched_text re gs ++ tail) Hcap (IH gs Hnames Hcaps))
      as [[g' gs'] ->].
    eauto.
Qed.

Lemma search_here (re : list token) (s : list ascii)
    (gs : list (string * list ascii)) :
  match_here re s = Some gs -> search re s = Some gs.
Proof. intros H. destruct s; simpl; rewrite H; reflexivity. Qed.

(** A successful search matched at some position. *)
Lemma search_found (re : list token) (s : list ascii)
    (gs : list (string * list ascii)) :
  search re s = Some gs ->
  exists skipped rest, s = skipped ++ rest /\ match_here re rest = Some gs.
Proof.
  induction s as [|c s IH]; simpl.
  - destruct (match_here re []) eqn:Hm; [|discriminate].
    intros [= <-]. exists [], []. auto.
  - destruct (match_here re (c :: s)) eqn:Hm.
    + intros [= <-]. exists [], (c :: s). auto.
    + intros Hs. destruct (IH Hs) as (skipped & rest & -> & Hr).
      exists (c :: skipped), rest. auto.
Qed.

Lemma split_at_first (ch : ascii) (x x' y y' : list ascii) :
  ch ∉ x -> ch ∉ x' -> x ++ ch :: y = x' ++ ch :: y' -> x = x' /\ y = y'.
Proof.
  revert x'. induction x as [|a x IH]; intros [|a' x'] Hx Hx' Heq;
    simpl in Heq.
  - injection Heq as ->. auto.
  - injection Heq as -> _. exfalso. apply Hx'. left.
  - injection Heq as -> _. exfalso. apply Hx. left.
  - injection Heq as -> Heq.
    destruct (IH x') as [-> ->]; [| |assumption|auto].
    + intros Hin. apply Hx. right. assumption.
    + intros Hin. apply Hx'. right. assumption.
Qed.

Lemma dots_no_newline (g : list ascii) :
  forallb is_dot g = true -> "010"%char ∉ g.
Proof.
  intros Hdots Hin. apply list_elem_of_In in Hin.
  rewrite forallb_forall in Hdots. specialize (Hdots _ Hin). discriminate.
Qed.

End Matching.

(** ** The merchant pattern *)

Section MerchantPattern.

#[local] Abbreviation NL := (["010"%char]).
#[local] Abbreviation BAR := ([" "%char; "|"%char; " "%char]).
#[local] Abbreviation bar := ("|"%char).

Lemma bars_zero (l : list ascii) :
  count_occ ascii_dec l bar = 0%nat <-> bar ∉ l.
Proof.
  rewrite <- count_occ_not_In. split; intros H Hin; apply H;
    apply list_elem_of_In; assumption.
Qed.

Lemma line_unique (c st z c' st' z' : list ascii) :
  bar ∉ c -> bar ∉ st -> bar ∉ z ->
  c ++ BAR ++ st ++ BAR ++ z = c' ++ BAR ++ st' ++ BAR ++ z' ->
  c = c' /\ st = st' /\ z = z'.
Proof.
  intros Hc Hst Hz Heq.
  assert (Hcount : (count_occ ascii_dec c' bar + count_occ ascii_dec st' bar
                    + count_occ ascii_dec z' bar = 0)%nat).
  { apply (f_equal (fun l => count_occ ascii_dec l bar)) in Heq.
    rewrite !count_occ_app in Heq.
    apply bars_zero in Hc, Hst, Hz. rewrite Hc, Hst, Hz in Heq.
    change (count_occ ascii_dec BAR bar) with 1%nat in Heq. lia. }
  assert (Hc' : bar ∉ c') by (apply bars_zero; lia).
  assert (Hst' : bar ∉ st') by (apply bars_zero; lia).
  change (c ++ [" "%char] ++ bar :: (" "%char :: st ++ BAR ++ z)
          = c' ++ [" "%char] ++ bar :: (" "%char :: st' ++ BAR ++ z'))
    in Heq.
  rewrite !(app_assoc _ [" "%char]) in Heq.
  apply split_at_first in Heq as [Hhead Htail].
  - apply app_inv_tail in Hhead. injection Htail as Htail.
    change (st ++ [" "%char] ++ bar :: (" "%char :: z)
            = st' ++ [" "%char] ++ bar :: (" "%char :: z')) in Htail.
    rewrite !(app_assoc _ [" "%char]) in Htail.
    apply split_at_first in Htail as [Hst2 Hz2].
    + apply app_inv_tail in Hst2. injection Hz2 as Hz2. auto.
    + intros Hin. apply elem_of_app in Hin as [Hin|Hin]; [auto|].
      apply list_elem_of_singleton in Hin. discriminate.
    + intros Hin. apply elem_of_app in Hin as [Hin|Hin]; [auto|].
      apply list_elem_of_singleton in Hin. discriminate.
  - intros Hin. apply elem_of_app in Hin as [Hin|Hin]; [auto|].
    apply list_elem_of_singleton in Hin. discriminate.
  - intros Hin. apply elem_of_app in Hin as [Hin|Hin]; [auto|].
    apply list_elem_of_singleton in Hin. discriminate.
Qed.

Lemma merchant_unique (d n a c st z r d' n' a' c' st' z' r' : list ascii) :
  forallb is_dot d = true -> forallb is_dot n = true ->
  forallb is_dot a = true -> forallb is_dot c = true ->
  forallb is_dot st = true -> forallb is_dot z = true ->
  forallb is_dot d' = true -> forallb is_dot n' = true ->
  forallb is_dot a' = true -> forallb is_dot c' = true ->
  forallb is_dot st' = true -> forallb is_dot z' = true ->
  bar ∉ c -> bar ∉ st -> bar ∉ z ->
  d ++ NL ++ n ++ NL ++ a ++ NL ++ c ++ BAR ++ st ++ BAR ++ z ++ NL ++ r
  = d' ++ NL ++ n' ++ NL ++ a' ++ NL ++ c' ++ BAR ++ st' ++ BAR ++ z'
       ++ NL ++ r' ->
  d = d' /\ n = n' /\ a = a' /\ c = c' /\ st = st' /\ z = z'.
Proof.
  intros Hd Hn Ha Hc Hst Hz Hd' Hn' Ha' Hc' Hst' Hz' Bc Bst Bz Heq.
  cbn [app] in Heq.
  apply split_at_first in Heq as [<- Heq]; try (apply dots_no_newline; assumption).
  apply split_at_first in Heq as [<- Heq]; try (apply dots_no_newline; assumption).
  apply split_at_first in Heq as [<- Heq]; try (apply dots_no_newline; assumption).
  change (c ++ BAR ++ st ++ BAR ++ z ++ "010"%char :: r
          = c' ++ BAR ++ st' ++ BAR ++ z' ++ "010"%char :: r') in Heq.
  rewrite !app_assoc in Heq.
  apply split_at_first in Heq as [Hline _].
  - rewrite <- !app_assoc in Hline.
    destruct (line_unique c st z c' st' z' Bc Bst Bz Hline) as (-> & -> & ->).
    repeat split.
  - apply dots_no_newline. rewrite !forallb_app, Hc, Hst, Hz. reflexivity.
  - apply dots_no_newline. rewrite !forallb_app, Hc', Hst', Hz'. reflexivity.
Qed.

End MerchantPattern.

Ltac assoc_right :=
  repeat first [rewrite <- app_assoc | rewrite <- app_comm_cons].

Section MerchantMatch.

#[local] Abbreviation chars := list_ascii_of_string.

Lemma single_line_capture (s : string) :
  single_line s = true -> capture (chars s).
Proof.
  unfold single_line. intros H. apply andb_true_iff in H as [Hne Hdots].
  split; [|exact Hdots]. destruct s; [discriminate|discriminate].
Qed.

Lemma bar_free_chars (s : string) : bar_free s = true -> "|"%char ∉ chars s.
Proof.
  unfold bar_free. intros H Hin. apply list_elem_of_In in Hin.
  rewrite forallb_forall in H. specialize (H _ Hin). discriminate.
Qed.

Lemma merchant_here (d n a c st z : list ascii) (c0 : ascii)
    (tail : list ascii) :
  capture d -> capture n -> capture a -> capture c -> capture st ->
  capture z -> "|"%char ∉ c -> "|"%char ∉ st -> "|"%char ∉ z ->
  is_dot c0 = true ->
  exists de,
    match_here SyncBills.merchantRegex
      (d ++ "010"%char :: n ++ "010"%char :: a ++ "010"%char :: c
         ++ " "%char :: "|"%char :: " "%char :: st
         ++ " "%char :: "|"%char :: " "%char :: z
         ++ "010"%char :: c0 :: tail)
    = Some [("date"%string, d); ("name"%string, n); ("address"%string, a);
            ("city"%string, c); ("state"%string, st); ("zip"%string, z);
            ("description"%string, de)].
Proof.
  intros Cd Cn Ca Cc Cst Cz Bc Bst Bz Hc0.
  set (gs0 := [("date"%string, d); ("name"%string, n);
               ("address"%string, a); ("city"%string, c);
               ("state"%string, st); ("zip"%string, z);
               ("description"%string, [c0])]).
  assert (Hcaps0 : Forall (fun ng : string * list ascii => capture ng.2) gs0).
  { subst gs0. repeat (constructor; [assumption|]).
    constructor; [|constructor]. split; [discriminate|].
    simpl. rewrite Hc0. reflexivity. }
  destruct (match_here_complete SyncBills.merchantRegex gs0 tail eq_refl
              Hcaps0) as [gs Hgs].
  destruct (match_here_sound _ _ _ Hgs) as (Hnames & Hcaps & tail' & Heq).
  destruct gs as [|[k1 d'] [|[k2 n'] [|[k3 a'] [|[k4 c'] [|[k5 st']
    [|[k6 z'] [|[k7 de'] [|? ?]]]]]]]]; try discriminate.
  injection Hnames as -> -> -> -> -> -> ->.
  repeat (apply Forall_cons in Hcaps as [[_ ?] Hcaps]). cbn [snd] in *.
  destruct Cd as [_ ?], Cn as [_ ?], Ca as [_ ?], Cc as [_ ?],
    Cst as [_ ?], Cz as [_ ?].
  assert (Hshape : forall g1 g2 g3 g4 g5 g6 g7 t,
    matched_text SyncBills.merchantRegex
      [("date"%string, g1); ("name"%string, g2); ("address"%string, g3);
       ("city"%string, g4); ("state"%string, g5); ("zip"%string, g6);
       ("description"%string, g7)] ++ t
    = g1 ++ "010"%char :: g2 ++ "010"%char :: g3 ++ "010"%char :: g4
         ++ " "%char :: "|"%char :: " "%char :: g5
         ++ " "%char :: "|"%char :: " "%char :: g6
         ++ "010"%char :: g7 ++ t).
  { intros. cbn [matched_text SyncBills.merchantRegex lit nl
                 list_ascii_of_string app].
    assoc_right. reflexivity. }
  subst gs0. rewrite !Hshape in Heq. rewrite Hshape in Hgs.
  destruct (merchant_unique d n a c st z ([c0] ++ tail)
              d' n' a' c' st' z' (de' ++ tail'))
    as (<- & <- & <- & <- & <- & <-); try assumption.
  exists de'. exact Hgs.
Qed.

Lemma merchant_match_exact
    (date name address city state zip desc : string) :
  single_line date = true -> single_line name = true ->
  single_line address = true -> single_line city = true ->
  single_line state = true -> single_line zip = true ->
  bar_free city = true -> bar_free state = true -> bar_free zip = true ->
  starts_line desc = true ->
  exists gs,
    js_match SyncBills.merchantRegex
      (date +:+ nl +:+ name +:+ nl +:+ address +:+ nl +:+ city +:+ " | "
         +:+ state +:+ " | " +:+ zip +:+ nl +:+ desc) = Some gs
    /\ SyncBills.date (SyncBills.groups gs) = VStr date
    /\ SyncBills.name (SyncBills.groups gs) = VStr name
    /\ SyncBills.address (SyncBills.groups gs) = VStr address
    /\ SyncBills.city (SyncBills.groups gs) = VStr city
    /\ SyncBills.state (SyncBills.groups gs) = VStr state
    /\ SyncBills.zip (SyncBills.groups gs) = VStr zip.
Proof.
  intros Hd Hn Ha Hc Hst Hz Bc Bst Bz Hdesc.
  destruct desc as [|c0 desc']; [discriminate|]. simpl in Hdesc.
  destruct (merchant_here (chars date) (chars name) (chars address)
              (chars city) (chars state) (chars zip) c0 (chars desc'))
    as [de Hhere];
    try (apply single_line_capture; assumption);
    try (apply bar_free_chars; assumption); [assumption|].
  eexists. split.
  - unfold js_match. rewrite !chars_app.
    cbn [nl list_ascii_of_string app].
    rewrite (search_here _ _ _ Hhere). reflexivity.
  - unfold SyncBills.groups, group_of. simpl.
    rewrite !string_of_list_ascii_of_string. repeat split.
Qed.

End MerchantMatch.

(** ** Merchant extraction in the sync *)

Section MerchantExtraction.
Import World Reconciliation.
Variable PRIMARY_ORG : string.
Variable getYyyyMmDd : value -> value.

#[local] Abbreviation entryOf := (entryOf PRIMARY_ORG getYyyyMmDd).

Lemma vendorMap_get (w : world) (k : string) (iv : SyncBills.itemVendorT) :
  JsMap.get (vendorMap w) k = Some iv ->
  exists v, v ∈ vendors w /\ vendor_id v = k
            /\ iv = SyncBills.vendorProjection v.
Proof.
  unfold vendorMap. intros Hget.
  apply (foldl_set_get vendor_id SyncBills.vendorProjection) in Hget
    as [Hget|(v & Hv & Hk & Hiv)]; [discriminate|].
  exists v. auto.
Qed.

Lemma vendor_has_no_date (w : world) (k : string) :
  SyncBills.date (default SyncBills.empty_object (JsMap.get (vendorMap w) k))
  = VUndefined.
Proof.
  destruct (JsMap.get (vendorMap w) k) as [iv|] eqn:Hget; [|reflexivity].
  apply vendorMap_get in Hget as (v & _ & _ & ->). reflexivity.
Qed.


End MerchantExtraction.

(** ** The description written by the bill-creation workflow *)

Section WrittenDescription.

Lemma encode_unit_no_newline (c : ascii) :
  forallb (fun x => negb (Ascii.eqb x "010"%char))
          (list_ascii_of_string (CreateBill.encode_unit c)) = true.
Proof. destruct c as [[] [] [] [] [] [] [] []]; reflexivity. Qed.

Lemma encodeURIComponent_no_newline (s : string) :
  "010"%char ∉ list_ascii_of_string (CreateBill.encodeURIComponent s).
Proof.
  induction s as [|c s IH]; simpl; [apply not_elem_of_nil|].
  rewrite chars_app. intros Hin. apply elem_of_app in Hin as [Hin|Hin];
    [|exact (IH Hin)].
  pose proof (encode_unit_no_newline c) as Hc.
  rewrite forallb_forall in Hc. apply list_elem_of_In in Hin.
  specialize (Hc _ Hin). simpl in Hc. discriminate.
Qed.

Lemma merchant_needs_newline (s : list ascii) :
  "010"%char ∉ s -> search SyncBills.merchantRegex s = None.
Proof.
  intros Hnone. destruct (search SyncBills.merchantRegex s) as [gs|] eqn:Hs;
    [|reflexivity].
  exfalso. apply search_found in Hs as (skipped & rest & -> & Hm).
  apply match_here_sound in Hm as (Hnames & _ & tail & ->).
  destruct gs as [|[k1 d'] gs]; [discriminate|].
  apply Hnone. cbn [matched_text SyncBills.merchantRegex lit nl
                      list_ascii_of_string app].
  rewrite !elem_of_app. right. left. right.
  rewrite elem_of_cons. left. reflexivity.
Qed.

End WrittenDescription.

(** C4 fails on the code. Whenever a check-request line item has an
    expense date, the description the bill-creation workflow writes is not
    matched by the merchant pattern: it is percent-encoded and no newline
    is left in it. For the sample line item it is the encoding of
    [date\nname\naddress\ncity & state & zip\ndesc], and the pattern does
    not match the text it encodes either, while it does match the same
    fields joined by [" | "]. *)
Theorem written_description_is_not_recovered :
  (forall item : record,
      is_nullish (get item "Item Expense Date") = false ->
      exists s,
        CreateBill.lineItemDescription item = VStr s
        /\ js_match SyncBills.merchantRegex s = None)
  /\ CreateBill.lineItemDescription Sample.requestItem
     = VStr ("2021-03-04%0AAcme%0A1%20Main%20St%0ASpringfield%20%26%20IL"
               +:+ "%20%26%2062701%0APens")
  /\ js_match SyncBills.merchantRegex
       ("2021-03-04" +:+ nl +:+ "Acme" +:+ nl +:+ "1 Main St" +:+ nl
          +:+ "Springfield & IL & 62701" +:+ nl +:+ "Pens") = None
  /\ js_match SyncBills.merchantRegex
       ("2021-03-04" +:+ nl +:+ "Acme" +:+ nl +:+ "1 Main St" +:+ nl
          +:+ "Springfield | IL | 62701" +:+ nl +:+ "Pens")
     = Some [("date", "2021-03-04"); ("name", "Acme");
             ("address", "1 Main St"); ("city", "Springfield");
             ("state", "IL"); ("zip", "62701"); ("description", "Pens")]%string.
Proof.
  split; [|repeat split; vm_compute; reflexivity].
  intros item Hdate. unfold CreateBill.lineItemDescription. rewrite Hdate.
  eexists. split; [reflexivity|].
  unfold js_match. rewrite merchant_needs_newline; [reflexivity|].
  apply encodeURIComponent_no_newline.
Qed.

(** ** The record-store client, continued *)

Section ClientRuns.
Context {W : Type} (h : env W).

(** X1. [select2] settles as [select] does with the identity callback:
    the same records or the same error, the same calls and the same
    environment left, whatever the environment answers. *)
Theorem select2_as_select (table view : string) (w : W) :
  run h (Airtable.select table view
           (Function (fun r (s : unit) => inr (r, s))) tt) w
  = let '(o, w1, t) := run h (Airtable.select2 table view) w in
    (match o with inl e => inl e | inr records => inr (records, tt) end,
     w1, t).
Proof.
  unfold Airtable.select, Airtable.select2.
  rewrite !run_catchError, run_bind, run_await.
  destruct (h _ (SelectAll table view) w) as [[e|records] w1]; simpl;
    [reflexivity|].
  rewrite (all_mapped_pure (fun r => r) (fun _ (s : unit) => s)).
  cbn [run]. rewrite map_id.
  assert (Hunit : foldl (fun (st : unit) (_ : record) => st) tt records = tt)
    by (destruct (foldl _ tt records); reflexivity).
  rewrite Hunit. reflexivity.
Qed.

Lemma js_map_throws {X S A} (f : X -> S -> exn + A * S)
    (before after : list X) (x : X) (s s1 : S) (ps : list (promise A))
    (e : exn) :
  js_map (Function f) before s = Ret (ps, s1) ->
  f x s1 = inl e ->
  js_map (Function f) (before ++ x :: after) s = Throw e.
Proof.
  revert s ps. induction before as [|y before IH]; intros s ps Hbefore Hx.
  - injection Hbefore as <- <-. cbn [app js_map]. rewrite Hx. reflexivity.
  - cbn [app js_map] in Hbefore |- *.
    destruct (f y s) as [e'|[a s']]; [discriminate|].
    destruct (js_map (Function f) before s') as [[ps' s2]|e'|Y c k] eqn:Hrest;
      [|discriminate..].
    simpl in Hbefore. injection Hbefore as <- <-.
    rewrite (IH s' ps' Hrest Hx). reflexivity.
Qed.

(** X2. When the callback of [select] is a function that throws for one
    record, the map ends there: [select] rejects with the error thrown,
    reported as a selecting error of the table, whatever records come
    behind, on which the callback is not called. *)
Theorem select_callback_failure {S A} (table view : string)
    (f : record -> S -> exn + A * S) (s s1 : S)
    (before after : list record) (r : record) (e : exn)
    (w w0 : W) (ps : list (promise A)) :
  h _ (SelectAll table view) w = (inr (before ++ r :: after), w0) ->
  js_map (Function f) before s = Ret (ps, s1) ->
  f r s1 = inl e ->
  run h (Airtable.select table view (Function f) s) w
  = (inl (Error ("Error selecting records in Airtable Table " +:+ table
                   +:+ ": " +:+ exn_to_string e)),
     w0, [Issued (SelectAll table view)]).
Proof.
  intros Hselect Hbefore Hr. unfold Airtable.select.
  rewrite run_catchError, run_bind, run_await, Hselect. cbn [fst snd].
  unfold all_mapped. rewrite (js_map_throws f before after r s s1 ps e Hbefore Hr).
  reflexivity.
Qed.

Lemma chunks_go_nonempty {X} (size fuel : nat) (l : list X) :
  (0 < size)%nat ->
  Forall (fun b => 0 < length b)%nat (Airtable.chunks_go fuel size l).
Proof.
  intros Hsize. revert l. induction fuel as [|fuel IH]; intros l;
    [constructor|].
  destruct l as [|x l]; [constructor|].
  cbn [Airtable.chunks_go]. constructor; [|apply IH].
  rewrite length_take. simpl. lia.
Qed.

Lemma chunks_go_length {X} (size fuel : nat) (l : list X) :
  (0 < size)%nat -> (length l <= fuel)%nat ->
  length (Airtable.chunks_go fuel size l)
  = ((length l + size - 1) / size)%nat.
Proof.
  intros Hsize. revert l. induction fuel as [|fuel IH]; intros l Hlen.
  - destruct l; [|simpl in Hlen; lia]. simpl.
    symmetry. apply Nat.div_small. lia.
  - destruct l as [|x l]; [simpl; symmetry; apply Nat.div_small; lia|].
    cbn [Airtable.chunks_go length]. rewrite IH.
    + rewrite length_drop. cbn [length].
      destruct (le_lt_dec (S (length l)) size) as [Hle|Hlt].
      * replace (S (length l) - size)%nat with 0%nat by lia.
        rewrite (Nat.div_small (0 + size - 1)) by lia.
        replace (S (length l) + size - 1)%nat
          with (length l + 1 * size)%nat by lia.
        rewrite Nat.div_add by lia. rewrite Nat.div_small by lia. lia.
      * replace (S (length l) + size - 1)%nat
          with ((S (length l) - size + size - 1) + 1 * size)%nat by lia.
        rewrite Nat.div_add by lia. lia.
    + rewrite length_drop. simpl in *. lia.
Qed.

(** X3. When the store accepts every write of at most ten records,
    [update] and [create] hand all the records over, in order, in
    ceil(n/10) calls of one to ten records each; for no record at all,
    no call is made. *)
Theorem writes_in_batches_of_ten (table : string) :
  (forall (updates : list update_spec) (w : W),
      (forall b w0, (length b <= 10)%nat ->
                    (h _ (Update table b) w0).1 = inr tt) ->
      exists batches,
        calls h (Airtable.update table updates) w
        = map (fun b => Issued (Update table b)) batches
        /\ result h (Airtable.update table updates) w
           = inr (map (fun _ => tt) batches)
        /\ concat batches = updates
        /\ Forall (fun b => 0 < length b <= 10)%nat batches
        /\ length batches = ((length updates + 9) / 10)%nat)
  /\ (forall (creates : list (gmap string value)) (w : W),
      (forall b w0, (length b <= 10)%nat ->
                    (h _ (Create table b) w0).1 = inr tt) ->
      exists batches,
        calls h (Airtable.create table creates) w
        = map (fun b => Issued (Create table b)) batches
        /\ result h (Airtable.create table creates) w
           = inr (map (fun _ => tt) batches)
        /\ concat batches = creates
        /\ Forall (fun b => 0 < length b <= 10)%nat batches
        /\ length batches = ((length creates + 9) / 10)%nat).
Proof.
  assert (Hshape : forall X (l : list X),
             concat (Airtable.chunks 10 l) = l
             /\ Forall (fun b => 0 < length b <= 10)%nat (Airtable.chunks 10 l)
             /\ length (Airtable.chunks 10 l) = ((length l + 9) / 10)%nat).
  { intros X l. split; [apply chunks_concat; lia|]. split.
    - apply Forall_and. split; [apply chunks_go_nonempty; lia|].
      apply chunks_bounded.
    - unfold Airtable.chunks. rewrite chunks_go_length by lia.
      f_equal. lia. }
  split.
  - intros updates w Hok. exists (Airtable.chunks 10 updates).
    unfold calls, result, Airtable.update, Airtable.batch,
      Airtable.batchAsync.
    rewrite run_catchError.
    rewrite (run_each_batch_ok h (Update table)
               (fun w0 b => (h _ (Update table b) w0).2)).
    + simpl. split; [reflexivity|]. split; [reflexivity|]. apply Hshape.
    + intros b w0 Hb.
      assert (Hlen : (length b <= 10)%nat).
      { pose proof (chunks_bounded 10 updates) as Hall.
        rewrite List.Forall_forall in Hall. exact (Hall b Hb). }
      specialize (Hok b w0 Hlen).
      destruct (h _ (Update table b) w0) as [o w1]. simpl in *. subst o.
      reflexivity.
  - intros creates w Hok. exists (Airtable.chunks 10 creates).
    unfold calls, result, Airtable.create, Airtable.batch,
      Airtable.batchAsync.
    rewrite run_catchError.
    rewrite (run_each_batch_ok h (Create table)
               (fun w0 b => (h _ (Create table b) w0).2)).
    + simpl. split; [reflexivity|]. split; [reflexivity|]. apply Hshape.
    + intros b w0 Hb.
      assert (Hlen : (length b <= 10)%nat).
      { pose proof (chunks_bounded 10 creates) as Hall.
        rewrite List.Forall_forall in Hall. exact (Hall b Hb). }
      specialize (Hok b w0 Hlen).
      destruct (h _ (Create table b) w0) as [o w1]. simpl in *. subst o.
      reflexivity.
Qed.

End ClientRuns.

(** ** Calls a program may issue, and their order *)

Section Only.
Variable P : issued -> Prop.

Lemma only_Ret {A} (a : A) : only P (Ret a).
Proof. intros W h w. constructor. Qed.

Lemma only_Throw {A} (e : exn) : only P (@Throw A e).
Proof. intros W h w. constructor. Qed.

Lemma only_bind {A B} (p : prog A) (f : A -> prog B) :
  only P p -> (forall a, only P (f a)) -> only P (bind p f).
Proof.
  intros Hp Hf W h w. specialize (Hp W h w). unfold calls in *.
  rewrite run_bind. destruct (run h p w) as [[[e|a] w1] t1]; [exact Hp|].
  specialize (Hf a W h w1). unfold calls in Hf.
  destruct (run h (f a) w1) as [[o2 w2] t2]. simpl in *.
  apply Forall_app. auto.
Qed.

Lemma only_await {X} (c : call X) : P (Issued c) -> only P (await c).
Proof.
  intros Hc W h w. unfold calls. rewrite run_await. simpl.
  constructor; [exact Hc|constructor].
Qed.

Lemma only_catch {A} (p : prog A) (handler : exn -> prog A) :
  only P p -> (forall e, only P (handler e)) -> only P (catch p handler).
Proof.
  intros Hp Hh W h w. specialize (Hp W h w). unfold calls in *.
  rewrite run_catch. destruct (run h p w) as [[[e|a] w1] t1]; [|exact Hp].
  specialize (Hh e W h w1). unfold calls in Hh.
  destruct (run h (handler e) w1) as [[o2 w2] t2]. simpl in *.
  apply Forall_app. auto.
Qed.

Lemma only_for_of {X S} (xs : list X) (body : X -> S -> prog S) (s : S) :
  (forall x s, only P (body x s)) -> only P (for_of xs body s).
Proof.
  intros Hbody. revert s. induction xs as [|x xs IH]; intros s.
  - apply only_Ret.
  - cbn [for_of]. apply only_bind; [apply Hbody|exact IH].
Qed.

Lemma only_catchError {A} (p : prog A) (querying t : string) :
  only P p -> only P (Airtable.catchError p querying t).
Proof.
  intros Hp. apply only_catch; [exact Hp|]. intros e. apply only_Throw.
Qed.

Lemma only_find {A} (t : string) (id : value) (func : record -> prog A) :
  P (Issued (Find t id)) -> (forall r, only P (func r)) ->
  only P (Airtable.find t id func).
Proof.
  intros Hc Hfunc. apply only_catchError, only_bind; [|exact Hfunc].
  apply only_await, Hc.
Qed.

Lemma only_select {S A} (t view : string) (func : callback record S A)
    (s : S) :
  P (Issued (SelectAll t view)) -> callback_only P func ->
  only P (Airtable.select t view func s).
Proof.
  intros Hc Hfunc. apply only_catchError, only_bind; [apply only_await, Hc|].
  intros records. apply only_all_mapped, Hfunc.
Qed.

Lemma only_each_batch {X} (c : list X -> call unit)
    (batches : list (list X)) :
  Forall (fun b => P (Issued (c b))) batches ->
  only P (Airtable.each_batch (fun b => await (c b)) batches).
Proof.
  induction 1 as [|b bs Hb _ IH]; [apply only_Ret|].
  cbn [Airtable.each_batch]. apply only_bind; [apply only_await, Hb|].
  intros r. apply only_bind; [exact IH|]. intros rs. apply only_Ret.
Qed.

Lemma only_batch {X} (c : list X -> call unit) (l : list X) :
  (forall b, (0 < length b <= 10)%nat -> P (Issued (c b))) ->
  only P (Airtable.batch (fun b => await (c b)) l).
Proof.
  intros Hc. apply only_each_batch.
  pose proof (chunks_bounded 10 l) as Hle.
  assert (Hpos : Forall (fun b : list X => 0 < length b)%nat
                        (Airtable.chunks 10 l)).
  { unfold Airtable.chunks. generalize (length l) at 1. intros fuel.
    revert l Hle. induction fuel as [|fuel IH]; intros l _; [constructor|].
    destruct l as [|x l]; [constructor|]. cbn [Airtable.chunks_go].
    constructor; [rewrite length_take; simpl; lia|].
    apply IH. apply chunks_bounded. }
  rewrite Forall_forall in Hle, Hpos |- *. intros b Hb. apply Hc.
  split; [apply Hpos, Hb|apply Hle, Hb].
Qed.

Lemma only_update (t : string) (us : list update_spec) :
  (forall b, (0 < length b <= 10)%nat -> P (Issued (Update t b))) ->
  only P (Airtable.update t us).
Proof. intros Hc. apply only_catchError, only_batch, Hc. Qed.

Lemma only_create (t : string) (cs : list (gmap string value)) :
  (forall b, (0 < length b <= 10)%nat -> P (Issued (Create t b))) ->
  only P (Airtable.create t cs).
Proof. intros Hc. apply only_catchError, only_batch, Hc. Qed.

End Only.

Lemma only_weaken (P Q : issued -> Prop) {A} (p : prog A) :
  (forall c, P c -> Q c) -> only P p -> only Q p.
Proof.
  intros HPQ Hp W h w. eapply Forall_impl; [apply Hp|exact HPQ].
Qed.

Section SyncCalls.
Variable PRIMARY_ORG : string.
Variable getYyyyMmDd : value -> value.

(** X4. Whatever the two services answer, the sync issues nothing but
    the login, the session id, the listings of active entities, the
    document pages of bills, the select of the whole Bill Reporting table
    (view ['']), and updates and creates of Bill Reporting of one to ten
    records each. *)
Theorem sync_touches_only_the_mirror {W} (h : env W) (w : W) :
  Forall syncCall (calls h (SyncBills.main PRIMARY_ORG getYyyyMmDd) w).
Proof.
  revert W h w. change (only syncCall (SyncBills.main PRIMARY_ORG getYyyyMmDd)).
  unfold SyncBills.main, SyncBills.getNames, SyncBills.getEntityData.
  apply only_bind; [apply only_await; exact I|]. intros _.
  apply only_bind; [apply only_await; exact I|]. intros sessionId.
  apply only_bind;
    [apply only_bind; [apply only_await; exact I|intros; apply only_Ret]|].
  intros vendors.
  apply only_bind;
    [apply only_bind; [apply only_await; exact I|intros; apply only_Ret]|].
  intros chartOfAccounts.
  apply only_bind;
    [apply only_bind; [apply only_await; exact I|intros; apply only_Ret]|].
  intros customers.
  apply only_bind; [apply only_await; exact I|]. intros bills.
  apply only_bind.
  { apply only_for_of. intros b ch. unfold SyncBills.syncBill.
    apply only_bind; [apply only_await; exact I|]. intros numPages.
    apply only_for_of. intros item ch'. unfold SyncBills.syncItem.
    destruct (item_description item); [apply only_Ret|apply only_Throw]. }
  intros changes. apply only_bind.
  { apply only_select; [split; reflexivity|exact I]. }
  intros [_ [updates changes']].
  apply only_bind; [apply only_update; intros b Hb; split; [reflexivity|exact Hb]|].
  intros _.
  apply only_bind; [apply only_create; intros b Hb; split; [reflexivity|exact Hb]|].
  intros _. apply only_Ret.
Qed.

End SyncCalls.

Section Stepped.
Variable step : issued -> option nat.
Variable R : nat -> nat -> Prop.

Lemma ordered_nil : ordered step R [].
Proof. intros i j c1 c2 a b _ Hi. discriminate. Qed.

Lemma ordered_singleton (c : issued) : ordered step R [c].
Proof.
  intros i j c1 c2 a b Hlt Hi Hj.
  apply lookup_lt_Some in Hj. simpl in Hj. lia.
Qed.

Lemma ordered_app (t1 t2 : list issued) :
  ordered step R t1 -> ordered step R t2 ->
  (forall c1 c2 a b, c1 ∈ t1 -> c2 ∈ t2 ->
                     step c1 = Some a -> step c2 = Some b -> R a b) ->
  ordered step R (t1 ++ t2).
Proof.
  intros H1 H2 H12 i j c1 c2 a b Hlt Hi Hj Ha Hb.
  apply lookup_app_Some in Hi as [Hi|[Hge Hi]];
    apply lookup_app_Some in Hj as [Hj|[Hge' Hj]].
  - exact (H1 i j c1 c2 a b Hlt Hi Hj Ha Hb).
  - apply (H12 c1 c2 a b); try assumption.
    + eapply list_elem_of_lookup_2, Hi.
    + eapply list_elem_of_lookup_2, Hj.
  - apply lookup_lt_Some in Hj. lia.
  - apply (H2 (i - length t1)%nat (j - length t1)%nat c1 c2 a b);
      try assumption. lia.
Qed.

Lemma stepped_weaken (P Q : nat -> Prop) {A} (p : prog A) :
  (forall n, P n -> Q n) -> stepped step R P p -> stepped step R Q p.
Proof.
  intros HPQ Hp W h w. destruct (Hp W h w) as [Hord Hall].
  split; [exact Hord|].
  eapply Forall_impl; [exact Hall|]. intros c Hc n Hn. auto.
Qed.

Lemma stepped_Ret (P : nat -> Prop) {A} (a : A) : stepped step R P (Ret a).
Proof. intros W h w. split; [apply ordered_nil|constructor]. Qed.

Lemma stepped_Throw (P : nat -> Prop) {A} (e : exn) :
  stepped step R P (@Throw A e).
Proof. intros W h w. split; [apply ordered_nil|constructor]. Qed.

Lemma stepped_app (P Q T : nat -> Prop) (t1 t2 : list issued) :
  (forall a b, P a -> Q b -> R a b) ->
  (forall n, P n -> T n) -> (forall n, Q n -> T n) ->
  ordered step R t1
  /\ Forall (fun c => forall n, step c = Some n -> P n) t1 ->
  ordered step R t2
  /\ Forall (fun c => forall n, step c = Some n -> Q n) t2 ->
  ordered step R (t1 ++ t2)
  /\ Forall (fun c => forall n, step c = Some n -> T n) (t1 ++ t2).
Proof.
  intros HR HP HQ [Ho1 Ha1] [Ho2 Ha2]. split.
  - apply ordered_app; [assumption|assumption|].
    rewrite Forall_forall in Ha1, Ha2.
    intros c1 c2 a b Hc1 Hc2 Hsa Hsb. apply HR; [eapply Ha1|eapply Ha2]; eauto.
  - apply Forall_app. split.
    + eapply Forall_impl; [exact Ha1|]. intros c Hc n Hn. auto.
    + eapply Forall_impl; [exact Ha2|]. intros c Hc n Hn. auto.
Qed.

Lemma stepped_bind (P Q T : nat -> Prop) {A B} (p : prog A)
    (f : A -> prog B) :
  (forall a b, P a -> Q b -> R a b) ->
  (forall n, P n -> T n) -> (forall n, Q n -> T n) ->
  stepped step R P p -> (forall a, stepped step R Q (f a)) ->
  stepped step R T (bind p f).
Proof.
  intros HR HP HQ Hp Hf W h w. specialize (Hp W h w). unfold calls in *.
  rewrite run_bind. destruct (run h p w) as [[[e|a] w1] t1].
  - destruct Hp as [Ho Ha]. split; [exact Ho|].
    eapply Forall_impl; [exact Ha|]. intros c Hc n Hn. auto.
  - specialize (Hf a W h w1). unfold calls in Hf.
    destruct (run h (f a) w1) as [[o2 w2] t2]. simpl in *.
    apply (stepped_app P Q T); assumption.
Qed.

Lemma stepped_await (P : nat -> Prop) {X} (c : call X) :
  (forall n, step (Issued c) = Some n -> P n) ->
  stepped step R P (await c).
Proof.
  intros Hc W h w. unfold calls. rewrite run_await. simpl.
  split; [apply ordered_singleton|]. constructor; [exact Hc|constructor].
Qed.

Lemma stepped_catchError (P : nat -> Prop) {A} (p : prog A)
    (querying t : string) :
  stepped step R P p -> stepped step R P (Airtable.catchError p querying t).
Proof.
  intros Hp W h w. specialize (Hp W h w). unfold calls in *.
  rewrite run_catchError. destruct (run h p w) as [[o w1] t1]. exact Hp.
Qed.

Section Repeated.
Variable P : nat -> Prop.
Hypothesis HR : forall a b, P a -> P b -> R a b.

Lemma stepped_for_of {X S} (xs : list X) (body : X -> S -> prog S) (s : S) :
  (forall x s, stepped step R P (body x s)) ->
  stepped step R P (for_of xs body s).
Proof.
  intros Hbody. revert s. induction xs as [|x xs IH]; intros s.
  - apply stepped_Ret.
  - cbn [for_of]. apply (stepped_bind P P P); auto.
Qed.

Lemma stepped_batch {X} (c : list X -> call unit) (l : list X) :
  (forall b n, step (Issued (c b)) = Some n -> P n) ->
  stepped step R P (Airtable.batch (fun b => await (c b)) l).
Proof.
  intros Hc. unfold Airtable.batch, Airtable.batchAsync.
  induction (Airtable.chunks 10 l) as [|b bs IH]; [apply stepped_Ret|].
  cbn [Airtable.each_batch].
  apply (stepped_bind P P P); auto; [apply stepped_await, Hc|].
  intros r. apply (stepped_bind P P P); auto. intros rs. apply stepped_Ret.
Qed.

End Repeated.

End Stepped.

Section SyncOrder.
Variable PRIMARY_ORG : string.
Variable getYyyyMmDd : value -> value.

#[local] Abbreviation at_step := (fun k n : nat => n = k).
#[local] Abbreviation from_step := (fun k n : nat => (k <= n <= 2)%nat).

Ltac sync_step P Q T :=
  apply (stepped_bind syncStep le P Q T);
  [intros ? ?; simpl; lia|intros ?; simpl; lia|intros ?; simpl; lia| |].

(** X5. Whatever the two services answer, the calls of the sync come in
    three steps: no call but an update or a create follows an update, and
    no call but a create follows a create. *)
Theorem sync_reads_then_updates_then_creates {W} (h : env W) (w : W) :
  ordered syncStep le (calls h (SyncBills.main PRIMARY_ORG getYyyyMmDd) w).
Proof.
  cut (stepped syncStep le (from_step 0%nat)
         (SyncBills.main PRIMARY_ORG getYyyyMmDd)).
  { intros Hs. apply Hs. }
  clear W h w.
  assert (Hread : forall X (c : call X),
             syncStep (Issued c) = Some 0%nat ->
             stepped syncStep le (at_step 0%nat) (await c)).
  { intros X c Hc. apply stepped_await. intros n. rewrite Hc.
    intros [= <-]. reflexivity. }
  assert (Hdata : forall D e (dataFunc : entity_obj e -> D),
             stepped syncStep le (at_step 0%nat)
               (SyncBills.getEntityData e dataFunc)).
  { intros D e dataFunc. unfold SyncBills.getEntityData.
    sync_step (at_step 0%nat) (at_step 0%nat) (at_step 0%nat);
      [apply Hread; reflexivity|intros; apply stepped_Ret]. }
  unfold SyncBills.main, SyncBills.getNames.
  sync_step (at_step 0%nat) (from_step 0%nat) (from_step 0%nat);
    [apply Hread; reflexivity|]. intros _.
  sync_step (at_step 0%nat) (from_step 0%nat) (from_step 0%nat);
    [apply Hread; reflexivity|]. intros sessionId.
  sync_step (at_step 0%nat) (from_step 0%nat) (from_step 0%nat);
    [apply Hdata|]. intros vendors.
  sync_step (at_step 0%nat) (from_step 0%nat) (from_step 0%nat);
    [apply Hdata|]. intros chartOfAccounts.
  sync_step (at_step 0%nat) (from_step 0%nat) (from_step 0%nat);
    [apply Hdata|]. intros customers.
  sync_step (at_step 0%nat) (from_step 0%nat) (from_step 0%nat);
    [apply Hread; reflexivity|]. intros bills.
  sync_step (at_step 0%nat) (from_step 0%nat) (from_step 0%nat).
  { apply stepped_for_of; [intros; simpl; lia|]. intros b ch.
    unfold SyncBills.syncBill.
    sync_step (at_step 0%nat) (at_step 0%nat) (at_step 0%nat);
      [apply Hread; reflexivity|]. intros numPages.
    apply stepped_for_of; [intros; simpl; lia|]. intros item ch'.
    unfold SyncBills.syncItem.
    destruct (item_description item); [apply stepped_Ret|apply stepped_Throw]. }
  intros changes.
  sync_step (at_step 0%nat) (from_step 1%nat) (from_step 0%nat).
  { unfold Airtable.select. apply stepped_catchError.
    sync_step (at_step 0%nat) (at_step 0%nat) (at_step 0%nat);
      [apply Hread; reflexivity|]. intros records.
    rewrite (all_mapped_pure (fun _ => tt)
               (fun r st => SyncBills.stageRecord PRIMARY_ORG r st)).
    apply stepped_Ret. }
  intros [_ [updates changes']].
  sync_step (at_step 1%nat) (from_step 2%nat) (from_step 1%nat).
  { unfold Airtable.update. apply stepped_catchError.
    apply stepped_batch; [intros; simpl; lia|].
    intros b n [= <-]. reflexivity. }
  intros _.
  sync_step (at_step 2%nat) (from_step 2%nat) (from_step 2%nat).
  { unfold Airtable.create. apply stepped_catchError.
    apply stepped_batch; [intros; simpl; lia|].
    intros b n [= <-]. reflexivity. }
  intros _. apply stepped_Ret.
Qed.

End SyncOrder.

(** ** What the sync reads and sends *)

Section FoldSetLast.
Context {X V : Type} (key : X -> string) (val : X -> V).

Lemma foldl_set_get_other (xs : list X) (m : JsMap.t V) (k : string) :
  (forall x, x ∈ xs -> key x <> k) ->
  JsMap.get (foldl (fun m x => JsMap.set m (key x) (val x)) m xs) k
  = JsMap.get m k.
Proof.
  revert m. induction xs as [|x xs IH]; intros m Hne; [reflexivity|].
  cbn [foldl]. rewrite IH by (intros y Hy; apply Hne; right; exact Hy).
  apply get_set_ne. apply Hne. left.
Qed.

Lemma foldl_set_get_last (l1 l2 : list X) (x : X) (m : JsMap.t V) :
  (forall y, y ∈ l2 -> key y <> key x) ->
  JsMap.get (foldl (fun m x => JsMap.set m (key x) (val x)) m
               (l1 ++ x :: l2)) (key x)
  = Some (val x).
Proof.
  intros Hlast. rewrite foldl_app. cbn [foldl].
  rewrite foldl_set_get_other by assumption. apply get_set_eq.
Qed.

End FoldSetLast.

Section EntityData.
Context {W : Type} (h : env W).

(** X6. [getEntityData] issues one [listActive] call. When the call
    rejects, so does [getEntityData], with the same error, not wrapped.
    When it resolves, the Map has one key per id listed, and under the id
    of an entity that no later entity of the list shares it holds
    [dataFunc] of that entity: of several entities with one id, the last
    wins. *)
Theorem getEntityData_last_wins {D} (e : entity)
    (dataFunc : entity_obj e -> D) (w : W) :
  (forall err w1,
      h _ (ListActive e) w = (inl err, w1) ->
      run h (SyncBills.getEntityData e dataFunc) w
      = (inl err, w1, [Issued (ListActive e)]))
  /\ (forall entities w1,
      h _ (ListActive e) w = (inr entities, w1) ->
      exists data,
        run h (SyncBills.getEntityData e dataFunc) w
        = (inr data, w1, [Issued (ListActive e)])
        /\ NoDup (JsMap.keys data)
        /\ (forall k, k ∈ JsMap.keys data
                      <-> exists x, x ∈ entities /\ entity_id x = k)
        /\ (forall earlier x later,
               entities = earlier ++ x :: later ->
               (forall y, y ∈ later -> entity_id y <> entity_id x) ->
               JsMap.get data (entity_id x) = Some (dataFunc x))).
Proof.
  split.
  - intros err w1 Hcall. unfold SyncBills.getEntityData.
    rewrite run_bind, run_await, Hcall. reflexivity.
  - intros entities w1 Hcall. eexists. split; [|split; [|split]].
    + unfold SyncBills.getEntityData.
      rewrite run_bind, run_await, Hcall. reflexivity.
    + apply (foldl_set_NoDup entity_id dataFunc). constructor.
    + intros k.
      rewrite (foldl_set_keys entity_id dataFunc entities [] k).
      split; [intros [Hin|Hx]; [inversion Hin|exact Hx]|auto].
    + intros earlier x later -> Hlast.
      apply (foldl_set_get_last entity_id dataFunc). exact Hlast.
Qed.

End EntityData.

Section ChangesMore.
Import World Reconciliation.
Variable PRIMARY_ORG : string.
Variable getYyyyMmDd : value -> value.

#[local] Abbreviation main := (SyncBills.main PRIMARY_ORG getYyyyMmDd).
#[local] Abbreviation keyOf := (keyOf PRIMARY_ORG).
#[local] Abbreviation changesOf := (changesOf PRIMARY_ORG getYyyyMmDd).
#[local] Abbreviation entryOf := (entryOf PRIMARY_ORG getYyyyMmDd).
#[local] Abbreviation staged := (staged PRIMARY_ORG).


Lemma delete_filter {V} (m : list (string * V)) (k : string) :
  JsMap.delete m k = filter (fun kv => kv.1 <> k) m.
Proof.
  induction m as [|[k' v] m IH]; [reflexivity|]. cbn [JsMap.delete].
  destruct (decide (k' = k)) as [->|Hne].
  - rewrite filter_cons_False by (simpl; auto). exact IH.
  - rewrite filter_cons_True by (simpl; auto). rewrite IH. reflexivity.
Qed.

Lemma staged_rest_filter (ch : list (string * gmap string value)) rs :
  (staged ch rs).2 = filter (fun kv => kv.1 ∉ omap keyOf rs) ch.
Proof.
  revert ch. induction rs as [|r rs IH]; intros ch.
  - simpl. induction ch as [|kv ch IHch]; [reflexivity|].
    rewrite filter_cons_True by apply not_elem_of_nil. f_equal. exact IHch.
  - rewrite staged_cons. cbn [snd]. rewrite IH. cbn [omap list_omap].
    destruct (keyOf r) as [k|]; [|reflexivity].
    rewrite delete_filter, list_filter_filter.
    apply list_filter_iff. intros [k' e]. simpl. set_solver.
Qed.

(** X8. When every line item of the fetch has a description, the field
    sets a run sends for creation are exactly the entries of the Changes
    Map whose key no row of the mirror table holds, each once, in the
    order of the map. *)
Theorem creates_are_the_unmirrored (w : world) :
  described w = true ->
  createsSent table (calls answer main w)
  = map snd (filter (fun kv => kv.1 ∉ omap keyOf (rows w table))
                    (changesOf (login w))).
Proof.
  intros Hdesc.
  rewrite createsSent_main by exact Hdesc. unfold Reconciliation.createsOf.
  rewrite staged_rest_filter. unfold SyncBills.stageCreates.
  apply map_ext_in. intros [k e] Hin. cbn [snd].
  apply list_elem_of_In, list_elem_of_filter in Hin as [_ Hin].
  apply insert_id.
  apply (changesOf_keyed PRIMARY_ORG getYyyyMmDd (login w) k e).
  apply elem_get_Some; [apply changesOf_NoDup|exact Hin].
Qed.

End ChangesMore.

Section OneUpdatePerRow.
Import World Reconciliation.
Variable PRIMARY_ORG : string.
Variable getYyyyMmDd : value -> value.

(** X9. When every line item of the fetch has a description, a run
    sends exactly one update per row of the mirror table, in the order of
    the table, each addressed to the record id of its row. *)
Theorem one_update_per_row (w : world) :
  described w = true ->
  map id (updatesSent table
            (calls answer (SyncBills.main PRIMARY_ORG getYyyyMmDd) w))
  = map (fun r => VStr (getId r)) (rows w table).
Proof.
  intros Hdesc. rewrite updatesSent_main by exact Hdesc. apply staged_ids.
Qed.

#[local] Abbreviation main := (SyncBills.main PRIMARY_ORG getYyyyMmDd).
#[local] Abbreviation keyOf := (keyOf PRIMARY_ORG).
#[local] Abbreviation changesOf := (changesOf PRIMARY_ORG getYyyyMmDd).

(** X22. When every line item of the fetch has a description and the
    key field of the mirror rows is unique, one reconciliation run
    succeeds and leaves, for every line item of the fetch, exactly one
    row of the mirror table whose key field is the line item's id; that
    row has [Active: true] and every field of the entry the Changes Map
    holds for the line item's id, which is the entry computed from this
    line item and its bill when no other fetched line item has the same
    id. *)
Theorem line_item_mirrored_once (w : world) (b : bill) (item : billLineItem)
    (d : string) :
  described w = true ->
  NoDup (map getId (rows w table)) ->
  NoDup (omap keyOf (rows w table)) ->
  b ∈ bills w -> item ∈ billLineItems b -> item_description item = Some d ->
  result answer main w = inr tt
  /\ exists entry r,
       JsMap.get (changesOf (login w)) (item_id item) = Some entry
       /\ ((forall b' item',
               b' ∈ bills w -> item' ∈ billLineItems b' ->
               item_id item' = item_id item -> b' = b /\ item' = item) ->
           entry = entryOf PRIMARY_ORG getYyyyMmDd (login w) b item d)
       /\ filter (fun r => keyOf r = Some (item_id item))
                 (rows (final answer main w) table) = [r]
       /\ get r "Active" = VBool true
       /\ entry ⊆ cells r.
Proof.
  intros Hdesc Hids Hkeys Hb Hitem Hd.
  split; [apply result_main, Hdesc|].
  destruct (changesOf_present PRIMARY_ORG getYyyyMmDd (login w) b item Hb
              Hitem (ex_intro _ d Hd)) as [entry Hentry].
  destruct (line_item_row PRIMARY_ORG getYyyyMmDd (login w) _ entry Hids
              Hkeys Hentry) as (r & Hfilter & Hsub).
  exists entry, r. rewrite final_main by exact Hdesc.
  repeat split; try assumption.
  - intros Hunique.
    apply changesOf_get in Hentry
      as (b' & item' & d' & Hb' & Hitem' & Hd' & Hid & ->).
    destruct (Hunique b' item' Hb' Hitem' Hid) as [-> ->].
    rewrite Hd in Hd'. injection Hd' as <-. reflexivity.
  - apply changesOf_keyed in Hentry as [_ Hactive].
    unfold get. rewrite (lookup_weaken _ _ _ _ Hactive Hsub). reflexivity.
Qed.

(** X23. When every line item of the fetch has a description, the run
    stages, for every mirror row whose key is absent from the fetch, an
    update whose field set is exactly [{Active: false}]; after the run
    the row has [Active: false] and its other fields are unchanged. *)
Theorem absent_row_deactivated (w : world) (i : nat) (r : record) :
  described w = true ->
  NoDup (map getId (rows w table)) ->
  rows w table !! i = Some r ->
  (forall b item, b ∈ bills w -> item ∈ billLineItems b ->
                  keyOf r <> Some (item_id item)) ->
  updatesSent table (calls answer main w) !! i
  = Some (UpdateSpec (VStr (getId r)) {["Active"%string := VBool false]})
  /\ rows (final answer main w) table !! i
     = Some (Record (getId r) (<["Active"%string := VBool false]> (cells r))).
Proof.
  intros Hdesc Hids Hi Habsent.
  assert (Hfields : fieldsFor PRIMARY_ORG (changesOf (login w))
                      (take i (rows w table)) r = deactivate).
  { unfold Reconciliation.fieldsFor.
    destruct (keyOf r) as [k|] eqn:Hk; [|reflexivity].
    case_decide; [reflexivity|].
    destruct (JsMap.get (changesOf (login w)) k) as [e|] eqn:Hget;
      [|reflexivity].
    apply changesOf_get in Hget as (b & item & d & Hb & Hitem & _ & <- & _).
    exfalso. exact (Habsent b item Hb Hitem eq_refl). }
  split.
  - rewrite updatesSent_main by exact Hdesc. unfold Reconciliation.updatesOf.
    rewrite (staged_lookup PRIMARY_ORG _ _ i r Hi), Hfields. reflexivity.
  - rewrite final_main by exact Hdesc.
    rewrite (rows_synced PRIMARY_ORG getYyyyMmDd (login w)) by exact Hids.
    rewrite lookup_app_l.
    + unfold Reconciliation.updatesOf.
      rewrite (updated_lookup PRIMARY_ORG _ _ i r Hi), Hfields.
      unfold merge, deactivate. simpl.
      rewrite <- insert_union_singleton_l. reflexivity.
    + rewrite length_zip_with_l_eq;
        [eapply lookup_lt_Some, Hi|symmetry; apply staged_length].
Qed.

(** X24. When every line item of the fetch has a description, several
    mirror rows hold the same key and the Changes Map has an entry for
    it, the run does not fail: the first such row of the stream receives
    the entry (which is then deleted from the map) and every later row
    with that key receives only [{Active: false}]. *)
Theorem duplicate_key_first_wins (w : world) (i : nat) (r : record)
    (k : string) (entry : gmap string value) :
  described w = true ->
  rows w table !! i = Some r ->
  keyOf r = Some k ->
  JsMap.get (changesOf (login w)) k = Some entry ->
  let sent := updatesSent table (calls answer main w) in
  result answer main w = inr tt
  /\ ((forall j r', (j < i)%nat -> rows w table !! j = Some r' ->
                    keyOf r' <> Some k) ->
      sent !! i = Some (UpdateSpec (VStr (getId r)) entry)
      /\ JsMap.get (staged PRIMARY_ORG (changesOf (login w))
                      (take (S i) (rows w table))).2 k = None)
  /\ ((exists j r', (j < i)%nat /\ rows w table !! j = Some r'
                    /\ keyOf r' = Some k) ->
      sent !! i
      = Some (UpdateSpec (VStr (getId r)) {["Active"%string := VBool false]})).
Proof.
  intros Hdesc Hi Hk Hget sent. subst sent.
  rewrite updatesSent_main by exact Hdesc.
  unfold Reconciliation.updatesOf.
  rewrite (staged_lookup PRIMARY_ORG _ _ i r Hi).
  unfold Reconciliation.fieldsFor. rewrite Hk, Hget.
  split; [apply result_main, Hdesc|]. split.
  - intros Hfirst. split.
    + rewrite decide_False; [reflexivity|].
      intros Hin. apply list_elem_of_omap in Hin as (r' & Hr' & Hk').
      apply list_elem_of_lookup in Hr' as [j Hj].
      pose proof (lookup_lt_Some _ _ _ Hj) as Hlt.
      rewrite length_take in Hlt. rewrite lookup_take_lt in Hj by lia.
      apply (Hfirst j r'); [lia|assumption|assumption].
    + rewrite staged_rest_get, decide_True; [reflexivity|].
      apply list_elem_of_omap. exists r. split; [|assumption].
      apply list_elem_of_lookup. exists i.
      rewrite lookup_take_lt by lia. assumption.
  - intros (j & r' & Hlt & Hj & Hk').
    rewrite decide_True; [reflexivity|].
    apply list_elem_of_omap. exists r'. split; [|assumption].
    apply list_elem_of_lookup. exists j.
    rewrite lookup_take_lt by lia. assumption.
Qed.

End OneUpdatePerRow.

Section DocumentPages.
Import World Reconciliation.
Variable PRIMARY_ORG : string.
Variable getYyyyMmDd : value -> value.

Lemma changeFor_SupportingDocuments vendors chartOfAccounts customers
    (b : bill) (docs : list attachment) (item : billLineItem) (d : string) :
  SyncBills.changeFor PRIMARY_ORG getYyyyMmDd vendors chartOfAccounts
    customers b docs item d !! "Supporting Documents"%string
  = Some (VArr (map VAttachment docs)).
Proof. unfold SyncBills.changeFor. object_lookup. Qed.

(** X10. The Supporting Documents of a mirrored line item are one
    document per page of its bill, in page order, each with the url of
    the page image for the bill, the session and the page number, counted
    from 1; a bill without pages has none. *)
Theorem one_document_per_page (w : world) (b : bill) (item : billLineItem)
    (d : string) :
  exists docs,
    entryOf PRIMARY_ORG getYyyyMmDd w b item d
      !! "Supporting Documents"%string
    = Some (VArr (map VAttachment docs))
    /\ length docs = Z.to_nat (documentPages w (bill_id b))
    /\ forall k : nat,
         (k < length docs)%nat ->
         docs !! k
         = Some {| url :=
                     "https://api.bill.com/is/BillImageServlet?entityId="
                       +:+ bill_id b +:+ "&sessionId=" +:+ session w
                       +:+ "&pageNumber=" +:+ pretty (Z.of_nat k + 1);
                   filename := None |}.
Proof.
  eexists. split; [|split].
  - unfold Reconciliation.entryOf. apply changeFor_SupportingDocuments.
  - unfold SyncBills.documents. rewrite length_map, length_seqZ. reflexivity.
  - intros k Hk. unfold SyncBills.documents in *.
    rewrite length_map, length_seqZ in Hk.
    change (map ?f ?l) with (f <$> l). rewrite list_lookup_fmap.
    rewrite lookup_seqZ_lt by lia. simpl.
    replace (1 + Z.of_nat k) with (Z.of_nat k + 1) by lia. reflexivity.
Qed.

End DocumentPages.

(** ** The last group of the merchant pattern *)

Section LastGroup.

#[local] Abbreviation chars := list_ascii_of_string.

Lemma match_here_split (re1 re2 : list token) (s : list ascii)
    (gs : list (string * list ascii)) :
  match_here (re1 ++ re2) s = Some gs ->
  exists gs1 gs2 s2,
    gs = gs1 ++ gs2 /\ map fst gs1 = group_names re1
    /\ s = matched_text re1 gs1 ++ s2 /\ match_here re2 s2 = Some gs2.
Proof.
  revert s gs. induction re1 as [|[text|name] re1 IH]; intros s gs; simpl.
  - intros Hm. exists [], gs, s. auto.
  - destruct (strip_prefix text s) as [s'|] eqn:Hstrip; [|discriminate].
    apply strip_prefix_Some in Hstrip as ->. intros Hm.
    destruct (IH _ _ Hm) as (gs1 & gs2 & s2 & -> & Hnames & -> & Hm2).
    exists gs1, gs2, s2. rewrite app_assoc. auto.
  - destruct (plus_dot (match_here (re1 ++ re2)) s) as [[g gs']|] eqn:Hplus;
      [|discriminate].
    intros [= <-]. apply plus_dot_sound in Hplus as (_ & r & -> & Hm).
    destruct (IH _ _ Hm) as (gs1 & gs2 & s2 & -> & Hnames & -> & Hm2).
    exists ((name, g) :: gs1), gs2, s2. simpl. rewrite Hnames, app_assoc.
    auto.
Qed.

Lemma plus_dot_total {R} (v : R) (s g : list ascii) (v' : R) :
  plus_dot (fun _ => Some v) s = Some (g, v') ->
  forallb is_dot g = true /\ exists r, s = g ++ r /\ stops r.
Proof.
  revert g v'. induction s as [|c s IH]; intros g v'; simpl; [discriminate|].
  destruct (is_dot c) eqn:Hc; [|discriminate].
  destruct (plus_dot (fun _ => Some v) s) as [[g0 v0]|] eqn:Hrest.
  - intros [= <- _]. destruct (IH g0 v0 eq_refl) as (Hdots & r & -> & Hstop).
    split; [simpl; rewrite Hc; exact Hdots|]. exists r. auto.
  - intros [= <- _]. split; [simpl; rewrite Hc; reflexivity|].
    exists s. split; [reflexivity|].
    destruct s as [|c1 s1]; [exact I|]. simpl in Hrest |- *.
    destruct (is_dot c1); [|reflexivity].
    destruct (plus_dot (fun _ => Some v) s1) as [[? ?]|]; discriminate.
Qed.

Lemma dot_prefix_unique (g1 g2 r1 r2 : list ascii) :
  forallb is_dot g1 = true -> forallb is_dot g2 = true ->
  stops r1 -> stops r2 -> g1 ++ r1 = g2 ++ r2 -> g1 = g2.
Proof.
  revert g2. induction g1 as [|c g1 IH]; intros [|c' g2] H1 H2 S1 S2 Heq;
    simpl in *.
  - reflexivity.
  - subst r1. simpl in S1. apply andb_true_iff in H2 as [H2 _]. congruence.
  - subst r2. simpl in S2. apply andb_true_iff in H1 as [H1 _]. congruence.
  - injection Heq as -> Heq. apply andb_true_iff in H1 as [_ H1].
    apply andb_true_iff in H2 as [_ H2]. f_equal. eauto.
Qed.

Lemma merchant_description_here (d n a c st z first rest : list ascii) :
  capture d -> capture n -> capture a -> capture c -> capture st ->
  capture z -> "|"%char ∉ c -> "|"%char ∉ st -> "|"%char ∉ z ->
  capture first -> stops rest ->
  match_here SyncBills.merchantRegex
    (d ++ "010"%char :: n ++ "010"%char :: a ++ "010"%char :: c
       ++ " "%char :: "|"%char :: " "%char :: st
       ++ " "%char :: "|"%char :: " "%char :: z
       ++ "010"%char :: first ++ rest)
  = Some [("date"%string, d); ("name"%string, n); ("address"%string, a);
          ("city"%string, c); ("state"%string, st); ("zip"%string, z);
          ("description"%string, first)].
Proof.
  intros Cd Cn Ca Cc Cst Cz Bc Bst Bz [Hne Hfirst] Hrest.
  destruct first as [|c0 first']; [congruence|].
  pose proof Hfirst as Hc0. simpl in Hc0.
  apply andb_true_iff in Hc0 as [Hc0 _].
  destruct (merchant_here d n a c st z c0 (first' ++ rest)) as [de Hhere];
    try assumption.
  rewrite <- app_comm_cons. rewrite Hhere. do 8 f_equal.
  change SyncBills.merchantRegex
    with ([Group "date"; lit nl; Group "name"; lit nl; Group "address";
           lit nl; Group "city"; lit " | "; Group "state"; lit " | ";
           Group "zip"; lit nl] ++ [Group "description"]) in Hhere.
  apply match_here_split in Hhere
    as (gs1 & gs2 & s2 & Hgs & Hnames & Htext & Hlast).
  destruct gs1 as [|[k1 g1] [|[k2 g2] [|[k3 g3] [|[k4 g4] [|[k5 g5]
    [|[k6 g6] [|? ?]]]]]]]; try discriminate.
  injection Hgs as _ <- _ <- _ <- _ <- _ <- _ <- <-.
  cbn [matched_text lit nl list_ascii_of_string] in Htext.
  repeat first [rewrite <- app_assoc in Htext
               | rewrite <- app_comm_cons in Htext].
  cbn [app] in Htext.
  repeat (apply app_inv_head in Htext; injection Htext as Htext).
  cbn [match_here] in Hlast.
  destruct (plus_dot (fun _ => Some []) s2) as [[g gs']|] eqn:Hplus;
    [|discriminate].
  injection Hlast as <- _.
  apply plus_dot_total in Hplus as (Hdots & r & -> & Hstop).
  f_equal. symmetry.
  apply (dot_prefix_unique (c0 :: first') g rest r); assumption.
Qed.

End LastGroup.

Section MirrorDescription.
Import World Reconciliation.
Variable PRIMARY_ORG : string.
Variable getYyyyMmDd : value -> value.

#[local] Abbreviation chars := list_ascii_of_string.

Lemma changeFor_Description vendors chartOfAccounts customers (b : bill)
    (docs : list attachment) (item : billLineItem) (d : string) :
  SyncBills.changeFor PRIMARY_ORG getYyyyMmDd vendors chartOfAccounts
    customers b docs item d !! "Description"%string
  = Some (js_or
            (SyncBills.description
               (SyncBills.itemVendorOf
                  (default SyncBills.empty_object
                     (JsMap.get vendors (vendorId b))) d))
            (VStr d)).
Proof. unfold SyncBills.changeFor. object_lookup. Qed.

Lemma ends_line_stops (s : string) : ends_line s = true -> stops (chars s).
Proof.
  destruct s as [|c s]; simpl; [trivial|]. intros H.
  apply negb_true_iff in H. exact H.
Qed.

(** X11. When the merchant pattern matches, the mirrored Description is
    the first line of the free text that follows the zip line: whatever
    comes after its first line terminator is dropped. *)
Theorem mirrored_description_is_first_line (w : world) (b : bill)
    (item : billLineItem) (d : string)
    (date name address city state zip first rest : string) :
  single_line date = true -> single_line name = true ->
  single_line address = true -> single_line city = true ->
  single_line state = true -> single_line zip = true ->
  bar_free city = true -> bar_free state = true -> bar_free zip = true ->
  single_line first = true -> ends_line rest = true ->
  item_description item = Some d ->
  d = date +:+ nl +:+ name +:+ nl +:+ address +:+ nl +:+ city +:+ " | "
        +:+ state +:+ " | " +:+ zip +:+ nl +:+ first +:+ rest ->
  entryOf PRIMARY_ORG getYyyyMmDd w b item d !! "Description"%string
  = Some (VStr first).
Proof.
  intros Hd Hn Ha Hc Hst Hz Bc Bst Bz Hfirst Hrest _ Hdesc.
  unfold Reconciliation.entryOf. rewrite changeFor_Description.
  unfold SyncBills.itemVendorOf, js_match. rewrite Hdesc, !chars_app.
  cbn [nl list_ascii_of_string app].
  rewrite (search_here _ _ _
             (merchant_description_here (chars date) (chars name)
                (chars address) (chars city) (chars state) (chars zip)
                (chars first) (chars rest)
                (single_line_capture _ Hd) (single_line_capture _ Hn)
                (single_line_capture _ Ha) (single_line_capture _ Hc)
                (single_line_capture _ Hst) (single_line_capture _ Hz)
                (bar_free_chars _ Bc) (bar_free_chars _ Bst)
                (bar_free_chars _ Bz) (single_line_capture _ Hfirst)
                (ends_line_stops _ Hrest))).
  unfold SyncBills.groups, group_of. simpl.
  rewrite string_of_list_ascii_of_string. unfold js_or. simpl.
  unfold single_line in Hfirst. apply andb_true_iff in Hfirst as [-> _].
  reflexivity.
Qed.

End MirrorDescription.

(** ** The calls of the bill-creation workflow and their order *)

Section BillCalls.
Variable PRIMARY_ORG_BILL_COM_ID : string.
Variable finalApproverUserId : value.
Variable P : issued -> Prop.

#[local] Abbreviation ID := PRIMARY_ORG_BILL_COM_ID.

Lemma only_at0 (v : value) : only P (CreateBill.at0 v).
Proof.
  destruct v as [| | | |[|c s]| |]; first [apply only_Ret|apply only_Throw].
Qed.

Lemma only_iterate (v : value) : only P (CreateBill.iterate v).
Proof. destruct v; first [apply only_Ret|apply only_Throw]. Qed.

Lemma only_as_array (v : value) : only P (CreateBill.as_array v).
Proof. destruct v; first [apply only_Ret|apply only_Throw]. Qed.

Lemma only_substring (v : value) (a b : nat) :
  only P (CreateBill.substring v a b).
Proof. destruct v; first [apply only_Ret|apply only_Throw]. Qed.

Lemma only_toString (v : value) : only P (CreateBill.toString v).
Proof. destruct v; first [apply only_Ret|apply only_Throw]. Qed.

Lemma only_property (read : attachment -> value) (v : value) :
  only P (CreateBill.property read v).
Proof. destruct v; first [apply only_Ret|apply only_Throw]. Qed.

Lemma only_invoiceIdOf (req : record) : only P (CreateBill.invoiceIdOf req).
Proof.
  unfold CreateBill.invoiceIdOf.
  destruct (truthy (get req "Vendor Invoice ID")); [apply only_Ret|].
  apply only_bind; [apply only_substring|]. intros s. apply only_Ret.
Qed.

Lemma only_update_one (t : string) (u : update_spec) :
  P (Issued (Update t [u])) -> only P (Airtable.update t [u]).
Proof.
  intros Hc. apply only_catchError.
  unfold Airtable.batch, Airtable.batchAsync.
  change (Airtable.chunks 10 [u]) with [[u]]. cbn [Airtable.each_batch].
  apply only_bind; [apply only_await, Hc|].
  intros r. apply only_bind; [apply only_Ret|]. intros rs. apply only_Ret.
Qed.

Hypothesis lookups :
  forall t id, t ∈ lookupTables -> P (Issued (Find t id)).

Ltac listed :=
  unfold lookupTables; rewrite !elem_of_cons; tauto.

Lemma only_getBillComId (t : string) (v : value) :
  t ∈ lookupTables -> only P (CreateBill.getBillComId ID t v).
Proof.
  intros Ht. apply only_find; [apply lookups, Ht|]. intros; apply only_Ret.
Qed.

Lemma only_lineItems (req : record) : only P (CreateBill.lineItems ID req).
Proof.
  unfold CreateBill.lineItems.
  apply only_bind; [apply only_iterate|]. intros itemIds.
  apply only_for_of. intros itemId items.
  apply only_bind; [|intros; apply only_Ret].
  apply only_find; [apply lookups; listed|]. intros item.
  unfold CreateBill.lineItem. apply only_bind.
  - destruct (is_nullish (get item "Category")); [apply only_Ret|].
    apply only_bind; [apply only_at0|]. intros category0.
    apply only_getBillComId. listed.
  - intros chartOfAccountId.
    apply only_bind; [apply only_at0|]. intros project.
    apply only_bind; [apply only_getBillComId; listed|].
    intros; apply only_Ret.
Qed.

Lemma only_approver_lookups (aids : list value) :
  only P (all_mapped (AsyncFunction (CreateBill.getBillComId ID "Users"))
                     aids tt).
Proof.
  apply only_all_mapped. intros aid. apply only_getBillComId; listed.
Qed.

Hypothesis vendors : forall data, P (Issued (CreateVendor data)).
Hypothesis writeBacks :
  forall u, P (Issued (Update CreateBill.NEW_VENDORS_TABLE [u])).

Lemma only_resolveVendor (req : record) :
  only P (CreateBill.resolveVendor ID req).
Proof.
  unfold CreateBill.resolveVendor.
  destruct (truthy (get req "New Vendor?")).
  - apply only_bind; [apply only_at0|]. intros newVendorId.
    apply only_bind.
    + apply only_find; [apply lookups; listed|]. intros newVendor.
      apply only_bind; [apply only_toString|]. intros zipCode.
      apply only_await, vendors.
    + intros vendorId. apply only_bind; [|intros; apply only_Ret].
      apply only_update_one, writeBacks.
  - apply only_bind; [apply only_at0|]. intros vendor.
    apply only_getBillComId. listed.
Qed.

Hypothesis approvals :
  forall objectId e approvers, P (Issued (SetApprovers objectId e approvers)).

Lemma only_setApprovers (req : record) (newBillId : value) :
  only P (CreateBill.setApprovers ID finalApproverUserId req newBillId).
Proof.
  unfold CreateBill.setApprovers. apply only_bind; [apply only_as_array|].
  intros ids. apply only_bind; [apply only_approver_lookups|].
  intros [billComIds u]. apply only_await, approvals.
Qed.

Lemma only_createBill (req : record) :
  (forall vendorId invoiceId items,
      P (Issued
           (CreateBill
              {| bd_vendorId := vendorId;
                 bd_invoiceNumber := invoiceId;
                 bd_invoiceDate := get req "Expense Date";
                 bd_dueDate := get req "Due Date";
                 bd_description :=
                   "Submitted by " ++ to_string (get req "Requester Name")
                     ++ " (" ++ to_string (get req "Requester Email")
                     ++ ").";
                 bd_billLineItems := items |}))) ->
  only P (CreateBill.createBill ID finalApproverUserId req).
Proof.
  intros Hbill. unfold CreateBill.createBill.
  apply only_bind; [apply only_resolveVendor|]. intros vendorId.
  apply only_bind; [apply only_lineItems|]. intros items.
  apply only_bind; [apply only_invoiceIdOf|]. intros invoiceId.
  apply only_bind; [apply only_await, Hbill|]. intros newBillId.
  apply only_bind; [apply only_setApprovers|]. intros; apply only_Ret.
Qed.

Lemma only_uploadDocuments (req : record) (newBillId : value) :
  P (Issued GetDevKey) -> P (Issued GetSessionId) ->
  (forall docUrl, P (Issued (Fetch docUrl))) ->
  (forall devKey sessionId file fileName,
      P (Issued (UploadAttachment devKey sessionId file fileName newBillId))) ->
  only P (CreateBill.uploadDocuments req newBillId).
Proof.
  intros Hkey Hsession Hfetch Hupload. unfold CreateBill.uploadDocuments.
  apply only_bind; [apply only_await, Hkey|]. intros devKey.
  apply only_bind; [apply only_await, Hsession|]. intros sessionId.
  apply only_bind; [apply only_iterate|]. intros docs.
  apply only_for_of. intros doc u. unfold CreateBill.uploadDocument.
  apply only_bind; [apply only_property|]. intros docUrl.
  apply only_bind; [apply only_await, Hfetch|]. intros response.
  apply only_bind.
  - destruct (ok response); [apply only_Ret|].
    apply only_bind; [apply only_property|]. intros f. apply only_Throw.
  - intros _. apply only_bind; [apply only_property|]. intros f.
    apply only_await, Hupload.
Qed.

End BillCalls.

Section BillCreationCalls.
Variable PRIMARY_ORG_BILL_COM_ID : string.
Variable finalApproverUserId : value.

(** X12. Whatever the services answer, the bill-creation script creates
    no Airtable record and selects nothing but the view 'New' of Check
    Requests; it updates one record per call, in New Vendors and Check
    Requests only, and looks records up in six tables only. *)
Theorem bill_creation_touches {W} (h : env W) (w : W) :
  Forall billCall
    (calls h (CreateBill.main PRIMARY_ORG_BILL_COM_ID finalApproverUserId) w).
Proof.
  revert W h w.
  change (only billCall
            (CreateBill.main PRIMARY_ORG_BILL_COM_ID finalApproverUserId)).
  assert (Hfind : forall t id, t ∈ lookupTables -> billCall (Issued (Find t id)))
    by (intros t id Ht; exact Ht).
  assert (Hone : forall t u,
             t = CreateBill.NEW_VENDORS_TABLE
             \/ t = CreateBill.CHECK_REQUESTS_TABLE ->
             billCall (Issued (Update t [u])))
    by (intros t u Ht; split; [exact Ht|reflexivity]).
  unfold CreateBill.main.
  apply only_bind; [apply only_await; exact I|]. intros _.
  apply only_bind; [|intros; apply only_Ret].
  unfold Airtable.selectAndUpdate.
  apply only_select; [split; reflexivity|]. intros r.
  unfold Airtable.updateFields, CreateBill.checkRequestFields.
  apply only_bind.
  - apply only_bind.
    + apply only_createBill; try assumption; try (intros; exact I).
      intros u. apply Hone. left. reflexivity.
    + intros [invoiceId newBillId].
      apply only_bind; [|intros; apply only_Ret].
      apply only_uploadDocuments; intros; exact I.
  - intros [fs|]; [|apply only_Ret].
    apply only_bind; [|intros; apply only_Ret].
    apply only_update_one, Hone. right. reflexivity.
Qed.

End BillCreationCalls.

Section Stepless.
Variable step : issued -> option nat.
Variable R : nat -> nat -> Prop.

#[local] Abbreviation stepless := (only (fun c => step c = None)).

Lemma stepless_stepped (P : nat -> Prop) {A} (p : prog A) :
  stepless p -> stepped step R P p.
Proof.
  intros Hp W h w. specialize (Hp W h w). rewrite Forall_forall in Hp. split.
  - intros i j c1 c2 a b _ Hi _ Ha _.
    rewrite (Hp c1) in Ha by (eapply list_elem_of_lookup_2, Hi).
    discriminate.
  - apply Forall_forall. intros c Hc n Hn. rewrite (Hp c Hc) in Hn.
    discriminate.
Qed.

Lemma stepped_after (P : nat -> Prop) {A B} (p : prog A) (f : A -> prog B) :
  stepless p -> (forall a, stepped step R P (f a)) ->
  stepped step R P (bind p f).
Proof.
  intros Hp Hf.
  apply (stepped_bind step R (fun _ => False) P P); try tauto.
  apply stepless_stepped, Hp.
Qed.

Lemma stepped_before (P : nat -> Prop) {A B} (p : prog A) (f : A -> prog B) :
  stepped step R P p -> (forall a, stepless (f a)) ->
  stepped step R P (bind p f).
Proof.
  intros Hp Hf.
  apply (stepped_bind step R P (fun _ => False) P); try tauto.
  intros a. apply stepless_stepped, Hf.
Qed.

Lemma stepped_find (P : nat -> Prop) {A} (t : string) (id : value)
    (func : record -> prog A) :
  step (Issued (Find t id)) = None ->
  (forall r, stepped step R P (func r)) ->
  stepped step R P (Airtable.find t id func).
Proof.
  intros Hc Hfunc. apply stepped_catchError, stepped_after; [|exact Hfunc].
  apply only_await, Hc.
Qed.

Lemma stepped_update_one (P : nat -> Prop) (t : string) (u : update_spec) :
  (forall n, step (Issued (Update t [u])) = Some n -> P n) ->
  stepped step R P (Airtable.update t [u]).
Proof.
  intros Hc. apply stepped_catchError.
  unfold Airtable.batch, Airtable.batchAsync.
  change (Airtable.chunks 10 [u]) with [[u]]. cbn [Airtable.each_batch].
  apply stepped_before; [apply stepped_await, Hc|].
  intros r. apply only_bind; [apply only_Ret|]. intros rs. apply only_Ret.
Qed.

End Stepless.

Section BillOrder.
Variable PRIMARY_ORG_BILL_COM_ID : string.
Variable finalApproverUserId : value.

#[local] Abbreviation T := (CreateBill.CHECK_REQUESTS_TABLE).
#[local] Abbreviation checkRequestFields :=
  (CreateBill.checkRequestFields PRIMARY_ORG_BILL_COM_ID finalApproverUserId).
#[local] Abbreviation stepless := (only (fun c => billStep c = None)).
#[local] Abbreviation steps := (stepped billStep billOrder).
#[local] Abbreviation upto := (fun k n : nat => (n <= k)%nat).
#[local] Abbreviation at_step := (fun k n : nat => n = k).

Ltac bill_step P Q S :=
  apply (stepped_bind billStep billOrder P Q S);
  [unfold billOrder; intros ? ?; simpl; lia
  |intros ?; simpl; lia|intros ?; simpl; lia| |].

Lemma steps_resolveVendor (req : record) :
  steps (upto 1%nat) (CreateBill.resolveVendor PRIMARY_ORG_BILL_COM_ID req).
Proof.
  unfold CreateBill.resolveVendor.
  destruct (truthy (get req "New Vendor?")).
  - apply stepped_after; [apply only_at0|]. intros newVendorId.
    bill_step (at_step 0%nat) (at_step 1%nat) (upto 1%nat).
    + apply stepped_find; [reflexivity|]. intros newVendor.
      apply stepped_after; [apply only_toString|]. intros zipCode.
      apply stepped_await. intros n [= <-]. reflexivity.
    + intros vendorId. apply stepped_before; [|intros; apply only_Ret].
      apply stepped_update_one. intros n [= <-]. reflexivity.
  - apply stepless_stepped.
    apply only_bind; [apply only_at0|]. intros vendor.
    apply only_getBillComId; [reflexivity|].
    unfold lookupTables. rewrite !elem_of_cons. tauto.
Qed.

Lemma stepless_lineItems (req : record) :
  stepless (CreateBill.lineItems PRIMARY_ORG_BILL_COM_ID req).
Proof. apply only_lineItems. reflexivity. Qed.

Lemma steps_setApprovers (req : record) (newBillId : value) :
  steps (at_step 3%nat)
    (CreateBill.setApprovers PRIMARY_ORG_BILL_COM_ID finalApproverUserId
       req newBillId).
Proof.
  unfold CreateBill.setApprovers.
  apply stepped_after; [apply only_as_array|]. intros ids.
  apply stepped_after; [apply only_approver_lookups; reflexivity|].
  intros [billComIds u].
  apply stepped_await. intros n [= <-]. reflexivity.
Qed.

Lemma steps_uploadDocuments (req : record) (newBillId : value) :
  steps (at_step 4%nat) (CreateBill.uploadDocuments req newBillId).
Proof.
  unfold CreateBill.uploadDocuments.
  apply stepped_after; [apply only_await; reflexivity|]. intros devKey.
  apply stepped_after; [apply only_await; reflexivity|]. intros sessionId.
  apply stepped_after; [apply only_iterate|]. intros docs.
  apply stepped_for_of; [unfold billOrder; intros; simpl; lia|].
  intros doc u. unfold CreateBill.uploadDocument.
  apply stepped_after; [apply only_property|]. intros docUrl.
  bill_step (at_step 4%nat) (at_step 4%nat) (at_step 4%nat).
  { apply stepped_await. intros n [= <-]. reflexivity. }
  intros response. apply stepped_after.
  - destruct (ok response); [apply only_Ret|].
    apply only_bind; [apply only_property|]. intros f. apply only_Throw.
  - intros _. apply stepped_after; [apply only_property|]. intros f.
    apply stepped_await. intros n [= <-]. reflexivity.
Qed.

(** X13. Whatever the services answer, the processing of one Check
    Request takes its steps in order, each once at most: the vendor is
    created, its id is written back to New Vendors, the bill is created,
    its approvers are set, the documents are fetched and uploaded, and the
    Check Request is updated last. *)
Theorem bill_steps_in_order {W} (h : env W) (req : record) (w : W) :
  ordered billStep billOrder
    (calls h (Airtable.updateWith T checkRequestFields req) w).
Proof.
  cut (steps (upto 5%nat) (Airtable.updateWith T checkRequestFields req)).
  { intros Hs. apply Hs. }
  clear W h w. unfold Airtable.updateWith.
  bill_step (upto 4%nat) (at_step 5%nat) (upto 5%nat).
  - unfold CreateBill.checkRequestFields.
    bill_step (upto 3%nat) (at_step 4%nat) (upto 4%nat).
    + unfold CreateBill.createBill.
      bill_step (upto 1%nat) (fun n => 2 <= n <= 3)%nat (upto 3%nat);
        [apply steps_resolveVendor|]. intros vendorId.
      apply stepped_after; [apply stepless_lineItems|]. intros items.
      apply stepped_after; [apply only_invoiceIdOf|]. intros invoiceId.
      bill_step (at_step 2%nat) (at_step 3%nat) (fun n => 2 <= n <= 3)%nat.
      * apply stepped_await. intros n [= <-]. reflexivity.
      * intros newBillId.
        apply stepped_before; [apply steps_setApprovers|].
        intros; apply only_Ret.
    + intros [invoiceId newBillId].
      apply stepped_before; [apply steps_uploadDocuments|].
      intros; apply only_Ret.
  - intros [fs|]; [|apply stepped_Ret].
    apply stepped_before; [|intros; apply only_Ret].
    apply stepped_update_one. intros n [= <-]. reflexivity.
Qed.

End BillOrder.

(** ** The parts of the bill-creation workflow *)

Section Workflow.
Variable PRIMARY_ORG_BILL_COM_ID : string.
Variable finalApproverUserId : value.
Context {W : Type} (h : env W).

#[local] Abbreviation ID := PRIMARY_ORG_BILL_COM_ID.
#[local] Abbreviation resolveVendor := (CreateBill.resolveVendor ID).
#[local] Abbreviation getBillComId := (CreateBill.getBillComId ID).

Lemma run_getBillComId (t : string) (aid : value) (w : W) :
  run h (getBillComId t aid) w
  = (match (h _ (Find t aid) w).1 with
     | inl e => inl (Airtable.wrapped "finding" t e)
     | inr r => inr (get r ID)
     end, (h _ (Find t aid) w).2, [Issued (Find t aid)]).
Proof.
  unfold CreateBill.getBillComId, Airtable.find.
  rewrite run_catchError, run_bind, run_await.
  destruct (h _ (Find t aid) w) as [[e|r] w1]; reflexivity.
Qed.

(** X14. The vendor of a request. For a new vendor with a Zip Code, the
    linked New Vendors row is looked up, the vendor is created from its
    fields, and the id Bill.com answers is written to that row and is the
    vendor of the bill. Without a Zip Code the lookup is reported as
    failed, with a TypeError, and no vendor is created. Otherwise the
    vendor is the Bill.com id of the first linked Existing Vendors row,
    and nothing is written. *)
Theorem vendor_resolution (req : record) (w : W) :
  (forall newVendorId rest newVendor vendorId w1 w2 w3,
      truthy (get req "New Vendor?") = true ->
      get req "New Vendor" = VArr (newVendorId :: rest) ->
      h _ (Find CreateBill.NEW_VENDORS_TABLE newVendorId) w
      = (inr newVendor, w1) ->
      is_nullish (get newVendor "Zip Code") = false ->
      let data :=
        {| vd_name := get newVendor "Name";
           vd_address1 := get newVendor "Address Line 1";
           vd_address2 := get newVendor "Address Line 2";
           vd_addressCity := get newVendor "City";
           vd_addressState := get newVendor "State";
           vd_addressZip := to_string (get newVendor "Zip Code");
           vd_addressCountry := get newVendor "Country";
           vd_email := get newVendor "Email";
           vd_phone := get newVendor "Phone" |} in
      let writeBack :=
        Update CreateBill.NEW_VENDORS_TABLE
          [UpdateSpec newVendorId {[ID := vendorId]}] in
      h _ (CreateVendor data) w1 = (inr vendorId, w2) ->
      h _ writeBack w2 = (inr tt, w3) ->
      run h (resolveVendor req) w
      = (inr vendorId, w3,
         [Issued (Find CreateBill.NEW_VENDORS_TABLE newVendorId);
          Issued (CreateVendor data); Issued writeBack]))
  /\ (forall newVendorId rest newVendor w1,
      truthy (get req "New Vendor?") = true ->
      get req "New Vendor" = VArr (newVendorId :: rest) ->
      h _ (Find CreateBill.NEW_VENDORS_TABLE newVendorId) w
      = (inr newVendor, w1) ->
      is_nullish (get newVendor "Zip Code") = true ->
      exists m,
        run h (resolveVendor req) w
        = (inl (Error ("Error finding records in Airtable Table New Vendors: "
                         +:+ "TypeError: " +:+ m)),
           w1, [Issued (Find CreateBill.NEW_VENDORS_TABLE newVendorId)]))
  /\ (forall vendor rest row w1,
      truthy (get req "New Vendor?") = false ->
      get req "Vendor" = VArr (vendor :: rest) ->
      h _ (Find "Existing Vendors" vendor) w = (inr row, w1) ->
      run h (resolveVendor req) w
      = (inr (get row ID), w1, [Issued (Find "Existing Vendors" vendor)])).
Proof.
  split; [|split].
  - intros newVendorId rest newVendor vendorId w1 w2 w3 Hnew Hlink
      Hfind Hzip data writeBack Hcreate Hwrite.
    assert (Hstr : CreateBill.toString (get newVendor "Zip Code")
                   = Ret (to_string (get newVendor "Zip Code"))).
    { destruct (get newVendor "Zip Code"); try discriminate; reflexivity. }
    unfold CreateBill.resolveVendor. rewrite Hnew, Hlink.
    cbn [CreateBill.at0 head default from_option Datatypes.id bind].
    rewrite run_bind. unfold Airtable.find.
    rewrite run_catchError, run_bind, run_await, Hfind. cbn [fst snd].
    rewrite Hstr. cbn [bind]. rewrite run_await.
    fold data. rewrite Hcreate. cbn [fst snd].
    rewrite run_bind. unfold Airtable.update, Airtable.batch,
      Airtable.batchAsync.
    rewrite run_catchError.
    change (Airtable.chunks 10 [?u]) with [[u]]. cbn [Airtable.each_batch].
    rewrite run_bind, run_await. unfold js_object. cbn [foldl].
    rewrite insert_empty. fold writeBack. rewrite Hwrite. reflexivity.
  - intros newVendorId rest newVendor w1 Hnew Hlink Hfind Hzip.
    assert (Hstr : exists m, CreateBill.toString (get newVendor "Zip Code")
                             = Throw (TypeError m)).
    { destruct (get newVendor "Zip Code"); try discriminate; eexists;
        reflexivity. }
    destruct Hstr as [m Hstr]. exists m.
    unfold CreateBill.resolveVendor. rewrite Hnew, Hlink.
    cbn [CreateBill.at0 head default from_option Datatypes.id bind].
    rewrite run_bind. unfold Airtable.find.
    rewrite run_catchError, run_bind, run_await, Hfind. cbn [fst snd].
    rewrite Hstr. reflexivity.
  - intros vendor rest row w1 Hold Hlink Hfind.
    unfold CreateBill.resolveVendor. rewrite Hold, Hlink.
    cbn [CreateBill.at0 head default from_option Datatypes.id bind].
    rewrite run_getBillComId, Hfind. reflexivity.
Qed.

#[local] Abbreviation LINE_ITEMS := ("Check Request Line Items"%string).

(** X15. A line item without Category: the chart of account is left
    undefined and not looked up; the customer is the Bill.com id of the
    first linked Project. Without Project, the lookup of the line item is
    reported as failed, with a TypeError, and no customer is looked up. *)
Theorem line_item_lookups (itemId : value) (item : record) (w w1 : W) :
  h _ (Find LINE_ITEMS itemId) w = (inr item, w1) ->
  is_nullish (get item "Category") = true ->
  (forall project rest customer w2,
      get item "Project" = VArr (project :: rest) ->
      h _ (Find "Internal Customers" project) w1 = (inr customer, w2) ->
      run h (Airtable.find LINE_ITEMS itemId (CreateBill.lineItem ID)) w
      = (inr {| lid_entity := "BillLineItem";
                lid_amount := get item "Amount";
                lid_chartOfAccountId := VUndefined;
                lid_customerId := get customer ID;
                lid_description := CreateBill.lineItemDescription item |},
         w2,
         [Issued (Find LINE_ITEMS itemId);
          Issued (Find "Internal Customers" project)]))
  /\ (is_nullish (get item "Project") = true ->
      exists m,
        run h (Airtable.find LINE_ITEMS itemId (CreateBill.lineItem ID)) w
        = (inl (Error ("Error finding records in Airtable Table "
                         +:+ "Check Request Line Items: TypeError: " +:+ m)),
           w1, [Issued (Find LINE_ITEMS itemId)])).
Proof.
  intros Hfind Hcategory. split.
  - intros project rest customer w2 Hproject Hcustomer.
    unfold Airtable.find.
    rewrite run_catchError, run_bind, run_await, Hfind. cbn [fst snd].
    unfold CreateBill.lineItem. rewrite Hcategory, Hproject.
    cbn [CreateBill.at0 head default from_option Datatypes.id bind].
    rewrite run_bind, run_getBillComId, Hcustomer. reflexivity.
  - intros Hproject.
    assert (Hat : exists m, CreateBill.at0 (get item "Project")
                            = Throw (TypeError m)).
    { destruct (get item "Project"); try discriminate; eexists;
        reflexivity. }
    destruct Hat as [m Hat]. exists m. unfold Airtable.find.
    rewrite run_catchError, run_bind, run_await, Hfind. cbn [fst snd].
    unfold CreateBill.lineItem. rewrite Hcategory, Hat. reflexivity.
Qed.

#[local] Abbreviation setApprovers :=
  (CreateBill.setApprovers ID finalApproverUserId).

Lemma run_approver_lookups (aids : list value) (rows : list record) (w : W) :
  Forall2 (fun aid r => forall w0, h _ (Find "Users" aid) w0 = (inr r, w0))
          aids rows ->
  run h (all_mapped (AsyncFunction (getBillComId "Users")) aids tt) w
  = (inr (map (fun r => get r ID) rows, tt), w,
     map (fun aid => Issued (Find "Users" aid)) aids).
Proof.
  intros Hrows. unfold all_mapped. rewrite run_bind.
  assert (Hmap : run h (js_map (AsyncFunction (getBillComId "Users")) aids tt)
                     w
                 = (inr (map (fun r => Pending (Ret (get r ID))) rows, tt), w,
                    map (fun aid => Issued (Find "Users" aid)) aids)).
  { induction Hrows as [|aid r aids rows Hr _ IH]; [reflexivity|].
    cbn [js_map]. rewrite run_bind.
    unfold CreateBill.getBillComId at 1, Airtable.find, Airtable.catchError,
      await.
    cbn [bind catch started run]. rewrite Hr. cbn [run fst snd].
    rewrite run_bind, IH. cbn [run bind catch app map].
    rewrite ?app_nil_r. reflexivity. }
  rewrite Hmap. cbn iota beta.
  rewrite (promise_all_resumed _ (map (fun r => get r ID) rows));
    [cbn [bind run]; rewrite app_nil_r; reflexivity| |].
  - clear. induction rows; simpl; auto.
  - rewrite !map_map. reflexivity.
Qed.

(** X16. The approvers submitted for a bill are the Bill.com ids of the
    linked Users rows, in order, followed by the final approver; with no
    approver linked, the final approver alone. The rows are looked up
    before the approvers are set. *)
Theorem final_approver_last (req : record) (newBillId : value)
    (aids : list value) (rows : list record) (w : W) :
  js_or (get req "Approvers") (VArr []) = VArr aids ->
  Forall2 (fun aid r => forall w0, h _ (Find "Users" aid) w0 = (inr r, w0))
          aids rows ->
  calls h (setApprovers req newBillId) w
  = map (fun aid => Issued (Find "Users" aid)) aids
    ++ [Issued (SetApprovers newBillId "Bill"
                  (map (fun r => get r ID) rows ++ [finalApproverUserId]))].
Proof.
  intros Hcell Hrows. unfold calls, CreateBill.setApprovers.
  rewrite Hcell. cbn [CreateBill.as_array bind].
  rewrite run_bind, (run_approver_lookups aids rows w Hrows).
  cbn iota beta. rewrite run_await. reflexivity.
Qed.

End Workflow.

Section Documents.
Variable PRIMARY_ORG_BILL_COM_ID : string.
Variable finalApproverUserId : value.
Context {W : Type} (h : env W).

#[local] Abbreviation ID := PRIMARY_ORG_BILL_COM_ID.
#[local] Abbreviation checkRequestFields :=
  (CreateBill.checkRequestFields ID finalApproverUserId).
#[local] Abbreviation createBill :=
  (CreateBill.createBill ID finalApproverUserId).

(** X17. When every supporting document is fetched with a 2xx status and
    every upload is accepted, the documents are handled in order: each is
    fetched from its url and uploaded at once, with the body received, its
    filename and the id of the new bill; with no document, only the
    developer key and the session id are read. *)
Theorem documents_fetched_then_uploaded (req : record) (newBillId : value)
    (docs : list attachment) (received : attachment -> response)
    (devKey sessionId : string) (w : W) :
  js_or (get req "Supporting Documents") (VArr [])
  = VArr (map VAttachment docs) ->
  (forall w0, h _ GetDevKey w0 = (inr devKey, w0)) ->
  (forall w0, h _ GetSessionId w0 = (inr sessionId, w0)) ->
  (forall a w0, a ∈ docs ->
      h _ (Fetch (VStr (url a))) w0 = (inr (received a), w0)
      /\ ok (received a) = true) ->
  (forall a w0, a ∈ docs ->
      (h _ (UploadAttachment devKey sessionId (blob (received a))
              (opt_value (filename a)) newBillId) w0).1 = inr tt) ->
  result h (CreateBill.uploadDocuments req newBillId) w = inr tt
  /\ calls h (CreateBill.uploadDocuments req newBillId) w
     = [Issued GetDevKey; Issued GetSessionId]
       ++ concat
            (map (fun a =>
                    [Issued (Fetch (VStr (url a)));
                     Issued (UploadAttachment devKey sessionId
                               (blob (received a)) (opt_value (filename a))
                               newBillId)])
                 docs).
Proof.
  intros Hcell Hkey Hsession Hfetch Hupload.
  assert (Hloop : forall w0,
    exists w1,
      run h (for_of (map VAttachment docs)
               (CreateBill.uploadDocument devKey sessionId newBillId) tt) w0
      = (inr tt, w1,
         concat
           (map (fun a =>
                   [Issued (Fetch (VStr (url a)));
                    Issued (UploadAttachment devKey sessionId
                              (blob (received a)) (opt_value (filename a))
                              newBillId)])
                docs))).
  { clear Hcell. induction docs as [|a docs' IH]; intros w0.
    - exists w0. reflexivity.
    - destruct (Hfetch a w0 ltac:(left)) as [Ha Hok].
      pose proof (Hupload a w0 ltac:(left)) as Hup.
      destruct (h _ (UploadAttachment devKey sessionId (blob (received a))
                       (opt_value (filename a)) newBillId) w0)
        as [o w1] eqn:Hcall.
      simpl in Hup. subst o.
      destruct (IH ltac:(intros; apply Hfetch; right; assumption)
                   ltac:(intros; apply Hupload; right; assumption) w1)
        as [w2 Hrest].
      exists w2. cbn [map for_of]. rewrite run_bind.
      unfold CreateBill.uploadDocument at 1.
      cbn [CreateBill.property bind]. rewrite run_bind, run_await, Ha.
      cbn [fst snd]. rewrite Hok. cbn [bind]. rewrite run_await, Hcall.
      cbn [fst snd]. destruct tt. rewrite Hrest. reflexivity. }
  destruct (Hloop w) as [w1 Hrun].
  unfold result, calls, CreateBill.uploadDocuments.
  rewrite run_bind, run_await, Hkey. cbn [fst snd].
  rewrite run_bind, run_await, Hsession. cbn [fst snd].
  rewrite Hcell. cbn [CreateBill.iterate bind]. rewrite Hrun.
  split; reflexivity.
Qed.

(** X18. Whenever the fields function of a Check Request resolves, it
    resolves to fields, never to null: [Active: true], the invoice id that
    was sent to Bill.com as the invoice number of the bill, and the id
    Bill.com answered for that bill. *)
Theorem confirmation_matches_bill (req : record) (w : W)
    (o : option (gmap string value)) :
  result h (checkRequestFields req) w = inr o ->
  exists data newBillId w0 w1,
    o = Some (js_object [("Active", VBool true);
                         ("Vendor Invoice ID", bd_invoiceNumber data);
                         (ID, newBillId)])
    /\ Issued (CreateBill data) ∈ calls h (checkRequestFields req) w
    /\ h _ (CreateBill data) w0 = (inr newBillId, w1)
    /\ CreateBill.invoiceIdOf req = Ret (bd_invoiceNumber data).
Proof.
  unfold result, calls, CreateBill.checkRequestFields. rewrite run_bind.
  destruct (run h (createBill req) w) as [[[e|[invoiceId newBillId]] w1] t1]
    eqn:Hbill; [discriminate|].
  rewrite run_bind.
  destruct (run h (CreateBill.uploadDocuments req newBillId) w1)
    as [[[e|[]] w2] t2] eqn:Hdocs; [discriminate|].
  cbn [run fst snd]. intros [= <-].
  unfold CreateBill.createBill in Hbill. rewrite run_bind in Hbill.
  destruct (run h (CreateBill.resolveVendor ID req) w)
    as [[[e|vendorId] wa] ta]; [discriminate|].
  rewrite run_bind in Hbill.
  destruct (run h (CreateBill.lineItems ID req) wa)
    as [[[e|items] wb] tb]; [discriminate|].
  rewrite run_bind in Hbill.
  assert (Hpure : (exists x, CreateBill.invoiceIdOf req = Ret x)
                  \/ exists e, CreateBill.invoiceIdOf req = Throw e).
  { unfold CreateBill.invoiceIdOf.
    destruct (truthy (get req "Vendor Invoice ID")); [eauto|].
    destruct (get req "Requester Name"); simpl; eauto. }
  destruct Hpure as [[x Hid]|[e Hid]]; rewrite Hid in Hbill;
    [|discriminate].
  cbn [run] in Hbill. rewrite run_bind, run_await in Hbill.
  set (data := {| bd_vendorId := vendorId; bd_invoiceNumber := x;
                  bd_invoiceDate := get req "Expense Date";
                  bd_dueDate := get req "Due Date";
                  bd_description := _;
                  bd_billLineItems := items |}) in Hbill.
  destruct (h _ (CreateBill data) wb) as [[e|billId] wc] eqn:Hcall;
    [discriminate|].
  cbn [fst snd] in Hbill. rewrite run_bind in Hbill.
  destruct (run h (CreateBill.setApprovers ID finalApproverUserId req billId)
              wc) as [[[e|[]] wd] td]; [discriminate|].
  cbn [run] in Hbill. injection Hbill as <- <- <- <-.
  exists data, billId, wb, wc. split; [reflexivity|]. split; [|auto].
  rewrite !elem_of_app, !elem_of_cons. naive_solver.
Qed.

End Documents.

Section MissingRequester.
Variable PRIMARY_ORG_BILL_COM_ID : string.
Variable finalApproverUserId : value.
Context {W : Type} (h : env W).

#[local] Abbreviation ID := PRIMARY_ORG_BILL_COM_ID.
#[local] Abbreviation createBill :=
  (CreateBill.createBill ID finalApproverUserId).

(** X19. A request with neither a vendor invoice id nor a requester name
    that is a string: once the vendor is resolved and the line items are
    read, the workflow throws a TypeError; no bill is created, and what the
    resolution of the vendor did (a new vendor created and written back)
    stays done. *)
Theorem missing_requester_aborts_bill (req : record) (w w1 w2 : W)
    (vendorId : value) (items : list lineItemData) (t1 t2 : list issued) :
  truthy (get req "Vendor Invoice ID") = false ->
  (forall name, get req "Requester Name" <> VStr name) ->
  run h (CreateBill.resolveVendor ID req) w = (inr vendorId, w1, t1) ->
  run h (CreateBill.lineItems ID req) w1 = (inr items, w2, t2) ->
  exists m,
    run h (createBill req) w = (inl (TypeError m), w2, t1 ++ t2).
Proof.
  intros Hnone Hname Hvendor Hitems.
  assert (Hid : exists m, CreateBill.invoiceIdOf req = Throw (TypeError m)).
  { unfold CreateBill.invoiceIdOf. rewrite Hnone.
    destruct (get req "Requester Name") as [| | | |s| |];
      try (eexists; reflexivity).
    exfalso. apply (Hname s). reflexivity. }
  destruct Hid as [m Hid]. exists m. unfold CreateBill.createBill.
  rewrite run_bind, Hvendor. cbn iota beta.
  rewrite run_bind, Hitems. cbn iota beta. rewrite Hid. cbn [bind run].
  rewrite app_nil_r. reflexivity.
Qed.

End MissingRequester.

(** ** The requester of a bill *)

Section Greedy.

(** [.+] takes the longest run of characters after which the rest of the
    pattern matches. *)
Lemma plus_dot_longest {R} (k : list ascii -> option R) (s g : list ascii)
    (v : R) (g' r' : list ascii) :
  plus_dot k s = Some (g, v) ->
  s = g' ++ r' -> capture g' -> is_Some (k r') ->
  (length g' <= length g)%nat.
Proof.
  revert g v g'. induction s as [|c s IH]; intros g v g'; simpl;
    [discriminate|].
  destruct (is_dot c) eqn:Hc; [|discriminate].
  intros Hplus Hs [Hne Hdots] Hk.
  destruct g' as [|c' g'']; [congruence|]. simpl in Hs.
  injection Hs as <- Hs. simpl in Hdots.
  apply andb_true_iff in Hdots as [_ Hdots].
  destruct g'' as [|c'' g'''].
  - destruct (plus_dot k s) as [[g0 v0]|]; [|destruct (k s)];
      try discriminate; injection Hplus as <- _; simpl; lia.
  - assert (Hcap : capture (c'' :: g''')) by (split; [discriminate|exact Hdots]).
    destruct (plus_dot k s) as [[g0 v0]|] eqn:Hrest.
    + injection Hplus as <- _. simpl.
      pose proof (IH g0 v0 (c'' :: g''') eq_refl Hs Hcap Hk). simpl in *. lia.
    + exfalso. destruct (plus_dot_complete k (c'' :: g''') r' Hcap Hk)
        as [x Hx]. rewrite <- Hs in Hx. congruence.
Qed.

End Greedy.

Section Submitter.

#[local] Abbreviation chars := list_ascii_of_string.
#[local] Abbreviation open := ("("%char).

Lemma paren_free_chars (s : string) : paren_free s = true -> open ∉ chars s.
Proof.
  unfold paren_free. intros Hall Hin. apply list_elem_of_In in Hin.
  rewrite forallb_forall in Hall. specialize (Hall _ Hin).
  simpl in Hall. discriminate.
Qed.

Lemma submitter_here (name rest : list ascii) :
  capture name -> open ∉ rest ->
  match_here SyncBills.submitterRegex
    (chars "Submitted by " ++ name ++ chars " (" ++ rest)
  = Some [("1"%string, name)].
Proof.
  intros Hname Hrest.
  cbn [SyncBills.submitterRegex lit match_here].
  rewrite (proj2 (strip_prefix_Some (chars "Submitted by ") _ _) eq_refl).
  set (k := fun s => match strip_prefix (chars " (") s with
                     | Some _ => Some []
                     | None => None
                     end : option (list (string * list ascii))).
  change (match plus_dot k (name ++ chars " (" ++ rest) with
          | Some (g, gs) => Some (("1"%string, g) :: gs)
          | None => None
          end = Some [("1"%string, name)]).
  assert (Hk : forall r v, k r = Some v -> v = [] /\ exists t, r = chars " (" ++ t).
  { intros r v. unfold k.
    destruct (strip_prefix (chars " (") r) as [t|] eqn:Hstrip; [|discriminate].
    apply strip_prefix_Some in Hstrip. intros [= <-]. eauto. }
  assert (Hthere : is_Some (k (chars " (" ++ rest))).
  { unfold k. rewrite (proj2 (strip_prefix_Some _ _ _) eq_refl). eauto. }
  destruct (plus_dot_complete k name _ Hname Hthere) as [[g v] Hplus].
  rewrite Hplus.
  pose proof (plus_dot_longest k _ g v name _ Hplus eq_refl Hname Hthere)
    as Hlong.
  apply plus_dot_sound in Hplus as (Hg & r & Heq & Hr).
  apply Hk in Hr as [-> [t ->]].
  assert (g = name); [|subst; reflexivity].
  (* [g] is a prefix of the text at least as long as [name] *)
  clear -Heq Hlong Hrest.
  revert g Heq Hlong. induction name as [|c name IH]; intros g Heq Hlong.
  - destruct g as [|c1 [|c2 g]]; [reflexivity| |]; simpl in Heq.
    + injection Heq as _ Heq. discriminate.
    + injection Heq as _ _ Heq. exfalso. apply Hrest. rewrite Heq.
      rewrite elem_of_app. right. right. left.
  - destruct g as [|c1 g]; [simpl in Hlong; lia|].
    simpl in Heq. injection Heq as -> Heq. f_equal.
    apply IH; [exact Heq|simpl in Hlong; lia].
Qed.

Lemma submitter_match (name rest : string) :
  single_line name = true -> paren_free rest = true ->
  js_match SyncBills.submitterRegex
    ("Submitted by " +:+ name +:+ " (" +:+ rest)
  = Some [("1", name)]%string.
Proof.
  intros Hname Hrest. unfold js_match. rewrite !chars_app.
  rewrite (search_here _ _ _ (submitter_here (chars name) (chars rest)
             (single_line_capture name Hname) (paren_free_chars rest Hrest))).
  simpl. rewrite string_of_list_ascii_of_string. reflexivity.
Qed.

Lemma submitter_needs_paren (s : string) :
  paren_free s = true -> js_match SyncBills.submitterRegex s = None.
Proof.
  intros Hfree. unfold js_match.
  destruct (search SyncBills.submitterRegex (chars s)) as [gs|] eqn:Hs;
    [|reflexivity].
  exfalso. apply search_found in Hs as (skipped & rest & Heq & Hm).
  apply match_here_sound in Hm as (Hnames & _ & tail & ->).
  destruct gs as [|[k1 g] gs]; [discriminate|].
  apply (paren_free_chars s Hfree). rewrite Heq.
  assert (Hin : open ∈ chars " (") by (right; left).
  cbn [matched_text SyncBills.submitterRegex lit].
  rewrite !elem_of_app. auto 10.
Qed.

End Submitter.

Section SubmittedBy.
Variable PRIMARY_ORG : string.
Variable getYyyyMmDd : value -> value.
Variable PRIMARY_ORG_BILL_COM_ID : string.
Variable finalApproverUserId : value.

#[local] Abbreviation changeFor := (SyncBills.changeFor PRIMARY_ORG getYyyyMmDd).
#[local] Abbreviation createBill :=
  (CreateBill.createBill PRIMARY_ORG_BILL_COM_ID finalApproverUserId).

Lemma changeFor_SubmittedBy vendors chartOfAccounts customers (b : bill)
    (docs : list attachment) (item : billLineItem) (d : string) :
  changeFor vendors chartOfAccounts customers b docs item d
    !! "Submitted By"%string
  = Some match js_match SyncBills.submitterRegex
                 (default EmptyString (bill_description b)) with
         | None => VNull
         | Some gs => group_of gs "1"
         end.
Proof. unfold SyncBills.changeFor. object_lookup. Qed.

Lemma paren_free_app (s1 s2 : string) :
  paren_free (s1 +:+ s2) = paren_free s1 && paren_free s2.
Proof. unfold paren_free. rewrite chars_app, forallb_app. reflexivity. Qed.

(** X20. The description the bill-creation script gives a bill names the
    requester so that the sync recovers it: when the requester's name is
    one non-empty line and the email contains no opening parenthesis, a
    bill with that description is mirrored with the name as Submitted By.
    A bill without description, or whose description has no opening
    parenthesis, is mirrored with Submitted By null. *)
Theorem submitter_round_trip :
  (forall W (h : env W) (w : W) (req : record) (data : billData)
          (name : string),
      get req "Requester Name" = VStr name ->
      single_line name = true ->
      paren_free (to_string (get req "Requester Email")) = true ->
      Issued (CreateBill data) ∈ calls h (createBill req) w ->
      forall vendors chartOfAccounts customers b docs item d,
        bill_description b = Some (bd_description data) ->
        changeFor vendors chartOfAccounts customers b docs item d
          !! "Submitted By"%string = Some (VStr name))
  /\ (forall vendors chartOfAccounts customers b docs item d,
      paren_free (default EmptyString (bill_description b)) = true ->
      changeFor vendors chartOfAccounts customers b docs item d
        !! "Submitted By"%string = Some VNull).
Proof.
  split.
  - intros W h w req data name Hname Hline Hemail Hin vendors chartOfAccounts
      customers b docs item d Hb.
    set (text := "Submitted by " +:+ name +:+ " ("
                   +:+ to_string (get req "Requester Email") +:+ ").").
    assert (Honly : only (describedAs text) (createBill req)).
    { apply only_createBill; try (intros; exact I).
      intros vendorId invoiceId items. cbn [describedAs bd_description].
      rewrite Hname. reflexivity. }
    specialize (Honly W h w). rewrite Forall_forall in Honly.
    specialize (Honly _ Hin). cbn [describedAs] in Honly.
    rewrite changeFor_SubmittedBy, Hb, Honly.
    cbn [default from_option Datatypes.id].
    subst text. rewrite submitter_match; [reflexivity|exact Hline|].
    rewrite paren_free_app, Hemail. reflexivity.
  - intros vendors chartOfAccounts customers b docs item d Hfree.
    rewrite changeFor_SubmittedBy, submitter_needs_paren by exact Hfree.
    reflexivity.
Qed.

End SubmittedBy.

(** ** The exported helpers of common/airtable.js *)

(** X21. [isSameMso] throws a TypeError when the record has no MSO cell;
    for a cell holding links it is true exactly when the first link is
    [msoRecordId]: later links are ignored, and no link gives false. *)
Theorem isSameMso_first_link (r : record) (msoRecordId : string) :
  (is_nullish (get r "MSO") = true ->
   exists m, Airtable.isSameMso r msoRecordId = Throw (TypeError m))
  /\ (forall links,
      get r "MSO" = VArr links ->
      exists same,
        Airtable.isSameMso r msoRecordId = Ret same
        /\ (same = true <-> head links = Some (VStr msoRecordId))).
Proof.
  unfold Airtable.isSameMso. split.
  - intros Hnull. destruct (get r "MSO"); try discriminate; eauto.
  - intros links ->. destruct links as [|first rest].
    + exists false. split; [reflexivity|]. split; discriminate.
    + destruct first as [| | | |s| |];
        try (exists false; split; [reflexivity|]; split; discriminate).
      exists (String.eqb s msoRecordId). split; [reflexivity|].
      rewrite String.eqb_eq. simpl. split; [intros ->; reflexivity|].
      intros [= ->]. reflexivity.
Qed.

(** ** The sample environment *)

Lemma nextId_longer (ids : list string) (x : string) :
  x ∈ ids -> (String.length x < String.length (Sample.nextId ids))%nat.
Proof.
  induction ids as [|y ids IH]; intros Hin; [inversion Hin|].
  unfold Sample.nextId in *. cbn [foldr]. rewrite length_append.
  assert (0 < String.length (foldr append "!"%string ids))%nat.
  { clear. induction ids as [|z ids IH]; simpl; [lia|].
    rewrite length_append. lia. }
  apply elem_of_cons in Hin as [->|Hin]; [lia|].
  specialize (IH Hin). lia.
Qed.

Lemma nextId_fresh (ids : list string) : Sample.nextId ids ∉ ids.
Proof. intros Hin. apply nextId_longer in Hin. lia. Qed.

Lemma sample_consistent (mirrorRows : list record) :
  NoDup (map getId mirrorRows) ->
  World.consistent (Sample.world mirrorRows).
Proof.
  intros Hmirror. split; [|exact nextId_fresh].
  intros t. unfold World.rows, Sample.world, Sample.ledgerOf, Sample.base.
  cbn [World.tables].
  repeat (rewrite lookup_insert; case_decide;
          [simpl; first [assumption
                        |apply (bool_decide_unpack _); vm_compute; exact I]|]).
  rewrite lookup_singleton. case_decide; simpl;
    [apply (bool_decide_unpack _); vm_compute; exact I|constructor].
Qed.

(** ** The properties on the sample data *)

Module Instances.
Import World Reconciliation.

#[local] Abbreviation org := Sample.PRIMARY_ORG.
#[local] Abbreviation ymd := Sample.getYyyyMmDd.
#[local] Abbreviation sync := (SyncBills.main Sample.PRIMARY_ORG Sample.getYyyyMmDd).
#[local] Abbreviation ledger := (Sample.world Sample.mirror).
#[local] Abbreviation twice := (Sample.world Sample.duplicated).

Ltac evaluated := vm_compute; reflexivity.
Ltac decided := apply (bool_decide_unpack _); vm_compute; exact I.

#[local] Abbreviation faulty := (Sample.broken Sample.mirror).
#[local] Abbreviation penText :=
  ("2021-03-04" +:+ nl +:+ "Acme" +:+ nl +:+ "1 Main St" +:+ nl
     +:+ "Springfield | IL | 62701" +:+ nl +:+ "Pens")%string.

Lemma undescribed_line_item_stops_mirroring_witness :
  result answer sync faulty = inl SyncBills.noDescription
  /\ rows (final answer sync faulty) table = Sample.mirror
  /\ filter (fun r => keyOf org r = Some "li4"%string)
            (rows (final answer sync faulty) table) = [].
Proof.
  destruct (undescribed_line_item_stops_mirroring org ymd faulty Sample.mixed
              Sample.blank) as (Hresult & Hrows & Hnone);
    [simpl; left|simpl; right; left|reflexivity|].
  split; [exact Hresult|]. split; [rewrite Hrows; evaluated|].
  apply (Hnone Sample.mixed Sample.blank);
    [simpl; left|simpl; right; left|decided].
Defined.

Lemma undescribed_line_item_stops_deactivation_witness :
  updatesSent table (calls answer sync faulty) = []
  /\ rows (final answer sync faulty) table !! 1%nat
     = Some (Record "rec2" {[Sample.keyField := VStr "gone";
                             "Active"%string := VBool true]}).
Proof.
  refine (undescribed_line_item_stops_deactivation org ymd faulty
            Sample.mixed Sample.blank 1 _ _ _ _ _);
    [simpl; left|simpl; right; left|reflexivity|evaluated].
Defined.


Lemma line_item_mirrored_once_witness :
  described ledger = true
  /\ NoDup (map getId (rows ledger table))
  /\ NoDup (omap (keyOf org) (rows ledger table))
  /\ Sample.supplies ∈ bills ledger
  /\ Sample.pens ∈ billLineItems Sample.supplies
  /\ result answer sync ledger = inr tt
  /\ exists r,
       filter (fun r => keyOf org r = Some "li1"%string)
              (rows (final answer sync ledger) table) = [r]
       /\ get r "Active" = VBool true
       /\ entryOf org ymd (login ledger) Sample.supplies Sample.pens penText
            ⊆ cells r.
Proof.
  assert (H0 : described ledger = true) by reflexivity.
  assert (H1 : NoDup (map getId (rows ledger table))) by decided.
  assert (H2 : NoDup (omap (keyOf org) (rows ledger table))) by decided.
  assert (H3 : Sample.supplies ∈ bills ledger) by (simpl; left).
  assert (H4 : Sample.pens ∈ billLineItems Sample.supplies) by (simpl; left).
  repeat (split; [assumption|]).
  destruct (line_item_mirrored_once org ymd ledger Sample.supplies Sample.pens
              penText H0 H1 H2 H3 H4 eq_refl)
    as (Hresult & entry & r & _ & Hentry & Hfilter & Hactive & Hsub).
  split; [exact Hresult|]. exists r.
  rewrite <- Hentry; [auto|].
  intros b' item' Hb' Hitem' Hid. simpl in Hb'.
  apply list_elem_of_singleton in Hb'. subst b'. split; [reflexivity|].
  simpl in Hitem'. apply elem_of_cons in Hitem' as [->|Hitem'];
    [reflexivity|].
  apply list_elem_of_singleton in Hitem'. subst item'.
  vm_compute in Hid. discriminate.
Defined.

Lemma absent_row_deactivated_witness :
  updatesSent table (calls answer sync ledger) !! 1%nat
  = Some (UpdateSpec (VStr "rec2") {["Active"%string := VBool false]})
  /\ rows (final answer sync ledger) table !! 1%nat
     = Some (Record "rec2"
               (<["Active"%string := VBool false]>
                  {[Sample.keyField := VStr "gone";
                    "Active"%string := VBool true]})).
Proof.
  refine (absent_row_deactivated org ymd ledger 1
            (Record "rec2" {[Sample.keyField := VStr "gone";
                             "Active"%string := VBool true]}) _ _ _ _).
  - reflexivity.
  - decided.
  - evaluated.
  - intros b item Hb Hitem. simpl in Hb.
    apply list_elem_of_singleton in Hb. subst b. simpl in Hitem.
    apply elem_of_cons in Hitem as [->|Hitem];
      [vm_compute; discriminate|].
    apply list_elem_of_singleton in Hitem. subst item.
    vm_compute. discriminate.
Defined.



Lemma duplicate_key_first_wins_witness :
  exists entry,
    JsMap.get (changesOf org ymd (login twice)) "li2" = Some entry
    /\ updatesSent table (calls answer sync twice) !! 0%nat
       = Some (UpdateSpec (VStr "rec1") entry)
    /\ updatesSent table (calls answer sync twice) !! 1%nat
       = Some (UpdateSpec (VStr "rec2") {["Active"%string := VBool false]}).
Proof.
  destruct (changesOf_present org ymd (login twice) Sample.supplies
              Sample.paper)
    as [entry Hentry]; [simpl; left|simpl; right; left|simpl; eauto|].
  exists entry. split; [exact Hentry|]. split.
  - destruct (duplicate_key_first_wins org ymd twice 0
                (Record "rec1" {[Sample.keyField := VStr "li2"]}) "li2"
                entry) as (_ & Hfirst & _);
      [reflexivity|evaluated|evaluated|exact Hentry|].
    apply Hfirst. intros j r' Hj. lia.
  - destruct (duplicate_key_first_wins org ymd twice 1
                (Record "rec2" {[Sample.keyField := VStr "li2"]}) "li2"
                entry) as (_ & _ & Hlater);
      [reflexivity|evaluated|evaluated|exact Hentry|].
    apply Hlater.
    exists 0%nat, (Record "rec1" {[Sample.keyField := VStr "li2"]}).
    split; [lia|]. split; [evaluated|evaluated].
Defined.


Lemma invoice_id_synthesis_witness :
  CreateBill.invoiceIdOf Sample.request = Ret (VStr "Alexandria Bart - AB1")
  /\ CreateBill.invoiceIdOf Sample.invoiced = Ret (VStr "INV-9").
Proof.
  destruct invoice_id_synthesis as (_ & Hsynthesized & Hsupplied).
  split.
  - destruct (Hsynthesized Sample.request "Alexandria Bartholomew")
      as (invoiceId & Hid & -> & _); [evaluated|evaluated|].
    exact Hid.
  - rewrite (Hsupplied Sample.invoiced) by evaluated. evaluated.
Defined.

Lemma failed_fetch_aborts_row_witness :
  result answer
    (Airtable.updateWith CreateBill.CHECK_REQUESTS_TABLE
       (CreateBill.checkRequestFields Sample.billComId (VStr "00final"))
       Sample.request)
    ledger
  = inl (Error "Error 404 (from receipt.pdf): Not Found")
  /\ updatesSent CreateBill.CHECK_REQUESTS_TABLE
       (calls answer
          (Airtable.updateWith CreateBill.CHECK_REQUESTS_TABLE
             (CreateBill.checkRequestFields Sample.billComId
                (VStr "00final"))
             Sample.request)
          ledger) = [].
Proof.
  pose (creation := CreateBill.createBill Sample.billComId (VStr "00final")
                      Sample.request).
  pose (billed := final answer creation ledger).
  destruct (failed_fetch_aborts_row Sample.billComId (VStr "00final")
              answer Sample.request ledger billed billed billed billed
              billed (VStr "Alexandria Bart - AB1") (VStr "00b0")
              (calls answer creation ledger) [] "DEVKEY" "SESSION" [] []
              {| url := "https://dl.example.org/receipt.pdf";
                 filename := Some "receipt.pdf" |}
              Sample.notFound)
    as (Hresult & _ & _ & Hquiet).
  - evaluated.
  - evaluated.
  - evaluated.
  - evaluated.
  - evaluated.
  - evaluated.
  - simpl. lia.
  - split; [exact Hresult|exact Hquiet].
Defined.

Lemma store_failure_is_wrapped_witness :
  run offline
      (Airtable.select "Bill Reporting" EmptyString
         (Function (fun (r : record) (s : unit) => inr (tt, s))) tt) tt
  = (inl (Error ("Error selecting records in Airtable Table "
                   +:+ "Bill Reporting: ECONNRESET")),
     tt, [Issued (SelectAll "Bill Reporting" EmptyString)])
  /\ run offline
        (Airtable.find "Bill Reporting" (VStr "rec1") (fun r => Ret r)) tt
     = (inl (Error ("Error finding records in Airtable Table "
                      +:+ "Bill Reporting: ECONNRESET")),
        tt, [Issued (Find "Bill Reporting" (VStr "rec1"))])
  /\ run offline
        (Airtable.update "Bill Reporting" [UpdateSpec (VStr "rec1") ∅]) tt
     = (inl (Error ("Error updating records in Airtable Table "
                      +:+ "Bill Reporting: ECONNRESET")),
        tt, [Issued (Update "Bill Reporting" [UpdateSpec (VStr "rec1") ∅])])
  /\ run offline (Airtable.create "Bill Reporting" [∅]) tt
     = (inl (Error ("Error creating records in Airtable Table "
                      +:+ "Bill Reporting: ECONNRESET")),
        tt, [Issued (Create "Bill Reporting" [∅])]).
Proof.
  destruct (store_failure_is_wrapped offline "Bill Reporting"
              (Rejected "ECONNRESET") tt tt)
    as (Hselect & Hfind & Hupdate & Hcreate).
  split; [apply Hselect; reflexivity|].
  split; [apply Hfind; reflexivity|].
  split.
  - exact (Hupdate [UpdateSpec (VStr "rec1") ∅] [] _ [] tt [] []
             eq_refl eq_refl eq_refl).
  - exact (Hcreate [∅] [] _ [] tt [] [] eq_refl eq_refl eq_refl).
Defined.

Lemma selectAndUpdate_updates_non_null_witness :
  result Sample.stub
    (Airtable.selectAndUpdate "Bill Reporting" EmptyString Sample.review) tt
  = inr ([Some [tt]; None], tt)
  /\ calls Sample.stub
       (Airtable.selectAndUpdate "Bill Reporting" EmptyString Sample.review)
       tt
     ≡ₚ [Issued (SelectAll "Bill Reporting" EmptyString);
         Issued (Find "Reviews" (VStr "recF"));
         Issued (Update "Bill Reporting"
                   [UpdateSpec (VStr "recF")
                      {["Note"%string := VStr "seen"]}]);
         Issued (Find "Reviews" (VStr "recG"))]
  /\ calls Sample.stub
       (Airtable.selectAndUpdate "Bill Reporting" EmptyString Sample.review)
       tt
     = [Issued (SelectAll "Bill Reporting" EmptyString);
        Issued (Find "Reviews" (VStr "recF"));
        Issued (Find "Reviews" (VStr "recG"));
        Issued (Update "Bill Reporting"
                  [UpdateSpec (VStr "recF")
                     {["Note"%string := VStr "seen"]}])].
Proof.
  destruct (selectAndUpdate_updates_non_null Sample.stub "Bill Reporting"
              EmptyString Sample.review) as (_ & _ & Hall).
  destruct (Hall [Sample.found; Record "recG" ∅] tt tt
              (fun r => if String.eqb (getId r) "recF"
                        then Some {["Note"%string := VStr "seen"]}
                        else None)
              (fun r => [Issued (Find "Reviews" (VStr (getId r)))]))
    as [Hres Hcalls].
  - reflexivity.
  - intros r _. unfold Sample.review, await. cbn [bind].
    exists (inr Sample.found), []. split; [reflexivity|].
    split; [intros []; reflexivity|]. simpl. auto.
  - intros us []. reflexivity.
  - split; [exact Hres|]. split; [exact Hcalls|evaluated].
Defined.

Lemma selectAndUpdate_starts_every_row_witness :
  exists t,
    calls Sample.stub
      (Airtable.selectAndUpdate "Bill Reporting" EmptyString Sample.review)
      tt
    = Issued (SelectAll "Bill Reporting" EmptyString)
      :: map (fun r => Issued (Find "Reviews" (VStr (getId r))))
           [Sample.found; Record "recG" ∅]
         ++ t.
Proof.
  apply (selectAndUpdate_starts_every_row Sample.stub "Bill Reporting"
           EmptyString Sample.review
           (fun r => Issued (Find "Reviews" (VStr (getId r))))
           [Sample.found; Record "recG" ∅] tt tt).
  - reflexivity.
  - intros r _. eexists _, _, _. split; reflexivity.
Defined.

Lemma written_description_is_not_recovered_witness :
  exists s,
    CreateBill.lineItemDescription Sample.requestItem = VStr s
    /\ js_match SyncBills.merchantRegex s = None.
Proof.
  apply (proj1 written_description_is_not_recovered Sample.requestItem).
  evaluated.
Defined.

Lemma select_callback_failure_witness :
  run Sample.stub
      (Airtable.select "Bill Reporting" EmptyString
         (Function Sample.failFirst) tt) tt
  = (inl (Error ("Error selecting records in Airtable Table "
                   +:+ "Bill Reporting" +:+ ": "
                   +:+ exn_to_string (Error "boom"))),
     tt, [Issued (SelectAll "Bill Reporting" EmptyString)]).
Proof.
  refine (select_callback_failure Sample.stub "Bill Reporting" EmptyString
            Sample.failFirst tt tt [] [Record "recG" ∅] Sample.found
            (Error "boom") tt tt [] _ _ _); reflexivity.
Defined.

Lemma writes_in_batches_of_ten_witness :
  exists batches,
    calls answer
      (Airtable.update "Bill Reporting"
         (replicate 12 (UpdateSpec (VStr "rec1") ∅))) ledger
    = map (fun b => Issued (Update "Bill Reporting" b)) batches
    /\ length batches = 2%nat.
Proof.
  destruct (proj1 (writes_in_batches_of_ten answer "Bill Reporting")
              (replicate 12 (UpdateSpec (VStr "rec1") ∅)) ledger)
    as (batches & Hcalls & _ & _ & _ & Hlength).
  - intros b w0 Hb. simpl. destruct (decide (length b <= 10)%nat);
      [reflexivity|lia].
  - exists batches. split; [exact Hcalls|]. rewrite Hlength. reflexivity.
Defined.

Lemma isSameMso_first_link_witness :
  exists same,
    Airtable.isSameMso
      (Record "recX" {["MSO"%string := VArr [VStr "recM"; VStr "recN"]]})
      "recM"
    = Ret same
    /\ (same = true
        <-> head [VStr "recM"; VStr "recN"] = Some (VStr "recM")).
Proof.
  apply (proj2 (isSameMso_first_link
                  (Record "recX"
                     {["MSO"%string := VArr [VStr "recM"; VStr "recN"]]})
                  "recM")).
  evaluated.
Defined.

Lemma getEntityData_last_wins_witness :
  exists data,
    run Sample.stub
        (SyncBills.getEntityData Vendor SyncBills.vendorProjection) tt
    = (inr data, tt, [Issued (ListActive Vendor)])
    /\ JsMap.get data "v1"
       = Some (SyncBills.vendorProjection Sample.stationer).
Proof.
  destruct (proj2 (getEntityData_last_wins Sample.stub Vendor
                     SyncBills.vendorProjection tt)
              [Sample.stationer] tt)
    as (data & Hrun & _ & _ & Hlast); [reflexivity|].
  exists data. split; [exact Hrun|].
  apply (Hlast [] Sample.stationer []); [reflexivity|].
  intros y Hy. inversion Hy.
Defined.


Lemma creates_are_the_unmirrored_witness :
  createsSent table (calls answer sync ledger)
  = map snd (filter (fun kv => kv.1 ∉ omap (keyOf org) (rows ledger table))
                    (changesOf org ymd (login ledger))).
Proof. exact (creates_are_the_unmirrored org ymd ledger eq_refl). Defined.

Lemma one_update_per_row_witness :
  map id (updatesSent table (calls answer sync ledger))
  = [VStr "rec1"; VStr "rec2"].
Proof. exact (one_update_per_row org ymd ledger eq_refl). Defined.

Lemma mirrored_description_is_first_line_witness :
  entryOf org ymd ledger Sample.supplies Sample.notes
    (penText +:+ nl +:+ "blue")
    !! "Description"%string
  = Some (VStr "Pens").
Proof.
  apply (mirrored_description_is_first_line org ymd ledger Sample.supplies
           Sample.notes (penText +:+ nl +:+ "blue")
           "2021-03-04" "Acme" "1 Main St" "Springfield" "IL"
           "62701" "Pens" (nl +:+ "blue")); evaluated.
Defined.

Lemma submitter_round_trip_witness :
  SyncBills.changeFor org ymd [] [] []
    {| bill_id := "b2"; vendorId := "v1";
       bill_description :=
         Some "Submitted by Alexandria Bartholomew (alex@example.org).";
       invoiceDate := VStr "2021-03-04";
       invoiceNumber := VStr "Alexandria Bart - AB1";
       approvalStatus := "0"; paymentStatus := "1";
       billLineItems := [Sample.paper] |}
    [] Sample.paper "Paper"
    !! "Submitted By"%string
  = Some (VStr "Alexandria Bartholomew").
Proof.
  apply (proj1 (submitter_round_trip org ymd Sample.billComId
                  (VStr "00final"))
           unit Sample.stub tt Sample.request
           {| bd_vendorId := VStr "id1";
              bd_invoiceNumber := VStr "Alexandria Bart - AB1";
              bd_invoiceDate := VStr "2021-03-04";
              bd_dueDate := VStr "2021-04-04";
              bd_description :=
                "Submitted by Alexandria Bartholomew (alex@example.org).";
              bd_billLineItems :=
                [{| lid_entity := "BillLineItem";
                    lid_amount := VUndefined;
                    lid_chartOfAccountId := VUndefined;
                    lid_customerId := VStr "id1";
                    lid_description := VUndefined |}]
           |}
           "Alexandria Bartholomew"); try evaluated.
  apply list_elem_of_lookup. exists 3%nat. evaluated.
Defined.

Lemma vendor_resolution_witness :
  run Sample.stub
      (CreateBill.resolveVendor Sample.billComId Sample.newVendorRequest) tt
  = (inr (VStr "00v0"), tt,
     [Issued (Find CreateBill.NEW_VENDORS_TABLE (VStr "recP"));
      Issued
        (CreateVendor
           {| vd_name := get Sample.found "Name";
              vd_address1 := get Sample.found "Address Line 1";
              vd_address2 := get Sample.found "Address Line 2";
              vd_addressCity := get Sample.found "City";
              vd_addressState := get Sample.found "State";
              vd_addressZip := to_string (get Sample.found "Zip Code");
              vd_addressCountry := get Sample.found "Country";
              vd_email := get Sample.found "Email";
              vd_phone := get Sample.found "Phone" |});
      Issued
        (Update CreateBill.NEW_VENDORS_TABLE
           [UpdateSpec (VStr "recP") {[Sample.billComId := VStr "00v0"]}])]).
Proof.
  refine (proj1 (vendor_resolution Sample.billComId Sample.stub
                   Sample.newVendorRequest tt)
            (VStr "recP") [] Sample.found (VStr "00v0") tt tt tt
            _ _ _ _ _ _); evaluated.
Defined.

Lemma line_item_lookups_witness :
  run Sample.stub
      (Airtable.find "Check Request Line Items" (VStr "recL")
         (CreateBill.lineItem Sample.billComId))
      tt
  = (inr {| lid_entity := "BillLineItem";
            lid_amount := get Sample.found "Amount";
            lid_chartOfAccountId := VUndefined;
            lid_customerId := get Sample.found Sample.billComId;
            lid_description := CreateBill.lineItemDescription Sample.found |},
     tt,
     [Issued (Find "Check Request Line Items" (VStr "recL"));
      Issued (Find "Internal Customers" (VStr "recC"))]).
Proof.
  refine (proj1 (line_item_lookups Sample.billComId Sample.stub
                   (VStr "recL") Sample.found tt tt _ _)
            (VStr "recC") [] Sample.found tt _ _); evaluated.
Defined.

Lemma final_approver_last_witness :
  calls Sample.stub
    (CreateBill.setApprovers Sample.billComId (VStr "00final")
       (Record "recR"
          {["Approvers"%string := VArr [VStr "recU1"; VStr "recU2"]]})
       (VStr "00b0"))
    tt
  = map (fun aid => Issued (Find "Users" aid)) [VStr "recU1"; VStr "recU2"]
    ++ [Issued
          (SetApprovers (VStr "00b0") "Bill"
             (map (fun r => get r Sample.billComId)
                  [Sample.found; Sample.found]
              ++ [VStr "00final"]))].
Proof.
  apply (final_approver_last Sample.billComId (VStr "00final") Sample.stub);
    [evaluated|].
  repeat constructor.
Defined.

Lemma documents_fetched_then_uploaded_witness :
  result Sample.stub
    (CreateBill.uploadDocuments Sample.request (VStr "00b0")) tt
  = inr tt
  /\ calls Sample.stub
       (CreateBill.uploadDocuments Sample.request (VStr "00b0")) tt
     = [Issued GetDevKey; Issued GetSessionId]
       ++ concat
            (map (fun a =>
                    [Issued (Fetch (VStr (url a)));
                     Issued (UploadAttachment "DEVKEY" "SESSION"
                               (blob Sample.received)
                               (opt_value (filename a)) (VStr "00b0"))])
                 [{| url := "https://dl.example.org/receipt.pdf";
                     filename := Some "receipt.pdf" |}]).
Proof.
  refine (documents_fetched_then_uploaded Sample.stub Sample.request
            (VStr "00b0")
            [{| url := "https://dl.example.org/receipt.pdf";
                filename := Some "receipt.pdf" |}]
            (fun _ => Sample.received) "DEVKEY" "SESSION" tt _ _ _ _ _).
  - evaluated.
  - intros []. reflexivity.
  - intros []. reflexivity.
  - intros a [] _. split; reflexivity.
  - intros a [] _. reflexivity.
Defined.

Lemma confirmation_matches_bill_witness :
  exists data newBillId (w0 w1 : unit),
    Some (js_object [("Active"%string, VBool true);
                     ("Vendor Invoice ID"%string,
                       VStr "Alexandria Bart - AB1");
                     (Sample.billComId, VStr "00b0")])
    = Some (js_object [("Active"%string, VBool true);
                       ("Vendor Invoice ID"%string, bd_invoiceNumber data);
                       (Sample.billComId, newBillId)])
    /\ Issued (CreateBill data)
         ∈ calls Sample.stub
             (CreateBill.checkRequestFields Sample.billComId
                (VStr "00final") Sample.request) tt
    /\ Sample.stub _ (CreateBill data) w0 = (inr newBillId, w1)
    /\ CreateBill.invoiceIdOf Sample.request
       = Ret (bd_invoiceNumber data).
Proof.
  apply (confirmation_matches_bill Sample.billComId (VStr "00final")
           Sample.stub Sample.request tt).
  evaluated.
Defined.

Lemma missing_requester_aborts_bill_witness :
  exists m,
    run Sample.stub
        (CreateBill.createBill Sample.billComId (VStr "00final")
           Sample.anonymous)
        tt
    = (inl (TypeError m), tt,
       [Issued (Find "Existing Vendors" (VStr "recV"))]
       ++ [Issued (Find "Check Request Line Items" (VStr "recL"));
           Issued (Find "Internal Customers" (VStr "recC"))]).
Proof.
  refine (missing_requester_aborts_bill Sample.billComId (VStr "00final")
            Sample.stub Sample.anonymous tt tt tt (VStr "id1")
            [{| lid_entity := "BillLineItem";
                lid_amount := VUndefined;
                lid_chartOfAccountId := VUndefined;
                lid_customerId := VStr "id1";
                lid_description := VUndefined |}]
            _ _ _ _ _ _).
  - evaluated.
  - intros name. vm_compute. discriminate.
  - evaluated.
  - evaluated.
Defined.

End Instances.
